(** * EmoTune: a shallow embedding of the client logic and of the database schema

    Sources embedded here:
    - [src/frontend/src/components/Auth/RegisterPage.jsx]
      ([handleGenreToggle], [handleSubmit]);
    - [src/frontend/src/components/EmotionDetection/MainApp.jsx]
      ([emotionEmojis], [fetchMusicRecommendations], [getDummyRecommendations],
      [handleRefresh], [handleLanguageChange]);
    - [src/frontend/src/services/api.js] (the request and the response
      interceptor, [setAuthToken], [isAuthenticated], [logout], and the
      routes of [App]);
    - [src/frontend/src/components/Auth/LoginPage.jsx] ([handleSubmit],
      [handleForgotPassword]);
    - [src/frontend/src/components/Profile/ProfilePage.jsx]
      ([handleDeleteAccount]);
    - [src/backend/database/schema.sql] (tables, foreign keys, trigger, view).

    A JavaScript string is modelled as a [string] of code units below 256;
    text outside that range only occurs in literal data (a track title, the
    emojis), where it is written by its bytes and is never compared,
    lowercased or measured.  React state is a record threaded through the
    handlers and [localStorage] is a [gmap string string].  An awaited call
    is answered by a function given to the handler.  The handlers of the
    registration form, of the login form and of the main page are run up to
    their last statement; the reset flow of the login page, whose inputs
    stay editable while a request is awaited, is run event by event, the
    answer of the backend being an event of its own.

    The SQL schema is data interpreted by a small SQLite semantics: INSERT
    of one row of values, DELETE, and UPDATE with constant assignments and
    no conflict clause, on the tables of the schema.  Values are stored and
    compared as they are supplied, which is what SQLite does for values of
    the declared type of their column ([Sql.typed_value]); AUTOINCREMENT is
    bounded by the greatest rowid, and an UPDATE counts the violations of
    its foreign keys and fails at its end, as SQLite does.  The view is the
    query it names, evaluated on the stored rows (indexes have no effect on
    the stored rows and are left out). *)

From Stdlib Require Import ZArith Ascii String List.
From stdpp Require Import gmap strings list.

Local Open Scope string_scope.
Local Open Scope list_scope.
Local Open Scope Z_scope.

(** ** JavaScript helpers *)

Module JS.

(** [String.prototype.toLowerCase] on the code units a [string] holds,
    those below 256: the capital letters [A-Z] and U+00C0 to U+00DE (all
    but the multiplication sign U+00D7) move up by 32 to their small
    letter, every other code unit is left as it is.  The result stays
    below 256. *)
Definition lower_unit (c : ascii) : ascii :=
  let n := nat_of_ascii c in
  if (((65 <=? n)%nat && (n <=? 90)%nat)
      || ((192 <=? n)%nat && (n <=? 222)%nat && negb (n =? 215)%nat))%bool
  then ascii_of_nat (n + 32) else c.

Fixpoint toLowerCase (s : string) : string :=
  match s with
  | EmptyString => EmptyString
  | String c s' => String (lower_unit c) (toLowerCase s')
  end.

(** [Array.prototype.indexOf] with strict equality: the first index holding
    the element, or [-1]. *)
Fixpoint indexOf_from (x : string) (l : list string) (i : Z) : Z :=
  match l with
  | [] => -1
  | y :: l' => if decide (y = x) then i else indexOf_from x l' (i + 1)
  end.

Definition indexOf (x : string) (l : list string) : Z := indexOf_from x l 0.

(** [arr.splice(index, 1)] for [index >= 0]: removes the element at [index]
    (nothing when [index] is past the end). *)
Definition splice1 (index : Z) (l : list string) : list string :=
  delete (Z.to_nat index) l.

(** [arr.push(x)]. *)
Definition push (x : string) (l : list string) : list string := l ++ [x].

(** [arr.join(sep)]. *)
Definition join (sep : string) (l : list string) : string := String.concat sep l.

End JS.

(** ** RegisterPage.jsx *)

Module RegisterPage.

Record FormData := mkFormData {
  name : string;
  email : string;
  password : string;
  confirmPassword : string;
  preferred_genres : list string
}.

(** The component state: [formData], [loading], [error]. *)
Record State := mkState {
  formData : FormData;
  loading : bool;
  error : string
}.

(** [useState] initial values. *)
Definition initial : State :=
  mkState (mkFormData "" "" "" "" []) false "".

Definition set_preferred_genres (fd : FormData) (gs : list string) : FormData :=
  mkFormData (name fd) (email fd) (password fd) (confirmPassword fd) gs.

(** [handleGenreToggle], on the genre list alone. *)
Definition toggle (genre : string) (currentGenres : list string) : list string :=
  let index := JS.indexOf genre currentGenres in
  if index >? -1 then JS.splice1 index currentGenres
  else JS.push genre currentGenres.

(** [handleGenreToggle]: copies the list, toggles, and stores the copy with
    the other fields spread unchanged. *)
Definition handleGenreToggle (genre : string) (st : State) : State :=
  mkState (set_preferred_genres (formData st)
             (toggle genre (preferred_genres (formData st))))
          (loading st) (error st).

(** The four text inputs, by their [name] attribute. *)
Inductive Field :=
| FName
| FEmail
| FPassword
| FConfirmPassword.

(** [handleChange]: sets the field named by the input, spreads the rest. *)
Definition handleChange (f : Field) (v : string) (st : State) : State :=
  let fd := formData st in
  let fd' :=
    match f with
    | FName => mkFormData v (email fd) (password fd) (confirmPassword fd)
                 (preferred_genres fd)
    | FEmail => mkFormData (name fd) v (password fd) (confirmPassword fd)
                  (preferred_genres fd)
    | FPassword => mkFormData (name fd) (email fd) v (confirmPassword fd)
                     (preferred_genres fd)
    | FConfirmPassword => mkFormData (name fd) (email fd) (password fd) v
                            (preferred_genres fd)
    end in
  mkState fd' (loading st) (error st).

(** What the user can do to the form. *)
Inductive Edit :=
| Type_ (f : Field) (v : string)
| ClickGenre (genre : string)
| ClickRegister.

(** The body [authAPI.register] is called with. *)
Record RegisterRequest := mkRegisterRequest {
  req_name : string;
  req_email : string;
  req_password : string;
  req_preferred_genres : string
}.

(** What [await authAPI.register(...)] produces: a rejection (with the
    optional [err.response.data.message]) or the response body, of which
    [access_token] is [None] when it is not a string and [user_json] is the
    text of [JSON.stringify(response.user)]. *)
Inductive RegisterOutcome :=
| RegisterThrew (message : option string)
| RegisterReturned (success : bool) (access_token : option string)
    (user_json : string).

(** Effects of the handler visible outside the component state. *)
Inductive Effect :=
| NetRegister (r : RegisterRequest)
| StorageSetItem (key value : string)
| NavigateLater (path : string).

Section HandleSubmit.

(** [String.prototype.trim], used on the token only. *)
Variable trim : string -> string.

(** The backend's answer to a register request. *)
Variable server : RegisterRequest -> RegisterOutcome.

(** [err.response?.data?.message || fallback]: an absent or empty message is
    falsy. *)
Definition message_or (msg : option string) (fallback : string) : string :=
  match msg with
  | Some m => if bool_decide (m = "") then fallback else m
  | None => fallback
  end.

Definition setError (msg : string) (st : State) : State :=
  mkState (formData st) (loading st) msg.

Definition setLoading (b : bool) (st : State) : State :=
  mkState (formData st) b (error st).

(** [handleSubmit]: the three validations in source order, then the call.
    Calling [trim] on a token that is not a string throws, which the
    [catch] block receives as an error without a response. *)
Definition handleSubmit (st : State) : State * list Effect :=
  let fd := formData st in
  let st := setError "" st in
  if negb (bool_decide (password fd = confirmPassword fd)) then
    (setError "Passwords do not match" st, [])
  else if (String.length (password fd) <? 8)%nat then
    (setError "Password must be at least 8 characters long" st, [])
  else if (List.length (preferred_genres fd) =? 0)%nat then
    (setError "Please select at least one music genre" st, [])
  else
    let st := setLoading true st in
    let req := mkRegisterRequest (name fd) (email fd) (password fd)
                 (JS.join ", " (preferred_genres fd)) in
    match server req with
    | RegisterReturned true (Some tok) user =>
        (setLoading false st,
         [NetRegister req;
          StorageSetItem "access_token" (trim tok);
          StorageSetItem "user" user;
          NavigateLater "/app"])
    | RegisterReturned true None _ =>
        (setLoading false
           (setError (message_or None "Registration failed. Please try again.") st),
         [NetRegister req])
    | RegisterReturned false _ _ =>
        (setLoading false st, [NetRegister req])
    | RegisterThrew msg =>
        (setLoading false
           (setError (message_or msg "Registration failed. Please try again.") st),
         [NetRegister req])
    end.

Definition edit (st : State) (e : Edit) : State :=
  match e with
  | Type_ f v => handleChange f v st
  | ClickGenre g => handleGenreToggle g st
  | ClickRegister => (handleSubmit st).1
  end.

(** The form after a sequence of events, from its initial state. *)
Definition after_edits (es : list Edit) : State := foldl edit initial es.

End HandleSubmit.

(** The network calls among the effects. *)
Definition network_calls (es : list Effect) : list RegisterRequest :=
  omap (fun e => match e with NetRegister r => Some r | _ => None end) es.

(** The three client-side preconditions of a registration. *)
Definition preconditions (fd : FormData) : Prop :=
  password fd = confirmPassword fd
  ∧ (8 ≤ String.length (password fd))%nat
  ∧ preferred_genres fd ≠ [].

(** The message of the first precondition that fails, in source order. *)
Definition first_failure (fd : FormData) : string :=
  if bool_decide (password fd = confirmPassword fd) then
    if bool_decide (8 ≤ String.length (password fd))%nat then
      "Please select at least one music genre"
    else "Password must be at least 8 characters long"
  else "Passwords do not match".

End RegisterPage.

(** ** services/api.js *)

Module Api.

(** The browser environment the interceptor touches: [localStorage],
    [window.location.href], and the order in which it was touched. *)
Inductive BrowserEffect :=
| RemoveItem (key : string)
| SetHref (url : string).

Record Browser := mkBrowser {
  localStorage : gmap string string;
  href : string;
  trace : list BrowserEffect
}.

Definition removeItem (key : string) (b : Browser) : Browser :=
  mkBrowser (delete key (localStorage b)) (href b) (trace b ++ [RemoveItem key]).

Definition set_href (url : string) (b : Browser) : Browser :=
  mkBrowser (localStorage b) url (trace b ++ [SetHref url]).

(** An HTTP response, and the error axios rejects with: [error.response]
    is absent when no response arrived. *)
Record Response := mkResponse {
  status : Z;
  data : string
}.

Record AxiosError := mkAxiosError {
  response : option Response
}.

(** A settled promise. *)
Inductive Settled :=
| Resolved (r : Response)
| Rejected (e : AxiosError).

(** [error.response?.status === 401]. *)
Definition is_401 (e : AxiosError) : bool :=
  match response e with
  | Some r => status r =? 401
  | None => false
  end.

(** The response interceptor's first handler: [(response) => response]. *)
Definition on_fulfilled (r : Response) (b : Browser) : Browser * Settled :=
  (b, Resolved r).

(** The response interceptor's second handler. *)
Definition on_rejected (e : AxiosError) (b : Browser) : Browser * Settled :=
  let b :=
    if is_401 e then
      set_href "/login" (removeItem "user" (removeItem "access_token" b))
    else b in
  (b, Rejected e).

(** What the transport delivers for a request. *)
Inductive Transport :=
| NoResponse
| Http (r : Response).

(** axios's default [validateStatus]: 2xx resolves, anything else rejects
    with the response attached. *)
Definition settle (t : Transport) : Settled :=
  match t with
  | NoResponse => Rejected (mkAxiosError None)
  | Http r =>
      if ((200 <=? status r) && (status r <? 300))%bool then Resolved r
      else Rejected (mkAxiosError (Some r))
  end.

(** A call through the [api] instance: the settled promise passes through
    the response interceptor. *)
Definition api_receive (t : Transport) (b : Browser) : Browser * Settled :=
  match settle t with
  | Resolved r => on_fulfilled r b
  | Rejected e => on_rejected e b
  end.

(** A call through bare [axios] ([getModelInfo] and the [test] helpers): no
    interceptor is installed on it. *)
Definition axios_receive (t : Transport) (b : Browser) : Browser * Settled :=
  (b, settle t).

End Api.

(** ** MainApp.jsx *)

Module MainApp.

(** A track as the orchestrator hands it out; [id] and [preview_url] only
    come with catalog results. *)
Record Track := mkTrack {
  title : string;
  artist : string;
  album : string;
  id : option string;
  preview_url : option string
}.

Definition dummy (t a al : string) : Track := mkTrack t a al None None.

(** The JavaScript values that reach [setRecommendations] or are tested for
    truthiness here.  [JProto n] is the member [n] that every object literal
    inherits from [Object.prototype]; [JCall n v] stands for the result of
    calling the inherited function [n] on [v]. *)
Inductive jsval :=
| JUndefined
| JNull
| JBool (b : bool)
| JNum (z : Z)
| JStr (s : string)
| JTracks (l : list Track)
| JProto (n : string)
| JCall (n : string) (v : jsval).

Definition truthy (v : jsval) : bool :=
  match v with
  | JUndefined | JNull => false
  | JBool b => b
  | JNum z => negb (z =? 0)
  | JStr s => negb (bool_decide (s = ""))
  | JTracks _ | JProto _ | JCall _ _ => true
  end.

(** [a || b]. *)
Definition js_or (a b : jsval) : jsval := if truthy a then a else b.

(** [emotionEmojis]. *)
Definition emotionEmojis : list (string * string) :=
  [ ("happy", "😊"); ("sad", "😢"); ("angry", "😠"); ("neutral", "😐");
    ("surprised", "😲"); ("fearful", "😰"); ("disgusted", "🤢");
    ("fear", "😰"); ("disgust", "🤢"); ("surprise", "😲") ].

(** The own properties of [dummyData], in source order. *)
Definition dummyData : list (string * list Track) :=
  [ ("happy",
     [ dummy "Happy" "Pharrell Williams" "G I R L";
       dummy "Good 4 U" "Olivia Rodrigo" "SOUR";
       dummy "Uptown Funk" "Bruno Mars" "24K Magic";
       dummy "Shake It Off" "Taylor Swift" "1989";
       dummy "Walking on Sunshine" "Katrina & The Waves" "Walking on Sunshine";
       dummy "Don't Stop Me Now" "Queen" "Jazz" ]);
    ("sad",
     [ dummy "Someone Like You" "Adele" "21";
       dummy "Hurt" "Johnny Cash" "American IV";
       dummy "The Sound of Silence" "Simon & Garfunkel" "Sounds of Silence";
       dummy "Mad World" "Gary Jules" "Trading Snakeoil for Wolftickets";
       dummy "Tears in Heaven" "Eric Clapton" "Unplugged";
       dummy "Fix You" "Coldplay" "X&Y" ]);
    ("angry",
     [ dummy "In the End" "Linkin Park" "Hybrid Theory";
       dummy "Break Stuff" "Limp Bizkit" "Significant Other";
       dummy "Killing in the Name" "Rage Against the Machine" "Rage Against the Machine";
       dummy "Bodies" "Drowning Pool" "Sinner";
       dummy "Chop Suey!" "System of a Down" "Toxicity";
       dummy "Down with the Sickness" "Disturbed" "The Sickness" ]);
    ("neutral",
     [ dummy "Weightless" "Marconi Union" "Weightless";
       dummy "Clair de Lune" "Claude Debussy" "Suite Bergamasque";
       dummy "River Flows in You" "Yiruma" "First Love";
       dummy "Porcelain" "Moby" "Play";
       dummy "Breathe" "Télépopmusik" "Genetic World";
       dummy "Aqueous Transmission" "Incubus" "Morning View" ]) ].

(** Lookup in a list of own properties. *)
Fixpoint own_property {A} (k : string) (o : list (string * A)) : option A :=
  match o with
  | [] => None
  | (k', v) :: o' => if bool_decide (k' = k) then Some v else own_property k o'
  end.

(** The members an object literal inherits from [Object.prototype]. *)
Definition Object_prototype : list string :=
  [ "constructor"; "hasOwnProperty"; "isPrototypeOf"; "propertyIsEnumerable";
    "toLocaleString"; "toString"; "valueOf"; "__proto__";
    "__defineGetter__"; "__defineSetter__"; "__lookupGetter__"; "__lookupSetter__" ].

(** [dummyData[key]]: an own property, else an inherited member, else
    [undefined]. *)
Definition dummyData_get (key : string) : jsval :=
  match own_property key dummyData with
  | Some l => JTracks l
  | None => if bool_decide (key ∈ Object_prototype) then JProto key else JUndefined
  end.

(** [emotionEmojis[key]], for keys that are not inherited members. *)
Definition emoji_of (key : string) : option string := own_property key emotionEmojis.

(** [getDummyRecommendations]. *)
Definition getDummyRecommendations (emotion : string) : jsval :=
  js_or (dummyData_get (JS.toLowerCase emotion)) (dummyData_get "neutral").

(** The component state [fetchMusicRecommendations] reads and writes. *)
Record State := mkState {
  recommendations : jsval;
  language : string;
  loadingMusic : bool
}.

(** The request [musicAPI.getRecommendations] sends. *)
Record RecRequest := mkRecRequest {
  req_emotion : string;
  req_language : string;
  req_limit : Z
}.

(** The body of a catalog response, as far as it is inspected. *)
Record RecResponse := mkRecResponse {
  success : jsval;
  tracks : jsval
}.

Inductive RecOutcome :=
| CatalogThrew
| CatalogReturned (r : RecResponse).

(** A React state setter called with [v]: a function is applied to the
    previous state as an updater, any other value replaces it.  Every
    inherited member but [__proto__] is a function. *)
Definition setState (v prev : jsval) : jsval :=
  match v with
  | JProto n => if bool_decide (n = "__proto__") then v else JCall n prev
  | _ => v
  end.

(** The value [fetchMusicRecommendations] passes to [setRecommendations]. *)
Definition recommended (emotion : string) (o : RecOutcome) : jsval :=
  match o with
  | CatalogReturned r =>
      if (truthy (success r) && truthy (tracks r))%bool then tracks r
      else getDummyRecommendations emotion
  | CatalogThrew => getDummyRecommendations emotion
  end.

(** The outcomes on which the source takes the dummy data: a rejection, or
    a body whose [success && tracks] is falsy. *)
Definition falls_back (o : RecOutcome) : bool :=
  match o with
  | CatalogThrew => true
  | CatalogReturned r => negb (truthy (success r) && truthy (tracks r))
  end.

(** The labels with a table of their own in [dummyData]. *)
Definition own_labels : list string := map fst dummyData.

(** The canonical labels the specification lists. *)
Definition canonical_labels : list string :=
  [ "happy"; "sad"; "angry"; "neutral"; "surprised"; "fearful"; "disgusted" ].

Definition neutral_table : list Track :=
  default [] (own_property "neutral" dummyData).

(** What [fetchMusicRecommendations] leaves behind: the component state,
    the browser, and the request that was sent. *)
Record Fetched := mkFetched {
  f_state : State;
  f_browser : Api.Browser;
  f_request : RecRequest
}.

Section Fetch.

(** The [success] and [tracks] members of the body [response.data]; a body
    without them has them [undefined].  (Of a [null] body the handler cannot
    read [success]: it throws, and the [catch] block then sets what the
    [else] branch sets for an [undefined] success.) *)
Variable decode : string -> RecResponse.

(** What the backend answers to a request. *)
Variable catalog : RecRequest -> Api.Transport.

(** What [await musicAPI.getRecommendations(...)] produces from the settled
    promise of the [api] instance. *)
Definition awaited (s : Api.Settled) : RecOutcome :=
  match s with
  | Api.Resolved r => CatalogReturned (decode (Api.data r))
  | Api.Rejected _ => CatalogThrew
  end.

(** [fetchMusicRecommendations].  The call goes through the [api] instance,
    so its answer passes the response interceptor before the handler sees
    it. *)
Definition fetchMusicRecommendations (emotion : string) (st : State)
  (b : Api.Browser) : Fetched :=
  let req := mkRecRequest (JS.toLowerCase emotion) (language st) 6 in
  let received := Api.api_receive (catalog req) b in
  let v := recommended emotion (awaited received.2) in
  mkFetched (mkState (setState v (recommendations st)) (language st) false)
    received.1 req.

End Fetch.

(** The body [handleLikeSong] posts to [/music/like]. *)
Record LikeRequest := mkLikeRequest {
  song_title : string;
  like_artist : string;
  album_art_url : option string;
  spotify_track_id : option string;
  spotify_preview_url : option string;
  genre : string;
  emotion_detected : option string
}.

Definition handleLikeSong_body (track : Track) (detectedEmotion : option string)
  : LikeRequest :=
  mkLikeRequest (title track) (artist track) None (id track)
    (preview_url track) (album track) detectedEmotion.

End MainApp.

(** ** LoginPage.jsx: the forgot-password flow *)

Module LoginPage.

(** The three [authAPI] calls of the flow. *)
Inductive Request :=
| ForgotPassword (email : string)
| VerifyResetCode (email code : string)
| ResetPassword (email code new_password : string).

(** The reset-flow part of the component state, the timers the handler has
    scheduled, and the request the handler is waiting for, if any. *)
Record State := mkState {
  showForgotPassword : bool;
  resetEmail : string;
  resetCode : string;
  newPassword : string;
  resetStep : Z;
  resetMessage : string;
  error : string;
  loading : bool;
  pending_timers : nat;
  in_flight : option Request
}.

Definition initial : State :=
  mkState false "" "" "" 1 "" "" false 0 None.

(** What an awaited call produces: a rejection with its optional message,
    or a body with its [success] flag. *)
Inductive Outcome :=
| Threw (message : option string)
| Returned (success : bool).


Definition message_or (msg : option string) (fallback : string) : string :=
  match msg with
  | Some m => if bool_decide (m = "") then fallback else m
  | None => fallback
  end.

(** [handleForgotPassword] up to its [await]: [error] and [resetMessage]
    are cleared, [loading] is set, and the branch of the current step sends
    its request with the values of the current render.  At a step without a
    branch nothing is sent and [finally] clears [loading] at once. *)
Definition submit (st : State) : State * option Request :=
  let sending (req : Request) :=
    (mkState (showForgotPassword st) (resetEmail st) (resetCode st)
       (newPassword st) (resetStep st) "" "" true (pending_timers st)
       (Some req), Some req) in
  if resetStep st =? 1 then sending (ForgotPassword (resetEmail st))
  else if resetStep st =? 2 then
    sending (VerifyResetCode (resetEmail st) (resetCode st))
  else if resetStep st =? 3 then
    sending (ResetPassword (resetEmail st) (resetCode st) (newPassword st))
  else
    (mkState (showForgotPassword st) (resetEmail st) (resetCode st)
       (newPassword st) (resetStep st) "" "" false (pending_timers st)
       (in_flight st), None).

(** [handleForgotPassword] after its [await], for the request [req] it
    sent and the outcome [o] of the call: the state setters act on the
    state as it is by then.  A success sets the message of the branch and
    moves to the next step, or schedules the timer; a rejection sets
    [error]; [finally] clears [loading]. *)
Definition resume (st : State) (req : Request) (o : Outcome) : State :=
  match o with
  | Returned true =>
      match req with
      | ForgotPassword _ =>
          mkState (showForgotPassword st) (resetEmail st) (resetCode st)
            (newPassword st) 2
            "Reset code sent! Check the console (in production, check your email)"
            (error st) false (pending_timers st) None
      | VerifyResetCode _ _ =>
          mkState (showForgotPassword st) (resetEmail st) (resetCode st)
            (newPassword st) 3 "Code verified! Enter your new password."
            (error st) false (pending_timers st) None
      | ResetPassword _ _ _ =>
          mkState (showForgotPassword st) (resetEmail st) (resetCode st)
            (newPassword st) (resetStep st)
            "Password reset successful! You can now login."
            (error st) false (S (pending_timers st)) None
      end
  | Returned false =>
      mkState (showForgotPassword st) (resetEmail st) (resetCode st)
        (newPassword st) (resetStep st) (resetMessage st) (error st) false
        (pending_timers st) None
  | Threw m =>
      mkState (showForgotPassword st) (resetEmail st) (resetCode st)
        (newPassword st) (resetStep st) (resetMessage st)
        (message_or m "Password reset failed. Please try again.") false
        (pending_timers st) None
  end.

(** What the user, the network or a timer can do to the component. *)
Inductive Event :=
| ClickForgotPassword
| ClickBackToLogin
| TypeResetEmail (s : string)
| TypeResetCode (s : string)
| TypeNewPassword (s : string)
| Submit
| ResponseArrives
| TimerFires.

Section Flow.

Variable server : Request -> Outcome.

(** One event.  An input only exists while its step is rendered and the
    form only while [showForgotPassword] holds, whether a request is
    awaited or not; the submit button is disabled while [loading]; the
    timer callback only exists after a successful reset scheduled it; an
    event that cannot happen in a state leaves it as it is.  [Submit] is
    the form's submit event: the browser only fires it when the rendered
    input passes its own constraints, so the browser's runs are among the
    runs here.  The login form of the same component shares [loading] and
    [error] with the flow and nothing else; its handler is left out. *)
Definition step (st : State) (e : Event) : State * option Request :=
  match e with
  | ClickForgotPassword =>
      if showForgotPassword st then (st, None)
      else (mkState true (resetEmail st) (resetCode st) (newPassword st)
              (resetStep st) (resetMessage st) (error st) (loading st)
              (pending_timers st) (in_flight st), None)
  | ClickBackToLogin =>
      if showForgotPassword st then
        (mkState false (resetEmail st) (resetCode st) (newPassword st) 1 "" ""
           (loading st) (pending_timers st) (in_flight st), None)
      else (st, None)
  | TypeResetEmail s =>
      if (showForgotPassword st && (resetStep st =? 1))%bool then
        (mkState (showForgotPassword st) s (resetCode st) (newPassword st)
           (resetStep st) (resetMessage st) (error st) (loading st)
           (pending_timers st) (in_flight st), None)
      else (st, None)
  | TypeResetCode s =>
      if (showForgotPassword st && (resetStep st =? 2))%bool then
        (mkState (showForgotPassword st) (resetEmail st) s (newPassword st)
           (resetStep st) (resetMessage st) (error st) (loading st)
           (pending_timers st) (in_flight st), None)
      else (st, None)
  | TypeNewPassword s =>
      if (showForgotPassword st && (resetStep st =? 3))%bool then
        (mkState (showForgotPassword st) (resetEmail st) (resetCode st) s
           (resetStep st) (resetMessage st) (error st) (loading st)
           (pending_timers st) (in_flight st), None)
      else (st, None)
  | Submit =>
      if (showForgotPassword st && negb (loading st))%bool then submit st
      else (st, None)
  | ResponseArrives =>
      match in_flight st with
      | Some req => (resume st req (server req), None)
      | None => (st, None)
      end
  | TimerFires =>
      match pending_timers st with
      | O => (st, None)
      | S n => (mkState false "" "" "" 1 (resetMessage st) (error st)
                  (loading st) n (in_flight st), None)
      end
  end.

(** A run: the final state and the requests sent, oldest first. *)
Fixpoint run (st : State) (es : list Event) : State * list Request :=
  match es with
  | [] => (st, [])
  | e :: es' =>
      let '(st1, r) := step st e in
      let '(st2, rs) := run st1 es' in
      (st2, (option_list r ++ rs)%list)
  end.



End Flow.



End LoginPage.

(** ** backend/database/schema.sql *)

Module Sql.

Local Open Scope bool_scope.

(** SQLite values as far as the schema uses them: NULL, 64-bit integers and
    text; timestamps and booleans are stored as integers or text.  The
    schema declares no REAL or BLOB column. *)
Inductive value :=
| VNull
| VInt (z : Z)
| VText (s : string).

#[global] Instance value_eq_dec : EqDecision value.
Proof. solve_decision. Defined.

(** A row maps column names to values; a column that is not there is NULL. *)
Abbreviation row := (gmap string value).

Definition get (c : string) (r : row) : value := default VNull (r !! c).

Inductive Default :=
| NoDefault
| DefaultLit (v : value)
| DefaultCurrentTimestamp.

(** The type names the schema declares.  SQLite derives a column's affinity
    from the name: INTEGER for [INTEGER], TEXT for [TEXT], NUMERIC for
    [TIMESTAMP] and [BOOLEAN]. *)
Inductive ColType :=
| INTEGER
| TEXT
| TIMESTAMP
| BOOLEAN.

(** A column declaration.  [col_primary_key] stands for
    [INTEGER PRIMARY KEY AUTOINCREMENT]. *)
Record Column := mkColumn {
  col_name : string;
  col_type : ColType;
  col_primary_key : bool;
  col_unique : bool;
  col_not_null : bool;
  col_default : Default
}.

(** The [ON DELETE] clause of a foreign key; the schema declares no
    [ON UPDATE] clause, so updates of a parent key follow [NO ACTION]. *)
Inductive Action :=
| NoAction
| Cascade.

Record ForeignKey := mkForeignKey {
  fk_column : string;
  fk_parent : string;
  fk_parent_column : string;
  fk_on_delete : Action
}.

Record Table := mkTable {
  tbl_name : string;
  tbl_columns : list Column;
  tbl_foreign_keys : list ForeignKey
}.

(** The expressions of the trigger body. *)
Inductive Expr :=
| ECurrentTimestamp
| EOld (c : string).

(** [CREATE TRIGGER name AFTER UPDATE ON trg_table FOR EACH ROW BEGIN
    UPDATE trg_target SET trg_set_column = trg_set_to
    WHERE trg_where_column = trg_where_equals; END]. *)
Record Trigger := mkTrigger {
  trg_name : string;
  trg_table : string;
  trg_target : string;
  trg_set_column : string;
  trg_set_to : Expr;
  trg_where_column : string;
  trg_where_equals : Expr
}.

(** The one foreign key the schema declares, three times:
    [FOREIGN KEY (user_id) REFERENCES users(id) ON DELETE CASCADE]. *)
Definition user_fk : ForeignKey := mkForeignKey "user_id" "users" "id" Cascade.

(** [n TEXT], [n TEXT NOT NULL], [n INTEGER NOT NULL],
    [n INTEGER PRIMARY KEY AUTOINCREMENT],
    [n TIMESTAMP DEFAULT CURRENT_TIMESTAMP], [n TIMESTAMP NOT NULL] and
    [n BOOLEAN DEFAULT 0]. *)
Definition plain (n : string) : Column :=
  mkColumn n TEXT false false false NoDefault.
Definition not_null (n : string) : Column :=
  mkColumn n TEXT false false true NoDefault.
Definition integer_not_null (n : string) : Column :=
  mkColumn n INTEGER false false true NoDefault.
Definition primary_key (n : string) : Column :=
  mkColumn n INTEGER true false false NoDefault.
Definition timestamp_now (n : string) : Column :=
  mkColumn n TIMESTAMP false false false DefaultCurrentTimestamp.
Definition timestamp_not_null (n : string) : Column :=
  mkColumn n TIMESTAMP false false true NoDefault.
Definition flag (n : string) : Column :=
  mkColumn n BOOLEAN false false false (DefaultLit (VInt 0)).

Definition users : Table :=
  mkTable "users"
    [ primary_key "id";
      not_null "name";
      mkColumn "email" TEXT false true true NoDefault;
      not_null "password_hash";
      mkColumn "profile_picture" TEXT false false false
        (DefaultLit (VText "default_avatar.png"));
      plain "preferred_genres";
      timestamp_now "created_at";
      timestamp_now "updated_at" ]
    [].

Definition liked_songs : Table :=
  mkTable "liked_songs"
    [ primary_key "id";
      integer_not_null "user_id";
      not_null "song_title";
      not_null "artist";
      plain "album_art_url";
      plain "spotify_track_id";
      plain "spotify_preview_url";
      plain "genre";
      plain "emotion_detected";
      timestamp_now "liked_at" ]
    [ user_fk ].

Definition password_reset_codes : Table :=
  mkTable "password_reset_codes"
    [ primary_key "id";
      integer_not_null "user_id";
      not_null "reset_code";
      timestamp_now "created_at";
      timestamp_not_null "expires_at";
      flag "is_used" ]
    [ user_fk ].

Definition session_tokens : Table :=
  mkTable "session_tokens"
    [ primary_key "id";
      integer_not_null "user_id";
      mkColumn "token_jti" TEXT false true true NoDefault;
      timestamp_now "created_at";
      timestamp_not_null "expires_at";
      flag "is_revoked" ]
    [ user_fk ].

Definition schema : list Table :=
  [ users; liked_songs; password_reset_codes; session_tokens ].

Definition update_user_timestamp : Trigger :=
  mkTrigger "update_user_timestamp" "users" "users"
    "updated_at" ECurrentTimestamp "id" (EOld "id").

Definition triggers : list Trigger := [ update_user_timestamp ].

Definition find_table (t : string) : option Table :=
  List.find (fun tbl => bool_decide (tbl_name tbl = t)) schema.

(** A database: the rows of each table in insertion order, the
    AUTOINCREMENT counters, and the connection's [PRAGMA foreign_keys],
    which the schema file does not set. *)
Record DB := mkDB {
  tables : gmap string (list row);
  seq : gmap string Z;
  foreign_keys : bool
}.

Definition empty_db (fk : bool) : DB := mkDB ∅ ∅ fk.

Definition rows_of (t : string) (db : DB) : list row :=
  default [] (tables db !! t).

Definition set_rows (t : string) (rs : list row) (db : DB) : DB :=
  mkDB (<[t := rs]> (tables db)) (seq db) (foreign_keys db).

(** *** Constraint checks *)

Definition not_null_ok (tbl : Table) (r : row) : bool :=
  forallb (fun c =>
    negb (col_not_null c || col_primary_key c)
    || negb (bool_decide (get (col_name c) r = VNull)))
    (tbl_columns tbl).

(** UNIQUE and PRIMARY KEY columns against the other rows of the table;
    NULLs never collide. *)
Definition unique_ok (tbl : Table) (others : list row) (r : row) : bool :=
  forallb (fun c =>
    negb (col_unique c || col_primary_key c)
    || bool_decide (get (col_name c) r = VNull)
    || forallb (fun o =>
         negb (bool_decide (get (col_name c) o = get (col_name c) r))) others)
    (tbl_columns tbl).

(** The child side of the foreign keys: a non-NULL key needs its parent. *)
Definition fk_child_ok (db : DB) (tbl : Table) (r : row) : bool :=
  negb (foreign_keys db)
  || forallb (fun fk =>
       bool_decide (get (fk_column fk) r = VNull)
       || existsb (fun p =>
            bool_decide (get (fk_parent_column fk) p = get (fk_column fk) r))
            (rows_of (fk_parent fk) db))
       (tbl_foreign_keys tbl).

(** *** Values of the declared types *)

(** The greatest rowid, 2^63 - 1. *)
Definition max_rowid : Z := 9223372036854775807.

Definition is_int64 (z : Z) : bool := (- max_rowid - 1 <=? z) && (z <=? max_rowid).

(** A character that occurs in no numeric literal: neither a digit, a
    letter, a sign, a dot nor white space.  A text that holds one is never
    read as a number. *)
Definition is_mark (c : ascii) : bool :=
  let n := nat_of_ascii c in
  negb (((48 <=? n)%nat && (n <=? 57)%nat)
        || ((65 <=? n)%nat && (n <=? 90)%nat)
        || ((97 <=? n)%nat && (n <=? 122)%nat)
        || ((9 <=? n)%nat && (n <=? 13)%nat)
        || (n =? 32)%nat || (n =? 43)%nat || (n =? 45)%nat || (n =? 46)%nat).

Fixpoint has_mark (s : string) : bool :=
  match s with
  | EmptyString => false
  | String c s' => is_mark c || has_mark s'
  end.

(** The values a column of declared type [ty] stores exactly as they are
    supplied, whatever SQLite's affinity does to others: NULL; a 64-bit
    integer in an INTEGER, TIMESTAMP or BOOLEAN column; any text in a TEXT
    column; in a TIMESTAMP or BOOLEAN column a text that cannot be read as a
    number, such as the 'YYYY-MM-DD HH:MM:SS' of CURRENT_TIMESTAMP.  The
    model stores every value as supplied and compares values as they are,
    which is what SQLite does for these. *)
Definition typed_value (ty : ColType) (v : value) : bool :=
  match v, ty with
  | VNull, _ => true
  | VInt _, TEXT => false
  | VInt z, _ => is_int64 z
  | VText _, TEXT => true
  | VText _, INTEGER => false
  | VText s, _ => has_mark s
  end.

Definition typed_row (tbl : Table) (r : row) : bool :=
  forallb (fun c => typed_value (col_type c) (get (col_name c) r)) (tbl_columns tbl).

Definition typed_db (db : DB) : bool :=
  forallb (fun tbl => forallb (typed_row tbl) (rows_of (tbl_name tbl) db)) schema.

(** A timestamp as CURRENT_TIMESTAMP gives it: never NULL. *)
Definition is_timestamp (now : value) : bool :=
  typed_value TIMESTAMP now && negb (bool_decide (now = VNull)).

(** *** INSERT *)

Definition max_int (c : string) (rows : list row) : Z :=
  foldr (fun r m => match get c r with VInt z => Z.max z m | _ => m end) 0 rows.

(** The rowid AUTOINCREMENT hands out: above every id in the table and
    every id ever handed out.  There is none left once the counter or the
    table has reached [max_rowid]. *)
Definition next_id (t : string) (db : DB) : Z :=
  1 + Z.max (default 0 (seq db !! t)) (max_int "id" (rows_of t db)).

Definition id_left (t : string) (db : DB) : bool := next_id t db <=? max_rowid.

Definition fill (now : value) (next : Z) (supplied : row) (c : Column) : value :=
  match supplied !! col_name c with
  | Some VNull => if col_primary_key c then VInt next else VNull
  | Some v => v
  | None =>
      match col_default c with
      | DefaultLit v => v
      | DefaultCurrentTimestamp => now
      | NoDefault => if col_primary_key c then VInt next else VNull
      end
  end.

Definition build_row (now : value) (next : Z) (tbl : Table) (supplied : row) : row :=
  list_to_map (map (fun c => (col_name c, fill now next supplied c))
                 (tbl_columns tbl)).

(** [INSERT INTO t (...) VALUES (...)] at time [now]; [None] when the
    statement is rejected.  A row that leaves its id to the table needs an
    id to be left. *)
Definition exec_insert (now : value) (t : string) (supplied : row) (db : DB)
  : option DB :=
  match find_table t with
  | None => None
  | Some tbl =>
      let r := build_row now (next_id t db) tbl supplied in
      if forallb (fun k => bool_decide (k ∈ map col_name (tbl_columns tbl)))
           (map fst (map_to_list supplied))
         && (negb (bool_decide (get "id" supplied = VNull)) || id_left t db)
         && not_null_ok tbl r
         && unique_ok tbl (rows_of t db) r
         && fk_child_ok db tbl r
      then
        let id := match get "id" r with VInt z => z | _ => 0 end in
        Some (mkDB (<[t := rows_of t db ++ [r]]> (tables db))
                (<[t := Z.max (default 0 (seq db !! t)) id]> (seq db))
                (foreign_keys db))
      else None
  end.

(** *** DELETE *)

(** The rows of a child table that reference one of the deleted parents
    through [fk]. *)
Definition references (fk : ForeignKey) (deleted : list row) (c : row) : bool :=
  negb (bool_decide (get (fk_column fk) c = VNull))
  && existsb (fun p =>
       bool_decide (get (fk_parent_column fk) p = get (fk_column fk) c)) deleted.

(** The effect of one foreign key of [child] on the deletion of [deleted]
    from table [t]. *)
Definition on_delete (t : string) (deleted : list row) (child : Table)
  (fk : ForeignKey) (db : option DB) : option DB :=
  db ← db;
  if negb (bool_decide (fk_parent fk = t)) then Some db
  else
    let cs := rows_of (tbl_name child) db in
    match fk_on_delete fk with
    | Cascade =>
        Some (set_rows (tbl_name child)
                (List.filter (fun c => negb (references fk deleted c)) cs) db)
    | NoAction =>
        if existsb (references fk deleted) cs then None else Some db
    end.

(** [DELETE FROM t WHERE P].  With foreign keys enforced, every foreign key
    that references [t] acts on the deleted rows.  The cascade goes one
    level deep: no table of this schema references a dependent table. *)
Definition exec_delete (t : string) (P : row -> bool) (db : DB) : option DB :=
  match find_table t with
  | None => None
  | Some _ =>
      let deleted := List.filter P (rows_of t db) in
      let db1 := set_rows t (List.filter (fun r => negb (P r)) (rows_of t db)) db in
      if foreign_keys db then
        foldr (fun child acc =>
                 foldr (on_delete t deleted child) acc (tbl_foreign_keys child))
          (Some db1) schema
      else Some db1
  end.

(** *** UPDATE *)

(** [SET c1 = v1, c2 = v2, ...] on one row. *)
Definition assign (assigns : list (string * value)) (r : row) : row :=
  foldl (fun acc cv => <[cv.1 := cv.2]> acc) r assigns.

Fixpoint indices_from (P : row -> bool) (rows : list row) (i : nat) : list nat :=
  match rows with
  | [] => []
  | r :: rs => (if P r then [i] else []) ++ indices_from P rs (S i)
  end.

(** The positions of the rows that satisfy [P]. *)
Definition indices_where (P : row -> bool) (rows : list row) : list nat :=
  indices_from P rows 0%nat.

(** The row at position [i] of table [t] receives [assigns], provided the
    new row passes NOT NULL, UNIQUE and PRIMARY KEY; no trigger fires.
    These constraints are checked row by row, against the table as it is
    when the row is written.  The foreign keys are counted apart, see
    [fk_row]. *)
Definition update_row (t : string) (tbl : Table) (assigns : list (string * value))
  (i : nat) (db : DB) : option DB :=
  match rows_of t db !! i with
  | None => Some db
  | Some old =>
      let new := assign assigns old in
      if not_null_ok tbl new
         && unique_ok tbl (delete i (rows_of t db)) new
      then Some (set_rows t (<[i := new]> (rows_of t db)) db)
      else None
  end.

Definition eval (now : value) (old : row) (e : Expr) : value :=
  match e with
  | ECurrentTimestamp => now
  | EOld c => get c old
  end.

(** The body of a trigger, run for the row that was [old] before the
    update.  It is an UPDATE of its own; it fires no trigger in turn
    (SQLite's [recursive_triggers] is off unless a connection sets it).
    The column the trigger of the schema assigns is part of no foreign key,
    so its UPDATE counts no violation. *)
Definition run_trigger (now : value) (old : row) (acc : option DB) (trg : Trigger)
  : option DB :=
  db ← acc;
  match find_table (trg_target trg) with
  | None => None
  | Some tbl =>
      let k := eval now old (trg_where_equals trg) in
      let hit r :=
        negb (bool_decide (k = VNull))
        && bool_decide (get (trg_where_column trg) r = k) in
      foldl (fun acc i =>
               db ← acc;
               update_row (trg_target trg) tbl
                 [(trg_set_column trg, eval now old (trg_set_to trg))] i db)
        (Some db) (indices_where hit (rows_of (trg_target trg) db))
  end.

(** One row of an UPDATE statement: the row is written, then the AFTER
    UPDATE triggers of the table run for it. *)
Definition update_and_fire (now : value) (t : string) (tbl : Table)
  (assigns : list (string * value)) (acc : option DB) (i : nat) : option DB :=
  db ← acc;
  match rows_of t db !! i with
  | None => Some db
  | Some old =>
      db1 ← update_row t tbl assigns i db;
      foldl (run_trigger now old) (Some db1)
        (List.filter (fun trg => bool_decide (trg_table trg = t)) triggers)
  end.

(** [WHERE c = v]: never true of NULL. *)
Definition col_is (c : string) (v : value) (r : row) : bool :=
  negb (bool_decide (v = VNull)) && bool_decide (get c r = v).

(** The foreign keys that reference table [t], each with its child table. *)
Definition referencing (t : string) : list (Table * ForeignKey) :=
  flat_map (fun child =>
              map (pair child)
                (List.filter (fun fk => bool_decide (fk_parent fk = t))
                   (tbl_foreign_keys child)))
    schema.

(** The rows of the child table that hold the key [k] in the column of the
    foreign key. *)
Definition children_on (db : DB) (cf : Table * ForeignKey) (k : value) : Z :=
  Z.of_nat (length (List.filter (col_is (fk_column cf.2) k)
                      (rows_of (tbl_name cf.1) db))).

Definition has_parent (db : DB) (fk : ForeignKey) (k : value) : bool :=
  existsb (fun p => bool_decide (get (fk_parent_column fk) p = k))
    (rows_of (fk_parent fk) db).

(** An UPDATE does not check its foreign keys row by row: it counts the
    violations and fails at its end when the count is positive.  Before a
    row is rewritten, each foreign key of the table whose column the
    statement assigns takes one off the count when the count is not zero
    and the old key is without a parent; each foreign key that references a
    column the statement assigns adds the child rows that hold the old
    key. *)
Definition fk_old (db : DB) (t : string) (tbl : Table) (assigned : list string)
  (old : row) (n : Z) : Z :=
  let n1 :=
    foldl (fun n fk =>
             if bool_decide (fk_column fk ∈ assigned)
                && negb (n =? 0)
                && negb (bool_decide (get (fk_column fk) old = VNull))
                && negb (has_parent db fk (get (fk_column fk) old))
             then n - 1 else n)
      n (tbl_foreign_keys tbl) in
  foldl (fun n cf =>
           if bool_decide (fk_parent_column cf.2 ∈ assigned)
           then n + children_on db cf (get (fk_parent_column cf.2) old) else n)
    n1 (referencing t).

(** After the row is rewritten, each such foreign key of the table adds one
    when the new key is without a parent, and each foreign key that
    references the table takes off, when the count is not zero, the child
    rows that hold the new key. *)
Definition fk_new (db : DB) (t : string) (tbl : Table) (assigned : list string)
  (new : row) (n : Z) : Z :=
  let n1 :=
    foldl (fun n fk =>
             if bool_decide (fk_column fk ∈ assigned)
                && negb (bool_decide (get (fk_column fk) new = VNull))
                && negb (has_parent db fk (get (fk_column fk) new))
             then n + 1 else n)
      n (tbl_foreign_keys tbl) in
  foldl (fun n cf =>
           if bool_decide (fk_parent_column cf.2 ∈ assigned) && negb (n =? 0)
           then n - children_on db cf (get (fk_parent_column cf.2) new) else n)
    n1 (referencing t).

(** The count after the row at position [i] of the database [db]. *)
Definition fk_row (t : string) (tbl : Table) (assigns : list (string * value))
  (i : nat) (db : DB) (n : Z) : Z :=
  match rows_of t db !! i with
  | None => n
  | Some old =>
      let new := assign assigns old in
      fk_new (set_rows t (<[i := new]> (rows_of t db)) db) t tbl (map fst assigns) new
        (fk_old db t tbl (map fst assigns) old n)
  end.

(** One row of an UPDATE statement with the count of its foreign keys. *)
Definition update_counted (now : value) (t : string) (tbl : Table)
  (assigns : list (string * value)) (acc : option (DB * Z)) (i : nat)
  : option (DB * Z) :=
  dn ← acc;
  db' ← update_and_fire now t tbl assigns (Some dn.1) i;
  Some (db', fk_row t tbl assigns i dn.1 dn.2).

(** [UPDATE t SET c1 = v1, c2 = v2, ... WHERE P] at time [now], with
    constant values and no [OR] conflict clause: the rows that satisfy [P]
    when the statement starts are updated one after the other; a rejected
    row rejects the statement, and so does, on a connection that enforces
    foreign keys, a positive count of violations at the end.  The rows are
    visited in the order the table holds them here; the assignments being
    constants, the order does not change the outcome on a table whose keys
    are distinct. *)
Definition exec_update (now : value) (t : string) (P : row -> bool)
  (assigns : list (string * value)) (db : DB) : option DB :=
  match find_table t with
  | None => None
  | Some tbl =>
      if forallb (fun cv => bool_decide (cv.1 ∈ map col_name (tbl_columns tbl)))
           assigns
      then
        dn ← foldl (update_counted now t tbl assigns) (Some (db, 0))
               (indices_where P (rows_of t db));
        if foreign_keys db && (0 <? dn.2) then None else Some dn.1
      else None
  end.

(** *** Statements *)

(** The statements of the model: INSERT of one row of values, DELETE, and
    UPDATE as above, each on a table of the schema.  A statement on a table
    the schema does not declare gives [None], as SQLite does for a table
    that does not exist.  Statements on [sqlite_sequence], the table SQLite
    keeps the AUTOINCREMENT counters in (the field [seq] here), are not
    part of the model: a property of runs that depends on the counters is
    stated for statements on the tables of the schema. *)
Inductive Stmt :=
| Insert (t : string) (supplied : row)
| Delete (t : string) (P : row -> bool)
| Update (t : string) (P : row -> bool) (assigns : list (string * value)).

Definition exec (now : value) (s : Stmt) (db : DB) : option DB :=
  match s with
  | Insert t supplied => exec_insert now t supplied db
  | Delete t P => exec_delete t P db
  | Update t P assigns => exec_update now t P assigns db
  end.

Definition typed_assigns (tbl : Table) (assigns : list (string * value)) : bool :=
  forallb (fun cv =>
             forallb (fun c => negb (bool_decide (col_name c = cv.1))
                               || typed_value (col_type c) cv.2)
               (tbl_columns tbl))
    assigns.

(** A statement of a table of the schema, run at a timestamp, whose values
    are of the declared types of their columns. *)
Definition typed_stmt (s : value * Stmt) : bool :=
  is_timestamp s.1
  && match s.2 with
     | Insert t supplied =>
         match find_table t with
         | Some tbl => typed_row tbl supplied
         | None => false
         end
     | Delete t _ => bool_decide (is_Some (find_table t))
     | Update t _ assigns =>
         match find_table t with
         | Some tbl => typed_assigns tbl assigns
         | None => false
         end
     end.

(** *** Invariants *)

(** No row of a table with a foreign key holds a key without a parent. *)
Definition no_orphans (db : DB) : Prop :=
  ∀ tbl fk c,
    tbl ∈ schema → fk ∈ tbl_foreign_keys tbl →
    c ∈ rows_of (tbl_name tbl) db →
    get (fk_column fk) c ≠ VNull →
    ∃ p, p ∈ rows_of (fk_parent fk) db
         ∧ get (fk_parent_column fk) p = get (fk_column fk) c.

(** The foreign keys of the schema, each with its table. *)
Definition declared_fks : list (Table * ForeignKey) :=
  flat_map (fun child => map (pair child) (tbl_foreign_keys child)) schema.

(** One for a key that is not NULL and is not among the keys of the
    parents. *)
Definition missing (parents : list value) (k : value) : Z :=
  if bool_decide (k = VNull) || bool_decide (k ∈ parents) then 0 else 1.

(** The rows of the child table of a foreign key whose key is without a
    parent, counted; and their number over the schema. *)
Definition orphans_of (db : DB) (cf : Table * ForeignKey) : Z :=
  foldr Z.add 0
    (map (fun c =>
            missing (map (get (fk_parent_column cf.2)) (rows_of (fk_parent cf.2) db))
              (get (fk_column cf.2) c))
       (rows_of (tbl_name cf.1) db)).

Definition orphans (db : DB) : Z := foldr Z.add 0 (map (orphans_of db) declared_fks).

(** The tables that depend on [users]. *)
Definition dependent (t : string) : Prop :=
  t = "liked_songs" ∨ t = "password_reset_codes" ∨ t = "session_tokens".

(** The invariant of a connection that enforces foreign keys. *)
Definition enforced (db : DB) : Prop := no_orphans db ∧ foreign_keys db = true.

(** The primary key of a table is unique. *)
Definition pk_unique (t : string) (db : DB) : Prop :=
  NoDup (map (get "id") (rows_of t db)).

(** Every table keeps its primary key unique. *)
Definition keys_unique (db : DB) : Prop := ∀ t, pk_unique t db.

End Sql.

(** ** The Liked-Song Ledger over the schema *)

Module Ledger.

Import Sql.

Definition opt_text (o : option string) : value :=
  match o with
  | Some s => VText s
  | None => VNull
  end.

(** The natural key of a liked song in the specification's data model
    (section 3): the user with the track id when there is one, else the
    user with title and artist. *)
Inductive Key :=
| ByTrackId (user track_id : value)
| ByTitle (user title artist : value).

#[global] Instance Key_eq_dec : EqDecision Key.
Proof. solve_decision. Defined.

Definition key_of (r : row) : Key :=
  match get "spotify_track_id" r with
  | VNull => ByTitle (get "user_id" r) (get "song_title" r) (get "artist" r)
  | v => ByTrackId (get "user_id" r) v
  end.

(** The columns a like supplies, from the request body of
    [MainApp.handleLikeSong_body]. *)
Definition supplied_row (user_id : Z) (req : MainApp.LikeRequest) : row :=
  list_to_map
    [ ("user_id", VInt user_id);
      ("song_title", VText (MainApp.song_title req));
      ("artist", VText (MainApp.like_artist req));
      ("album_art_url", opt_text (MainApp.album_art_url req));
      ("spotify_track_id", opt_text (MainApp.spotify_track_id req));
      ("spotify_preview_url", opt_text (MainApp.spotify_preview_url req));
      ("genre", VText (MainApp.genre req));
      ("emotion_detected", opt_text (MainApp.emotion_detected req)) ].

(** Modelled from the spec: the backend handler of [/music/like] is not
    part of the sources.  Section 4.4: an upsert keyed by the natural key;
    when a matching row exists the operation changes nothing and returns
    that row, otherwise it inserts a new row stamped with [liked_at = now]. *)
Definition like (now : value) (user_id : Z) (req : MainApp.LikeRequest) (db : DB)
  : option (DB * row) :=
  let s := supplied_row user_id req in
  match List.find (fun r => bool_decide (key_of r = key_of s))
          (rows_of "liked_songs" db) with
  | Some r => Some (db, r)
  | None =>
      db' ← exec_insert now "liked_songs" s db;
      r ← last (rows_of "liked_songs" db');
      Some (db', r)
  end.

(** The rows of the ledger that carry a given natural key. *)
Definition rows_with_key (k : Key) (db : DB) : list row :=
  List.filter (fun r => bool_decide (key_of r = k)) (rows_of "liked_songs" db).

(** The uniqueness invariant of the data model. *)
Definition key_unique (db : DB) : Prop :=
  NoDup (map key_of (rows_of "liked_songs" db)).

End Ledger.

(** ** The Reset Code Authority *)

Module ResetCodeAuthority.











Section Complete.

(** The password hash function. *)
Variable hash : string -> string.


End Complete.

End ResetCodeAuthority.

(** ** Runs of statements, and the view of schema.sql *)

Module SqlRun.

Import Sql.

Local Open Scope bool_scope.

(** A statement with the time it runs at; a rejected statement leaves the
    database as it was. *)
Definition apply_stmt (db : DB) (s : value * Stmt) : DB :=
  default db (exec s.1 s.2 db).

Definition run (db : DB) (ss : list (value * Stmt)) : DB := foldl apply_stmt db ss.

(** The columns declared UNIQUE or PRIMARY KEY; each of them is NOT NULL in
    this schema. *)
Definition is_key (c : Column) : bool := col_unique c || col_primary_key c.

Definition is_required (c : Column) : bool := col_not_null c || col_primary_key c.

(** The AUTOINCREMENT counter of a table. *)
Definition seq_of (t : string) (db : DB) : Z := default 0 (seq db !! t).

(** SQLite's order on the stored values: NULL first, then the integers,
    then text by its bytes. *)
Definition value_leb (a b : value) : bool :=
  match a, b with
  | VNull, _ => true
  | _, VNull => false
  | VInt x, VInt y => x <=? y
  | VInt _, VText _ => true
  | VText _, VInt _ => false
  | VText x, VText y => String.leb x y
  end.

(** [COUNT(DISTINCT e)]: the distinct values that are not NULL. *)
Definition count_distinct (vs : list value) : Z :=
  Z.of_nat (length (remove_dups (List.filter (fun v => negb (bool_decide (v = VNull))) vs))).

(** [MAX(e)]: the greatest value that is not NULL, NULL when there is
    none. *)
Definition sql_max (vs : list value) : value :=
  foldr (fun v m => if bool_decide (v = VNull) then m
                    else if value_leb v m then m else v) VNull vs.

(** [users u LEFT JOIN liked_songs ls ON u.id = ls.user_id], for one user:
    the liked songs of the user, or one all-NULL row when there is none. *)
Definition joined (u : row) (db : DB) : list row :=
  match List.filter (fun ls => negb (bool_decide (get "id" u = VNull))
                               && bool_decide (get "user_id" ls = get "id" u))
          (rows_of "liked_songs" db) with
  | [] => [∅]
  | ls => ls
  end.

(** One row of [user_statistics], for the group of the users that share the
    id of [u]; the bare columns are taken from [u]. *)
Definition statistics_row (db : DB) (u : row) : row :=
  let group := List.filter (fun v => bool_decide (get "id" v = get "id" u))
                 (rows_of "users" db) in
  let ls := concat (map (fun v => joined v db) group) in
  list_to_map
    [ ("id", get "id" u);
      ("name", get "name" u);
      ("email", get "email" u);
      ("total_liked_songs", VInt (count_distinct (map (get "id") ls)));
      ("emotions_explored", VInt (count_distinct (map (get "emotion_detected") ls)));
      ("last_activity", sql_max (map (get "liked_at") ls)) ].

(** The first user of each group, in table order. *)
Fixpoint group_heads (seen : list value) (us : list row) : list row :=
  match us with
  | [] => []
  | u :: us' =>
      if bool_decide (get "id" u ∈ seen) then group_heads seen us'
      else u :: group_heads (get "id" u :: seen) us'
  end.

(** [SELECT ... FROM users u LEFT JOIN liked_songs ls ON u.id = ls.user_id
    GROUP BY u.id]: one row per distinct user id. *)
Definition user_statistics (db : DB) : list row :=
  map (statistics_row db) (group_heads [] (rows_of "users" db)).

(** What holds of every stored row of the tables of the schema: the
    required columns are filled, and no key value occurs twice. *)
Definition required_filled (db : DB) : Prop :=
  ∀ tbl r, tbl ∈ schema → r ∈ rows_of (tbl_name tbl) db →
           not_null_ok tbl r = true.

Definition keys_distinct (db : DB) : Prop :=
  ∀ tbl c, tbl ∈ schema → c ∈ tbl_columns tbl → is_key c = true →
           NoDup (map (get (col_name c)) (rows_of (tbl_name tbl) db)).

Definition stored_ok (db : DB) : Prop := required_filled db ∧ keys_distinct db.

(** [SELECT SUM(total_liked_songs) FROM user_statistics]. *)
Definition total_of (v : row) : Z :=
  match get "total_liked_songs" v with VInt n => n | _ => 0 end.

Definition sum_of_totals (db : DB) : Z :=
  foldr Z.add 0 (map total_of (user_statistics db)).

End SqlRun.

(** ** The session: token storage, the request interceptor, the routes *)

Module Session.

Import Api.

(** The white space and line terminator code units below 256: TAB, LF, VT,
    FF, CR, SP and NBSP. *)
Definition is_space (c : ascii) : bool :=
  let n := nat_of_ascii c in
  ((9 <=? n)%nat && (n <=? 13)%nat) || (n =? 32)%nat || (n =? 160)%nat.

Fixpoint trimStart (s : string) : string :=
  match s with
  | EmptyString => EmptyString
  | String c s' => if is_space c then trimStart s' else s
  end.

Fixpoint trimEnd (s : string) : string :=
  match s with
  | EmptyString => EmptyString
  | String c s' =>
      match trimEnd s' with
      | EmptyString => if is_space c then EmptyString else String c EmptyString
      | t => String c t
      end
  end.

(** [String.prototype.trim]. *)
Definition trim (s : string) : string := trimEnd (trimStart s).

Definition dquote : ascii := ascii_of_nat 34.
Definition squote : ascii := ascii_of_nat 39.

(** The character class of the regular expression: a double or a single
    quote. *)
Definition is_quote (c : ascii) : bool :=
  bool_decide (c = dquote) || bool_decide (c = squote).

(** [s.replace(/^["']|["']$/g, '')]: the scan goes through the positions
    from the left; a quote matches at the first position (the first
    alternative) or at the last one (the second), and a match is removed. *)
Fixpoint replace_quotes (at_start : bool) (s : string) : string :=
  match s with
  | EmptyString => EmptyString
  | String c s' =>
      if is_quote c && (at_start || bool_decide (s' = EmptyString))
      then replace_quotes false s'
      else String c (replace_quotes false s')
  end.

(** [token.trim().replace(/^["']|["']$/g, '')]. *)
Definition cleanToken (token : string) : string := replace_quotes true (trim token).

(** A string as a condition: the empty string is falsy. *)
Definition nonempty (s : string) : bool := negb (bool_decide (s = EmptyString)).

(** The part of an axios request configuration the interceptor reads and
    writes. *)
Record Config := mkConfig {
  url : string;
  Authorization : option string
}.

(** The request interceptor of the [api] instance. *)
Definition request_interceptor (store : gmap string string) (config : Config)
  : Config :=
  match store !! "access_token" with
  | Some token =>
      if nonempty token
      then mkConfig (url config) (Some ("Bearer " ++ cleanToken token)%string)
      else config
  | None => config
  end.

(** [setAuthToken]: [None] stands for [null] and [undefined]. *)
Definition setAuthToken (token : option string) (store : gmap string string)
  : gmap string string :=
  match token with
  | Some t => if nonempty t then <["access_token" := t]> store
              else delete "access_token" store
  | None => delete "access_token" store
  end.

(** [isAuthenticated]: [!!localStorage.getItem('access_token')]. *)
Definition isAuthenticated (store : gmap string string) : bool :=
  match store !! "access_token" with
  | Some token => nonempty token
  | None => false
  end.

(** [logout]. *)
Definition logout (b : Browser) : Browser :=
  set_href "/login" (removeItem "user" (removeItem "access_token" b)).

(** Strings of white space only, and the strings that neither begin nor
    end with white space or a quote. *)
Fixpoint all_space (s : string) : bool :=
  match s with
  | EmptyString => true
  | String c s' => is_space c && all_space s'
  end.

Definition plain (c : ascii) : bool := negb (is_space c) && negb (is_quote c).

Fixpoint last_char (s : string) : option ascii :=
  match s with
  | EmptyString => None
  | String c EmptyString => Some c
  | String _ s' => last_char s'
  end.

Definition plain_ends (s : string) : bool :=
  match s with
  | EmptyString => true
  | String a _ => plain a && from_option plain true (last_char s)
  end.

End Session.

(** ** The routes of [App] *)

Module App.

Inductive Page := PRegister | PLogin | PMainApp | PProfile.

(** The six [Route]s, as the router selects them for a location; [Other]
    is the [*] route. *)
Inductive Route := Root | Register | Login | AppHome | Profile | Other.

(** What a route element renders to: a page, or a [Navigate]. *)
Inductive Element :=
| Render (p : Page)
| Navigate (to : Route).

(** The route a [Navigate] or an assignment to [window.location.href]
    leads to, for the paths the source writes out. *)
Definition route_of (path : string) : option Route :=
  if bool_decide (path = "/") then Some Root
  else if bool_decide (path = "/register") then Some Register
  else if bool_decide (path = "/login") then Some Login
  else if bool_decide (path = "/app") then Some AppHome
  else if bool_decide (path = "/profile") then Some Profile
  else None.

Definition ProtectedRoute (authenticated : bool) (children : Element) : Element :=
  if negb authenticated then Navigate Login else children.

Definition PublicRoute (authenticated : bool) (children : Element) : Element :=
  if authenticated then Navigate AppHome else children.

(** The [element] of each route.  The element of [/] is built when [App]
    renders, which it does once, when the page loads: [at_load] is what
    [isAuthenticated()] returned then.  [ProtectedRoute] and [PublicRoute]
    call [isAuthenticated()] when the route is shown: [now]. *)
Definition element (at_load now : bool) (r : Route) : Element :=
  match r with
  | Root => if at_load then Navigate AppHome else Navigate Register
  | Register => PublicRoute now (Render PRegister)
  | Login => PublicRoute now (Render PLogin)
  | AppHome => ProtectedRoute now (Render PMainApp)
  | Profile => ProtectedRoute now (Render PProfile)
  | Other => Navigate Root
  end.

(** Following the [Navigate]s from a route, at most [fuel] of them, while
    the stored token does not change. *)
Fixpoint shown (fuel : nat) (at_load now : bool) (r : Route) : option Page :=
  match element at_load now r with
  | Render p => Some p
  | Navigate to =>
      match fuel with
      | O => None
      | S fuel' => shown fuel' at_load now to
      end
  end.

(** The page shown after the browser loads [href]: [App] renders anew. *)
Definition loaded (b : Api.Browser) : option Page :=
  let authenticated := Session.isAuthenticated (Api.localStorage b) in
  r ← route_of (Api.href b); shown 3 authenticated authenticated r.

End App.

(** ** [LoginPage]: the login form *)

Module LoginForm.

Import Api Session.

(** [localStorage.setItem]; [trace] follows the removals and the
    navigations only. *)
Definition setItem (key value : string) (b : Browser) : Browser :=
  mkBrowser (<[key := value]> (localStorage b)) (href b) (trace b).

Record FormData := mkFormData {
  email : string;
  password : string;
  rememberMe : bool
}.

Record State := mkState {
  formData : FormData;
  loading : bool;
  error : string
}.

(** The body [authAPI.login] posts. *)
Record Credentials := mkCredentials {
  cred_email : string;
  cred_password : string
}.

(** The body of a login response, as far as the handler reads it:
    [access_token] is [None] when it is not a string, [user] is the text
    of [JSON.stringify(response.user)]. *)
Record LoginResponse := mkLoginResponse {
  success : bool;
  access_token : option string;
  user : string
}.

Record Outcome := mkOutcome {
  state : State;
  browser : Browser;
  sent : Credentials;
  navigate_later : option string
}.

Section HandleSubmit.

(** Reading [response.data], and [err.response.data.message]. *)
Variable decode : string -> LoginResponse.
Variable message_of : string -> option string.

(** What the backend answers to the credentials. *)
Variable server : Credentials -> Transport.

(** [handleSubmit]: the call goes through the [api] instance, so its
    response passes the response interceptor first.  Calling [trim] on a
    token that is not a string throws, which the [catch] block receives as
    an error without a response. *)
Definition handleSubmit (st : State) (b : Browser) : Outcome :=
  let req := mkCredentials (email (formData st)) (password (formData st)) in
  let fallback := "Login failed. Please check your credentials." in
  match api_receive (server req) b with
  | (b1, Resolved r) =>
      let body := decode (data r) in
      if success body then
        match access_token body with
        | Some tok =>
            mkOutcome (mkState (formData st) false "")
              (setItem "user" (user body) (setItem "access_token" (trim tok) b1))
              req (Some "/app")
        | None =>
            mkOutcome (mkState (formData st) false fallback) b1 req None
        end
      else mkOutcome (mkState (formData st) false "") b1 req None
  | (b1, Rejected e) =>
      mkOutcome
        (mkState (formData st) false
           (LoginPage.message_or (r ← response e; message_of (data r)) fallback))
        b1 req None
  end.

End HandleSubmit.

End LoginForm.

(** ** [RegisterPage]: the effects of a registration on the browser *)

Module RegisterEffects.

Import RegisterPage.

(** What the effects of [handleSubmit] do to [localStorage]. *)
Definition store_effect (store : gmap string string) (e : Effect)
  : gmap string string :=
  match e with
  | StorageSetItem k v => <[k := v]> store
  | _ => store
  end.

Definition stored (store : gmap string string) (es : list Effect)
  : gmap string string := foldl store_effect store es.

(** The paths of the navigations the handler schedules. *)
Definition navigations (es : list Effect) : list string :=
  omap (fun e => match e with NavigateLater p => Some p | _ => None end) es.

End RegisterEffects.

(** ** [MainApp]: refreshing and changing the language *)

Module MainAppEvents.

Import MainApp.

(** The component state the two handlers read, and the browser:
    [detectedEmotion] is [None] for [null] and otherwise holds the [emotion]
    label of the object. *)
Record View := mkView {
  core : State;
  detectedEmotion : option string;
  browser : Api.Browser
}.

Section Handlers.

Variable decode : string -> RecResponse.
Variable catalog : RecRequest -> Api.Transport.

(** [handleRefresh]. *)
Definition handleRefresh (v : View) : View * option RecRequest :=
  match detectedEmotion v with
  | Some emotion =>
      let f := fetchMusicRecommendations decode catalog emotion (core v) (browser v) in
      (mkView (f_state f) (detectedEmotion v) (f_browser f), Some (f_request f))
  | None => (v, None)
  end.

(** [handleLanguageChange]: [setLanguage] takes effect at the next render,
    while [fetchMusicRecommendations] is the closure of the current one and
    reads its [language]. *)
Definition handleLanguageChange (value : string) (v : View)
  : View * option RecRequest :=
  match detectedEmotion v with
  | Some emotion =>
      let f := fetchMusicRecommendations decode catalog emotion (core v) (browser v) in
      (mkView (mkState (recommendations (f_state f)) value (loadingMusic (f_state f)))
         (detectedEmotion v) (f_browser f), Some (f_request f))
  | None =>
      (mkView (mkState (recommendations (core v)) value (loadingMusic (core v)))
         None (browser v), None)
  end.

(** A request answered with a 401: the response interceptor loads [/login],
    and the component is gone with the page. *)
Definition unloads (r : option RecRequest) : bool :=
  match r with
  | Some req =>
      match catalog req with
      | Api.Http resp => Api.status resp =? 401
      | Api.NoResponse => false
      end
  | None => false
  end.

(** The language selector changed to each value in turn, as long as the
    page stays: the final view and the requests sent, oldest first. *)
Fixpoint change_languages (values : list string) (v : View)
  : View * list RecRequest :=
  match values with
  | [] => (v, [])
  | value :: values' =>
      let '(v1, r) := handleLanguageChange value v in
      if unloads r then (v1, option_list r)
      else
        let '(v2, rs) := change_languages values' v1 in
        (v2, option_list r ++ rs)
  end.

End Handlers.

End MainAppEvents.

(** ** [ProfilePage]: deleting the account *)

Module ProfilePage.

Import Api Session.

Record Outcome := mkOutcome {
  browser : Browser;
  alerts : list string;
  requests : nat
}.

(** [handleDeleteAccount]: [confirmed] is the answer to [window.confirm],
    [t] what the backend answers to [DELETE /user/account], which goes
    through the [api] instance. *)
Definition handleDeleteAccount (confirmed : bool) (t : Transport) (b : Browser)
  : Outcome :=
  if confirmed then
    match api_receive t b with
    | (b1, Resolved _) =>
        mkOutcome (logout b1) ["Account deleted successfully"] 1
    | (b1, Rejected _) =>
        mkOutcome b1 ["Failed to delete account. Please try again."] 1
    end
  else mkOutcome b [] 0.

End ProfilePage.

(** ** [LoginPage]: what holds along the reset flow *)

Module ResetFlow.

Import LoginPage.





End ResetFlow.

(** * Properties *)

(** ** RegisterPage.jsx *)

Module RegisterPageFacts.

Import RegisterPage.

Lemma indexOf_from_absent (x : string) (l : list string) (i : Z) :
  x ∉ l → JS.indexOf_from x l i = -1.
Proof.
  revert i. induction l as [|y l IH]; intros i Hx; simpl; [done|].
  apply not_elem_of_cons in Hx as [Hne Hx].
  destruct (decide (y = x)); [congruence|]. by apply IH.
Qed.

Lemma indexOf_from_present (x : string) (l : list string) (i : Z) :
  x ∈ l →
  ∃ l1 l2, l = (l1 ++ x :: l2) ∧ (x ∉ l1)
           ∧ JS.indexOf_from x l i = i + Z.of_nat (length l1).
Proof.
  revert i. induction l as [|y l IH]; intros i Hx; [by apply elem_of_nil in Hx|].
  simpl. destruct (decide (y = x)) as [->|Hne].
  - exists [], l. split_and!; [done|apply not_elem_of_nil|simpl; lia].
  - apply elem_of_cons in Hx as [->|Hx]; [done|].
    destruct (IH (i + 1) Hx) as (l1 & l2 & -> & Hl1 & Hidx).
    exists (y :: l1), l2. split_and!; [done| |].
    + apply not_elem_of_cons. split; [congruence|done].
    + rewrite Hidx. simpl length. lia.
Qed.

Lemma delete_middle {A} (l1 l2 : list A) (x : A) :
  delete (length l1) (l1 ++ x :: l2) = l1 ++ l2.
Proof. induction l1 as [|a l1 IH]; simpl; [done|]. by f_equal. Qed.

Lemma toggle_absent (g : string) (l : list string) :
  g ∉ l → toggle g l = l ++ [g].
Proof.
  intros Hg. unfold toggle, JS.indexOf. by rewrite indexOf_from_absent.
Qed.

Lemma toggle_present (g : string) (l : list string) :
  g ∈ l →
  ∃ l1 l2, l = (l1 ++ g :: l2) ∧ (g ∉ l1) ∧ toggle g l = l1 ++ l2.
Proof.
  intros Hg. destruct (indexOf_from_present g l 0 Hg) as (l1 & l2 & -> & Hl1 & Hidx).
  exists l1, l2. split_and!; [done..|].
  unfold toggle, JS.indexOf. rewrite Hidx.
  rewrite (proj2 (Z.gtb_lt _ _)) by lia.
  unfold JS.splice1. rewrite Z.add_0_l, Nat2Z.id. apply delete_middle.
Qed.

Lemma toggle_NoDup (g : string) (l : list string) :
  NoDup l → NoDup (toggle g l).
Proof.
  intros Hnd. destruct (decide (g ∈ l)) as [Hin|Hout].
  - destruct (toggle_present g l Hin) as (l1 & l2 & -> & _ & ->).
    apply NoDup_app in Hnd as (H1 & H12 & H2).
    apply NoDup_cons in H2 as [_ H2].
    apply NoDup_app. split_and!; [done| |done].
    intros x Hx Hx2. apply (H12 x Hx). by right.
  - rewrite toggle_absent by done.
    apply NoDup_app. split_and!; [done| |apply NoDup_singleton].
    intros x Hx ->%list_elem_of_singleton. done.
Qed.

Lemma toggle_twice_absent (g : string) (l : list string) :
  g ∉ l → toggle g (toggle g l) = l.
Proof.
  intros Hout. rewrite (toggle_absent g l) by done.
  destruct (toggle_present g (l ++ [g])) as (l1 & l2 & Heq & Hl1 & ->).
  { apply elem_of_app. right. by left. }
  assert (l1 = l ∧ l2 = []) as [-> ->]; [|by rewrite app_nil_r].
  revert l1 Heq Hl1 Hout. clear. induction l as [|a l IH]; intros l1 Heq Hl1 Hout.
  - destruct l1 as [|b l1]; simpl in *; [by inversion Heq|].
    inversion Heq; subst. by destruct l1.
  - apply not_elem_of_cons in Hout as [Hne Hout].
    destruct l1 as [|b l1]; simpl in *; inversion Heq; subst; [done|].
    apply not_elem_of_cons in Hl1 as [_ Hl1].
    destruct (IH l1) as [-> ->]; done.
Qed.

Lemma toggle_twice (g : string) (l : list string) :
  NoDup l → toggle g (toggle g l) ≡ₚ l.
Proof.
  intros Hnd. destruct (decide (g ∈ l)) as [Hin|Hout].
  - destruct (toggle_present g l Hin) as (l1 & l2 & -> & Hl1 & ->).
    apply NoDup_app in Hnd as (_ & H12 & H2).
    apply NoDup_cons in H2 as [Hl2 _].
    rewrite toggle_absent.
    + rewrite <- app_assoc. apply Permutation_app_head.
      symmetry. apply Permutation_cons_append.
    + intros [?|?]%elem_of_app; done.
  - by rewrite toggle_twice_absent.
Qed.

Lemma handleSubmit_keeps_formData (trim : string → string)
  (server : RegisterRequest → RegisterOutcome) (st : State) :
  formData (handleSubmit trim server st).1 = formData st.
Proof.
  unfold handleSubmit. simpl.
  destruct (negb _); [done|]. destruct (_ <? _)%nat; [done|].
  destruct (_ =? _)%nat; [done|]. by destruct (server _) as [?|[] [?|] ?].
Qed.

Lemma after_edits_NoDup (trim : string → string)
  (server : RegisterRequest → RegisterOutcome) (es : list Edit) :
  NoDup (preferred_genres (formData (after_edits trim server es))).
Proof.
  unfold after_edits. induction es as [|e es IH] using rev_ind.
  - apply NoDup_nil_2.
  - rewrite foldl_app. simpl. destruct e as [[] v|g|]; simpl; try done.
    + by apply toggle_NoDup.
    + by rewrite handleSubmit_keeps_formData.
Qed.

(** C9.  In every state the registration form can reach by typing, clicking
    genres and submitting, the genre list is
    duplicate-free, and [handleGenreToggle] keeps it so; toggling an absent
    genre appends it once; toggling a present genre removes its occurrence
    and leaves the rest in place; toggling twice gives back the same genres
    (a permutation of the list: the genre may have moved to the end, and
    the list itself when the genre was absent); nothing but
    [preferred_genres] changes. *)
Theorem handleGenreToggle_set_involution (trim : string → string)
  (server : RegisterRequest → RegisterOutcome) (es : list Edit) (g : string) :
  let st := after_edits trim server es in
  let l := preferred_genres (formData st) in
  let st' := handleGenreToggle g st in
  let l' := preferred_genres (formData st') in
  let l'' := preferred_genres (formData (handleGenreToggle g st')) in
  NoDup l
  ∧ NoDup l'
  ∧ (g ∉ l → l' = l ++ [g])
  ∧ (g ∈ l → (g ∉ l') ∧ ∃ l1 l2, l = (l1 ++ g :: l2) ∧ l' = l1 ++ l2)
  ∧ l'' ≡ₚ l
  ∧ (∀ x, x ∈ l'' ↔ x ∈ l)
  ∧ (g ∉ l → l'' = l)
  ∧ set_preferred_genres (formData st') l = formData st
  ∧ loading st' = loading st ∧ error st' = error st.
Proof.
  intros st l st' l' l''.
  pose proof (after_edits_NoDup trim server es) as Hnd.
  fold st in Hnd. fold l in Hnd.
  subst l' l'' st'. simpl. fold l.
  split_and!.
  - done.
  - by apply toggle_NoDup.
  - apply toggle_absent.
  - intros Hin. destruct (toggle_present g l Hin) as (l1 & l2 & Heq & Hl1 & Ht).
    split; [|by eauto].
    rewrite Ht. rewrite Heq in Hnd.
    apply NoDup_app in Hnd as (_ & H12 & H2).
    apply NoDup_cons in H2 as [Hl2 _].
    intros [?|?]%elem_of_app; done.
  - by apply toggle_twice.
  - intros x. by rewrite (toggle_twice g l Hnd).
  - apply toggle_twice_absent.
  - unfold l. by destruct (formData st).
  - done.
  - done.
Qed.

Section SubmitFacts.

Variable trim : string -> string.
Variable server : RegisterRequest -> RegisterOutcome.

Lemma handleSubmit_accepts (st : State) :
  preconditions (formData st) →
  network_calls (handleSubmit trim server st).2
  = [ mkRegisterRequest (name (formData st)) (email (formData st))
        (password (formData st))
        (JS.join ", " (preferred_genres (formData st))) ].
Proof.
  intros (Hpw & Hlen & Hg). unfold handleSubmit. simpl.
  rewrite bool_decide_eq_true_2 by done. simpl.
  destruct (Nat.ltb_spec (String.length (password (formData st))) 8); [lia|].
  destruct (preferred_genres (formData st)) eqn:Hgs; [done|]. simpl.
  by destruct (server _) as [?|[] [?|] ?].
Qed.

Lemma handleSubmit_rejects (st : State) :
  ¬ preconditions (formData st) →
  handleSubmit trim server st
  = (mkState (formData st) (loading st) (first_failure (formData st)), []).
Proof.
  intros Hno. unfold handleSubmit, first_failure. simpl.
  case_bool_decide as Hpw; simpl; [|done].
  destruct (Nat.ltb_spec (String.length (password (formData st))) 8) as [Hlt|Hge].
  { rewrite bool_decide_eq_false_2 by lia. done. }
  rewrite bool_decide_eq_true_2 by lia.
  destruct (preferred_genres (formData st)) eqn:Hgs; [done|].
  exfalso. apply Hno. split_and!; [done|lia|by rewrite Hgs].
Qed.

(** C10.  [handleSubmit] calls the backend exactly when the password equals
    its confirmation, has at least 8 characters, and a genre is selected,
    and then with the form's fields.  Otherwise it makes no call and has no
    other effect, sets [error] to the message of the first failing check,
    and leaves [formData] and [loading] as they were. *)
Theorem handleSubmit_sends_only_when_valid (st : State) :
  (preconditions (formData st) →
     network_calls (handleSubmit trim server st).2
     = [ mkRegisterRequest (name (formData st)) (email (formData st))
           (password (formData st))
           (JS.join ", " (preferred_genres (formData st))) ])
  ∧ (¬ preconditions (formData st) →
       (handleSubmit trim server st).2 = []
       ∧ formData (handleSubmit trim server st).1 = formData st
       ∧ loading (handleSubmit trim server st).1 = loading st
       ∧ error (handleSubmit trim server st).1 = first_failure (formData st)
       ∧ error (handleSubmit trim server st).1 ≠ "")
  ∧ (network_calls (handleSubmit trim server st).2 ≠ []
     ↔ preconditions (formData st)).
Proof.
  split_and!.
  - apply handleSubmit_accepts.
  - intros Hno. rewrite (handleSubmit_rejects st Hno). simpl.
    split_and!; try done.
    unfold first_failure. by repeat case_bool_decide.
  - split.
    + intros Hcalls. destruct (decide (preconditions (formData st))) as [|Hno]; [done|].
      by rewrite (handleSubmit_rejects st Hno) in Hcalls.
    + intros Hok. by rewrite (handleSubmit_accepts st Hok).
Qed.

End SubmitFacts.

(** A short password that matches its confirmation is caught by the length
    check, and a valid form is sent. *)
Lemma handleSubmit_sends_only_when_valid_witness :
  let bad := mkState (mkFormData "Ann" "a@x.com" "short" "short" ["Pop"]) false "" in
  let good := mkState (mkFormData "Ann" "a@x.com" "longenough" "longenough"
                         ["Pop"; "Jazz"]) false "" in
  let server := fun _ => RegisterThrew None in
  (handleSubmit id server bad).2 = []
  ∧ error (handleSubmit id server bad).1
    = "Password must be at least 8 characters long"
  ∧ network_calls (handleSubmit id server good).2
    = [ mkRegisterRequest "Ann" "a@x.com" "longenough" "Pop, Jazz" ].
Proof.
  intros bad good server.
  pose proof (handleSubmit_sends_only_when_valid id server bad) as (_ & Hbad & _).
  pose proof (handleSubmit_sends_only_when_valid id server good) as (Hgood & _ & _).
  assert (¬ preconditions (formData bad)) as Hno.
  { intros (_ & Hlen & _). vm_compute in Hlen. lia. }
  assert (preconditions (formData good)) as Hok.
  { split_and!; [reflexivity|vm_compute; lia|discriminate]. }
  destruct (Hbad Hno) as (H1 & _ & _ & H4 & _).
  split_and!; [exact H1|exact H4|exact (Hgood Hok)].
Defined.

End RegisterPageFacts.

(** ** MainApp.jsx *)

Module MainAppFacts.

Import MainApp.

Lemma lower_unit_idem (c : ascii) : JS.lower_unit (JS.lower_unit c) = JS.lower_unit c.
Proof. by destruct c as [[] [] [] [] [] [] [] []]. Qed.

Lemma toLowerCase_idem (s : string) : JS.toLowerCase (JS.toLowerCase s) = JS.toLowerCase s.
Proof. induction s as [|c s IH]; simpl; [done|]. by rewrite lower_unit_idem, IH. Qed.

Lemma recommended_fallback (e : string) (o : RecOutcome) :
  falls_back o = true → recommended e o = getDummyRecommendations e.
Proof.
  destruct o as [|r]; simpl; [done|].
  by destruct (truthy (success r) && truthy (tracks r))%bool.
Qed.

Lemma recommended_catalog (e : string) (r : RecResponse) :
  falls_back (CatalogReturned r) = false →
  recommended e (CatalogReturned r) = tracks r.
Proof. simpl. by destruct (truthy (success r) && truthy (tracks r))%bool. Qed.

Lemma dummyData_get_other (k : string) :
  k ∉ own_labels → k ∉ Object_prototype → dummyData_get k = JUndefined.
Proof.
  intros Hown Hproto. unfold dummyData_get.
  rewrite (bool_decide_eq_false_2 _ Hproto).
  unfold own_labels in Hown. simpl in Hown.
  simpl. repeat (case_bool_decide; [subst; exfalso; apply Hown; set_solver|]).
  done.
Qed.

Lemma dummyData_get_own (k : string) :
  k ∈ own_labels →
  ∃ l, own_property k dummyData = Some l ∧ dummyData_get k = JTracks l
       ∧ length l = 6%nat
       ∧ Forall (fun t => title t ≠ "" ∧ artist t ≠ "") l.
Proof.
  unfold own_labels. simpl. intros Hk.
  repeat (apply elem_of_cons in Hk as [->|Hk];
          [eexists; split_and!; [reflexivity..|repeat constructor; done]|]).
  by apply elem_of_nil in Hk.
Qed.

Lemma getDummyRecommendations_table (e : string) :
  JS.toLowerCase e ∉ Object_prototype →
  ∃ l, getDummyRecommendations e = JTracks l
       ∧ own_property (if bool_decide (JS.toLowerCase e ∈ own_labels)
                       then JS.toLowerCase e else "neutral") dummyData = Some l
       ∧ length l = 6%nat
       ∧ Forall (fun t => title t ≠ "" ∧ artist t ≠ "") l.
Proof.
  intros Hproto. unfold getDummyRecommendations. case_bool_decide as Hown.
  - destruct (dummyData_get_own _ Hown) as (l & Hl & Hget & Hlen & Hne).
    exists l. by rewrite Hget.
  - rewrite (dummyData_get_other _ Hown Hproto).
    destruct (dummyData_get_own "neutral") as (l & Hl & Hget & Hlen & Hne).
    { unfold own_labels. simpl. set_solver. }
    exists l. unfold js_or. simpl. by rewrite Hget.
Qed.

Lemma setState_tracks (l : list Track) (prev : jsval) :
  setState (JTracks l) prev = JTracks l.
Proof. done. Qed.

Lemma awaited_api_receive (decode : string → RecResponse) (t : Api.Transport)
  (b : Api.Browser) :
  awaited decode (Api.api_receive t b).2 = awaited decode (Api.settle t).
Proof. unfold Api.api_receive. by destruct (Api.settle t). Qed.

Lemma api_receive_browser (t : Api.Transport) (b : Api.Browser) :
  (Api.api_receive t b).1
  = match t with
    | Api.Http r =>
        if Api.status r =? 401
        then Api.set_href "/login"
               (Api.removeItem "user" (Api.removeItem "access_token" b))
        else b
    | Api.NoResponse => b
    end.
Proof.
  unfold Api.api_receive, Api.settle. destruct t as [|r]; [done|].
  destruct ((200 <=? Api.status r) && (Api.status r <? 300))%bool eqn:Hok.
  - simpl. destruct (Api.status r =? 401) eqn:H401; [|done]. lia.
  - unfold Api.on_rejected, Api.is_401. simpl.
    by destruct (Api.status r =? 401).
Qed.

(** C2, as the code has it.  When the catalog call throws, or its body has
    a falsy [success] or a falsy [tracks], the recommendations become the
    static table of the lowercased label, or the neutral table when the label
    has none (labels naming an inherited member of [Object.prototype]
    aside).  That table has six entries, which is the limit the client
    always asks for, each with a non-empty title and artist.  A body with a
    truthy [success] and a [tracks] array, empty or not, is taken as it is.
    The call goes through the [api] instance: an answer with status 401
    makes the handler fall back and has, before that, removed the stored
    session and loaded [/login]; after any other answer the browser is as
    it was. *)
Theorem fetchMusicRecommendations_fallback
  (decode : string → RecResponse) (catalog : RecRequest → Api.Transport)
  (emotion : string) (st : State) (b : Api.Browser) :
  let req := mkRecRequest (JS.toLowerCase emotion) (language st) 6 in
  let answer := awaited decode (Api.settle (catalog req)) in
  let out := fetchMusicRecommendations decode catalog emotion st b in
  (falls_back answer = true →
   JS.toLowerCase emotion ∉ Object_prototype →
   ∃ l, recommendations (f_state out) = JTracks l
        ∧ own_property (if bool_decide (JS.toLowerCase emotion ∈ own_labels)
                        then JS.toLowerCase emotion else "neutral") dummyData
          = Some l
        ∧ Z.of_nat (length l) = req_limit (f_request out)
        ∧ length l = 6%nat
        ∧ Forall (fun t => title t ≠ "" ∧ artist t ≠ "") l)
  ∧ (∀ ok l, answer = CatalogReturned (mkRecResponse ok (JTracks l)) →
       truthy ok = true → recommendations (f_state out) = JTracks l)
  ∧ f_request out = req
  ∧ f_browser out
    = match catalog req with
      | Api.Http r =>
          if Api.status r =? 401
          then Api.set_href "/login"
                 (Api.removeItem "user" (Api.removeItem "access_token" b))
          else b
      | Api.NoResponse => b
      end
  ∧ (∀ r, catalog req = Api.Http r → Api.status r = 401 → falls_back answer = true).
Proof.
  intros req answer out. subst out answer. unfold fetchMusicRecommendations.
  cbn [f_state f_browser f_request recommendations]. fold req.
  rewrite awaited_api_receive.
  split_and!; [|intros ok l Hc Hok|done|apply api_receive_browser|].
  - intros Hfb Hproto. rewrite (recommended_fallback _ _ Hfb).
    destruct (getDummyRecommendations_table emotion Hproto)
      as (l & -> & Hown & Hlen & Hne).
    exists l. rewrite Hlen. done.
  - rewrite Hc. simpl. by rewrite Hok.
  - intros r -> H401. unfold Api.settle. rewrite H401. done.
Qed.

(** The catalog is unreachable: the six tracks of the happy table, and the
    browser as it was. *)
Lemma fetchMusicRecommendations_fallback_witness :
  let decode := fun _ : string => mkRecResponse JUndefined JUndefined in
  let catalog := fun _ : RecRequest => Api.NoResponse in
  let st := mkState (JTracks []) "english" false in
  let b := Api.mkBrowser {[ "access_token" := "abc" ]} "/app" [] in
  ∃ l, recommendations
         (f_state (fetchMusicRecommendations decode catalog "happy" st b))
       = JTracks l
       ∧ own_property "happy" dummyData = Some l
       ∧ length l = 6%nat
       ∧ Forall (fun t => title t ≠ "" ∧ artist t ≠ "") l
       ∧ f_browser (fetchMusicRecommendations decode catalog "happy" st b) = b.
Proof.
  intros decode catalog st b.
  destruct (fetchMusicRecommendations_fallback decode catalog "happy" st b)
    as (H & _ & _ & Hb & _).
  destruct H as (l & H1 & H2 & _ & H4 & H5).
  - reflexivity.
  - apply (bool_decide_unpack _). vm_compute. exact I.
  - exists l. split_and!; [exact H1|exact H2|exact H4|exact H5|exact Hb].
Defined.

(** C2 as stated fails: a successful response with an empty track list is
    shown as it is, no fallback table replaces it. *)
Lemma empty_catalog_result_is_kept :
  let decode := fun _ : string => mkRecResponse (JBool true) (JTracks []) in
  let catalog := fun _ : RecRequest => Api.Http (Api.mkResponse 200 "body") in
  let st := mkState (JTracks []) "english" false in
  let b := Api.mkBrowser ∅ "/app" [] in
  recommendations (f_state (fetchMusicRecommendations decode catalog "happy" st b))
  = JTracks []
  ∧ recommendations (f_state (fetchMusicRecommendations decode catalog "happy" st b))
    ≠ getDummyRecommendations "happy".
Proof. split; [reflexivity|discriminate]. Qed.

(** C3, as the code has it.  The label is normalised by lowercasing and
    nothing else: that is the label sent to the catalog, and synonyms stay
    what they are.  Synonyms are only recognised by the emoji table, where
    each shares the emoji of its canonical label.  In the fallback, [happy],
    [sad], [angry] and [neutral] have a table of their own; every other
    label (the remaining canonical labels and the synonyms among them)
    receives the neutral table, labels naming an inherited member of
    [Object.prototype] aside. *)
Theorem emotion_label_is_lowercased_only
  (decode : string → RecResponse) (catalog : RecRequest → Api.Transport)
  (emotion : string) (st : State) (b : Api.Browser) :
  req_emotion (f_request (fetchMusicRecommendations decode catalog emotion st b))
  = JS.toLowerCase emotion
  ∧ JS.toLowerCase (JS.toLowerCase emotion) = JS.toLowerCase emotion
  ∧ (emoji_of "fear" = emoji_of "fearful"
     ∧ emoji_of "disgust" = emoji_of "disgusted"
     ∧ emoji_of "surprise" = emoji_of "surprised")
  ∧ own_labels = [ "happy"; "sad"; "angry"; "neutral" ]
  ∧ (JS.toLowerCase emotion ∈ own_labels →
     ∃ l, own_property (JS.toLowerCase emotion) dummyData = Some l
          ∧ getDummyRecommendations emotion = JTracks l)
  ∧ (JS.toLowerCase emotion ∉ own_labels →
     JS.toLowerCase emotion ∉ Object_prototype →
     getDummyRecommendations emotion = JTracks neutral_table).
Proof.
  split_and!; try done.
  - apply toLowerCase_idem.
  - intros Hown. destruct (dummyData_get_own _ Hown) as (l & Hl & Hget & _).
    exists l. split; [done|]. unfold getDummyRecommendations. by rewrite Hget.
  - intros Hown Hproto. unfold getDummyRecommendations.
    by rewrite (dummyData_get_other _ Hown Hproto).
Qed.

(** A canonical label without a table of its own gets the neutral table. *)
Lemma emotion_label_is_lowercased_only_witness :
  getDummyRecommendations "Surprised" = JTracks neutral_table
  ∧ getDummyRecommendations "fear" = JTracks neutral_table.
Proof.
  pose proof (emotion_label_is_lowercased_only
                (fun _ => mkRecResponse JUndefined JUndefined)
                (fun _ => Api.NoResponse) "Surprised"
                (mkState JNull "english" false) (Api.mkBrowser ∅ "/app" []))
    as (_ & _ & _ & _ & _ & H1).
  pose proof (emotion_label_is_lowercased_only
                (fun _ => mkRecResponse JUndefined JUndefined)
                (fun _ => Api.NoResponse) "fear"
                (mkState JNull "english" false) (Api.mkBrowser ∅ "/app" []))
    as (_ & _ & _ & _ & _ & H2).
  split; [apply H1|apply H2]; apply (bool_decide_unpack _); vm_compute; exact I.
Defined.

(** C3 as stated fails: the synonym [fear] is sent to the catalog as
    [fear]; it is not mapped to [fearful], nor to any canonical label. *)
Lemma synonym_is_not_mapped :
  let decode := fun _ : string => mkRecResponse JUndefined JUndefined in
  let catalog := fun _ : RecRequest => Api.NoResponse in
  let st := mkState (JTracks []) "english" false in
  let b := Api.mkBrowser ∅ "/app" [] in
  let sent := req_emotion
                (f_request (fetchMusicRecommendations decode catalog "Fear" st b)) in
  sent = "fear" ∧ sent ≠ "fearful" ∧ sent ∉ canonical_labels.
Proof.
  split_and!; [reflexivity|discriminate|].
  apply (bool_decide_unpack _). vm_compute. exact I.
Qed.

(** C8, as the code has it.  For labels that agree up to case and do not
    name an inherited member of [Object.prototype], the fallback is one
    table: two invocations, on any two failing answers, in any two component
    states, languages and browsers, store the same ordered list of six
    tracks. *)
Theorem fallback_is_deterministic
  (e1 e2 : string) (decode1 decode2 : string → RecResponse)
  (catalog1 catalog2 : RecRequest → Api.Transport) (st1 st2 : State)
  (b1 b2 : Api.Browser) :
  JS.toLowerCase e1 = JS.toLowerCase e2 →
  JS.toLowerCase e1 ∉ Object_prototype →
  falls_back (awaited decode1
                (Api.settle (catalog1 (mkRecRequest (JS.toLowerCase e1)
                                         (language st1) 6)))) = true →
  falls_back (awaited decode2
                (Api.settle (catalog2 (mkRecRequest (JS.toLowerCase e2)
                                         (language st2) 6)))) = true →
  ∃ l, getDummyRecommendations e1 = JTracks l
       ∧ getDummyRecommendations e2 = JTracks l
       ∧ recommendations
           (f_state (fetchMusicRecommendations decode1 catalog1 e1 st1 b1))
         = JTracks l
       ∧ recommendations
           (f_state (fetchMusicRecommendations decode2 catalog2 e2 st2 b2))
         = JTracks l
       ∧ length l = 6%nat.
Proof.
  intros Hl Hproto H1 H2.
  destruct (getDummyRecommendations_table e1 Hproto) as (l & Hd & _ & Hlen & _).
  assert (getDummyRecommendations e2 = JTracks l) as Hd2.
  { rewrite <- Hd. unfold getDummyRecommendations. by rewrite Hl. }
  exists l. split_and!; [done|done| | |done];
    unfold fetchMusicRecommendations; cbn [f_state recommendations];
    rewrite awaited_api_receive, recommended_fallback by done.
  - by rewrite Hd.
  - by rewrite Hd2.
Qed.

Lemma fallback_is_deterministic_witness :
  let b := Api.mkBrowser ∅ "/app" [] in
  getDummyRecommendations "Sad" = getDummyRecommendations "SAD"
  ∧ recommendations
      (f_state (fetchMusicRecommendations
                  (fun _ => mkRecResponse JUndefined JUndefined)
                  (fun _ => Api.NoResponse) "Sad"
                  (mkState (JTracks []) "english" false) b))
    = recommendations
        (f_state (fetchMusicRecommendations
                    (fun _ => mkRecResponse (JBool false) JNull)
                    (fun _ => Api.Http (Api.mkResponse 200 "body")) "SAD"
                    (mkState JNull "hindi" true) b)).
Proof.
  intros b.
  destruct (fallback_is_deterministic "Sad" "SAD"
              (fun _ => mkRecResponse JUndefined JUndefined)
              (fun _ => mkRecResponse (JBool false) JNull)
              (fun _ => Api.NoResponse)
              (fun _ => Api.Http (Api.mkResponse 200 "body"))
              (mkState (JTracks []) "english" false) (mkState JNull "hindi" true)
              b b)
    as (l & H1 & H2 & H3 & H4 & _);
    [reflexivity|apply (bool_decide_unpack _); vm_compute; exact I|reflexivity..|].
  split; [exact (eq_trans H1 (eq_sym H2))|exact (eq_trans H3 (eq_sym H4))].
Defined.

(** C8 as stated fails: for the label [constructor] the fallback is the
    function every object inherits under that name; React takes a function
    given to a state setter as an updater and applies it to the previous
    state, so what is stored depends on the recommendations shown before. *)
Lemma inherited_label_depends_on_state :
  let decode := fun _ : string => mkRecResponse JUndefined JUndefined in
  let catalog := fun _ : RecRequest => Api.NoResponse in
  let b := Api.mkBrowser ∅ "/app" [] in
  let shown := [ dummy "Hurt" "Johnny Cash" "American IV" ] in
  let stored (prev : jsval) :=
    recommendations
      (f_state (fetchMusicRecommendations decode catalog "constructor"
                  (mkState prev "english" false) b)) in
  stored (JTracks []) = JCall "constructor" (JTracks [])
  ∧ stored (JTracks shown) = JCall "constructor" (JTracks shown)
  ∧ stored (JTracks []) ≠ stored (JTracks shown).
Proof. split_and!; [reflexivity|reflexivity|discriminate]. Qed.

End MainAppFacts.

(** ** services/api.js *)

Module ApiFacts.

Import Api.

Lemma settle_401 (r : Response) :
  status r = 401 → settle (Http r) = Rejected (mkAxiosError (Some r)).
Proof. intros H. unfold settle. by rewrite H. Qed.

Lemma on_rejected_other (e : AxiosError) (b : Browser) :
  is_401 e = false → on_rejected e b = (b, Rejected e).
Proof. intros H. unfold on_rejected. by rewrite H. Qed.

(** C6.  A response with status 401 that arrives through the [api]
    instance makes the interceptor remove [access_token] and [user] from
    [localStorage], in that order, then point the window at [/login], and
    only then reject with the error; the other keys stay.  On any other
    status, and when no response arrives, the browser state is untouched
    and the promise settles as axios settled it. *)
Theorem interceptor_tears_down_on_401 (t : Transport) (b : Browser) :
  (∀ r, t = Http r → status r = 401 →
     (api_receive t b).2 = Rejected (mkAxiosError (Some r))
     ∧ localStorage (api_receive t b).1 !! "access_token" = None
     ∧ localStorage (api_receive t b).1 !! "user" = None
     ∧ (∀ k, k ≠ "access_token" → k ≠ "user" →
          localStorage (api_receive t b).1 !! k = localStorage b !! k)
     ∧ href (api_receive t b).1 = "/login"
     ∧ trace (api_receive t b).1
       = trace b ++ [RemoveItem "access_token"; RemoveItem "user"; SetHref "/login"])
  ∧ ((∀ r, t = Http r → status r ≠ 401) →
     api_receive t b = (b, settle t)).
Proof.
  split.
  - intros r -> Hs. unfold api_receive. rewrite (settle_401 r Hs).
    unfold on_rejected, is_401. simpl. rewrite Hs. simpl.
    split_and!; try done.
    + rewrite lookup_delete_ne by done. apply lookup_delete_eq.
    + apply lookup_delete_eq.
    + intros k H1 H2. by rewrite !lookup_delete_ne.
    + by rewrite <- !app_assoc.
  - intros Hother. unfold api_receive.
    destruct t as [|r]; simpl.
    + by apply on_rejected_other.
    + specialize (Hother r eq_refl).
      destruct ((200 <=? status r) && (status r <? 300))%bool; [done|].
      apply on_rejected_other. unfold is_401. simpl. lia.
Qed.

(** A stored session, a 401 on one call and a 404 on another. *)
Lemma interceptor_tears_down_on_401_witness :
  let b := mkBrowser {[ "access_token" := "t0k3n"; "user" := "{}" ]} "/app" [] in
  localStorage (api_receive (Http (mkResponse 401 "")) b).1 !! "access_token" = None
  ∧ localStorage (api_receive (Http (mkResponse 401 "")) b).1 !! "user" = None
  ∧ api_receive (Http (mkResponse 404 "")) b
    = (b, Rejected (mkAxiosError (Some (mkResponse 404 "")))).
Proof.
  intros b.
  destruct (interceptor_tears_down_on_401 (Http (mkResponse 401 "")) b) as [H _].
  destruct (H _ eq_refl eq_refl) as (_ & H1 & H2 & _).
  destruct (interceptor_tears_down_on_401 (Http (mkResponse 404 "")) b) as [_ H'].
  split_and!; [exact H1|exact H2|].
  apply H'. intros r [= <-]. discriminate.
Defined.

(** The helpers that call bare [axios] bypass the interceptor: nothing is
    torn down there, whatever the status. *)
Lemma axios_receive_keeps_session (t : Transport) (b : Browser) :
  (axios_receive t b).1 = b.
Proof. done. Qed.

End ApiFacts.

(** ** LoginPage.jsx and the Reset Code Authority *)

Module ResetFacts.

Import LoginPage.

Section Client.

Variable server : Request → Outcome.











End Client.

Import ResetCodeAuthority.







End ResetFacts.

(** ** backend/database/schema.sql *)

Module SqlFacts.

Import Sql.

Local Open Scope bool_scope.

Lemma rows_of_set_rows (t : string) (rs : list row) (db : DB) :
  rows_of t (set_rows t rs db) = rs.
Proof. unfold rows_of, set_rows. simpl. by rewrite lookup_insert_eq. Qed.

Lemma rows_of_set_rows_ne (t t' : string) (rs : list row) (db : DB) :
  t ≠ t' → rows_of t' (set_rows t rs db) = rows_of t' db.
Proof. intros H. unfold rows_of, set_rows. simpl. by rewrite lookup_insert_ne. Qed.

Lemma schema_tables (tbl : Table) :
  tbl ∈ schema ↔
  tbl = users ∨ tbl = liked_songs ∨ tbl = password_reset_codes
  ∨ tbl = session_tokens.
Proof. unfold schema. rewrite !elem_of_cons, elem_of_nil. tauto. Qed.

Lemma find_table_Some (t : string) (tbl : Table) :
  find_table t = Some tbl → tbl ∈ schema ∧ tbl_name tbl = t.
Proof.
  unfold find_table. intros H. apply find_some in H as [Hin Hn].
  apply bool_decide_eq_true in Hn. by rewrite list_elem_of_In.
Qed.

(** Every foreign key of the schema points at [users(id)] from a [user_id]
    column and cascades on delete. *)
Lemma schema_foreign_keys (tbl : Table) (fk : ForeignKey) :
  tbl ∈ schema → fk ∈ tbl_foreign_keys tbl →
  tbl_name tbl ≠ "users" ∧ fk = mkForeignKey "user_id" "users" "id" Cascade.
Proof.
  intros Ht Hfk. apply schema_tables in Ht as [ -> | [ -> | [ -> | -> ] ] ]; simpl in Hfk;
    [by apply elem_of_nil in Hfk|..];
    apply list_elem_of_singleton in Hfk; by subst.
Qed.

Lemma no_orphans_alt (db : DB) :
  no_orphans db ↔
  ∀ t c, dependent t → c ∈ rows_of t db → get "user_id" c ≠ VNull →
         ∃ p, p ∈ rows_of "users" db ∧ get "id" p = get "user_id" c.
Proof.
  unfold no_orphans, dependent. split.
  - intros H t c Ht Hc Hn.
    destruct Ht as [ -> | [ -> | -> ] ].
    + apply (H liked_songs (mkForeignKey "user_id" "users" "id" Cascade) c);
        [apply schema_tables; auto|by left|done..].
    + apply (H password_reset_codes (mkForeignKey "user_id" "users" "id" Cascade) c);
        [apply schema_tables; auto|by left|done..].
    + apply (H session_tokens (mkForeignKey "user_id" "users" "id" Cascade) c);
        [apply schema_tables; auto|by left|done..].
  - intros H tbl fk c Ht Hfk Hc Hn.
    destruct (schema_foreign_keys tbl fk Ht Hfk) as [Hne ->]. simpl in *.
    apply (H (tbl_name tbl) c); [|done..].
    apply schema_tables in Ht as [ -> | [ -> | [ -> | -> ] ] ]; simpl; auto. done.
Qed.

Lemma find_table_cases (t : string) (tbl : Table) :
  find_table t = Some tbl →
  (t = "users" ∧ tbl = users)
  ∨ (dependent t ∧ tbl_name tbl = t ∧ t ≠ "users"
     ∧ tbl_foreign_keys tbl = [user_fk]).
Proof.
  intros H. apply find_table_Some in H as [Hin <-]. unfold dependent.
  apply schema_tables in Hin as [ -> | [ -> | [ -> | -> ] ] ]; simpl; auto 10.
Qed.

Lemma find_table_dependent (t : string) :
  dependent t →
  ∃ tbl, find_table t = Some tbl ∧ tbl_foreign_keys tbl = [user_fk] ∧ t ≠ "users".
Proof. intros [ -> | [ -> | -> ] ]; eexists; split_and!; try reflexivity; done. Qed.

Lemma rows_of_insert_table (t t' : string) (rs : list row) (db : DB)
  (sq : gmap string Z) (fk : bool) :
  rows_of t' (mkDB (<[t := rs]> (tables db)) sq fk)
  = if decide (t = t') then rs else rows_of t' db.
Proof.
  unfold rows_of. simpl. destruct (decide (t = t')) as [->|Hne].
  - by rewrite lookup_insert_eq.
  - by rewrite lookup_insert_ne.
Qed.

Lemma fk_child_ok_parent (db : DB) (tbl : Table) (r : row) :
  foreign_keys db = true → tbl_foreign_keys tbl = [user_fk] →
  fk_child_ok db tbl r = true → get "user_id" r ≠ VNull →
  ∃ p, p ∈ rows_of "users" db ∧ get "id" p = get "user_id" r.
Proof.
  intros Hfk Hfks Hok Hnn. unfold fk_child_ok in Hok.
  rewrite Hfk, Hfks in Hok. simpl in Hok.
  rewrite (bool_decide_eq_false_2 _ Hnn) in Hok. simpl in Hok.
  rewrite andb_true_r in Hok.
  apply existsb_exists in Hok as (p & Hin & Hp).
  exists p. split; [by apply list_elem_of_In|by apply bool_decide_eq_true in Hp].
Qed.

(** INSERT keeps every dependent row attached to a user. *)
Lemma exec_insert_no_orphans (now : value) (t : string) (supplied : row)
  (db db' : DB) :
  foreign_keys db = true → no_orphans db →
  exec_insert now t supplied db = Some db' →
  no_orphans db' ∧ foreign_keys db' = true.
Proof.
  intros Hfk Hinv Hex. unfold exec_insert in Hex.
  destruct (find_table t) as [tbl|] eqn:Hft; [|done].
  destruct (_ && _) eqn:Hc; [|done]. inversion Hex; subst; clear Hex.
  split; [|done].
  apply andb_prop in Hc as [Hc Hchild].
  rewrite no_orphans_alt in *. intros t' c Hdep Hin Hnn.
  destruct (find_table_dependent t' Hdep) as (_ & _ & _ & Hne').
  rewrite rows_of_insert_table in Hin.
  assert (∀ p, p ∈ rows_of "users" db →
               p ∈ rows_of "users"
                 (mkDB (<[t := rows_of t db ++ [build_row now (next_id t db) tbl supplied]]>
                          (tables db))
                    (<[t := Z.max (default 0 (seq db !! t))
                              match get "id" (build_row now (next_id t db) tbl supplied) with
                              | VInt z => z | _ => 0 end]> (seq db))
                    (foreign_keys db))) as Hkeep.
  { intros p Hp. rewrite rows_of_insert_table.
    destruct (decide (t = "users")) as [->|]; [|done].
    apply elem_of_app. by left. }
  destruct (decide (t = t')) as [->|Hne].
  - apply elem_of_app in Hin as [Hin|Hin].
    + destruct (Hinv t' c Hdep Hin Hnn) as (p & Hp & Hid). eauto.
    + apply list_elem_of_singleton in Hin. subst c.
      destruct (find_table_cases t' tbl Hft) as [[? _]|(_ & _ & _ & Hfks)]; [done|].
      destruct (fk_child_ok_parent db tbl _ Hfk Hfks Hchild Hnn) as (p & Hp & Hid).
      eauto.
  - destruct (Hinv t' c Hdep Hin Hnn) as (p & Hp & Hid). eauto.
Qed.

Lemma on_delete_cascade (deleted : list row) (child : Table) (db : DB) :
  on_delete "users" deleted child user_fk (Some db)
  = Some (set_rows (tbl_name child)
            (List.filter (fun c => negb (references user_fk deleted c))
               (rows_of (tbl_name child) db)) db).
Proof. done. Qed.

Lemma on_delete_other (t : string) (deleted : list row) (child : Table) (db : DB) :
  t ≠ "users" → on_delete t deleted child user_fk (Some db) = Some db.
Proof.
  intros Hne. unfold on_delete. simpl.
  rewrite bool_decide_eq_false_2; [done|]. simpl. congruence.
Qed.

(** DELETE FROM users, foreign keys enforced, spelled out: the matching
    users go, and with them the rows of the three dependent tables that
    reference them. *)
Lemma exec_delete_users (P : row → bool) (db : DB) :
  foreign_keys db = true →
  let deleted := List.filter P (rows_of "users" db) in
  let keep t := List.filter (fun c => negb (references user_fk deleted c))
                  (rows_of t db) in
  exec_delete "users" P db
  = Some (set_rows "liked_songs" (keep "liked_songs")
            (set_rows "password_reset_codes" (keep "password_reset_codes")
               (set_rows "session_tokens" (keep "session_tokens")
                  (set_rows "users"
                     (List.filter (fun r => negb (P r)) (rows_of "users" db))
                     db)))).
Proof.
  intros Hfk deleted keep. unfold exec_delete. rewrite Hfk.
  change (find_table "users") with (Some users).
  cbn [schema foldr tbl_foreign_keys users liked_songs password_reset_codes
       session_tokens].
  rewrite !on_delete_cascade.
  cbn [tbl_name liked_songs password_reset_codes session_tokens].
  rewrite !rows_of_set_rows_ne by done. done.
Qed.

Lemma exec_delete_dependent (t : string) (P : row → bool) (db : DB) :
  dependent t →
  exec_delete t P db
  = Some (set_rows t (List.filter (fun r => negb (P r)) (rows_of t db)) db).
Proof.
  intros Hdep. destruct (find_table_dependent t Hdep) as (tbl & Hft & _ & Hne).
  unfold exec_delete. rewrite Hft.
  destruct (foreign_keys db); [|done].
  cbn [schema foldr tbl_foreign_keys users liked_songs password_reset_codes
       session_tokens].
  by rewrite !on_delete_other.
Qed.

Lemma references_spec (deleted : list row) (c : row) :
  references user_fk deleted c = true ↔
  get "user_id" c ≠ VNull
  ∧ ∃ p, p ∈ deleted ∧ get "id" p = get "user_id" c.
Proof.
  unfold references. simpl. rewrite andb_true_iff, negb_true_iff.
  rewrite bool_decide_eq_false, existsb_exists.
  split; intros [Hn (p & Hin & Hp)]; (split; [done|]); exists p.
  - split; [by apply list_elem_of_In|by apply bool_decide_eq_true in Hp].
  - split; [by apply list_elem_of_In|by apply bool_decide_eq_true].
Qed.

Lemma elem_of_List_filter {A} (f : A → bool) (l : list A) (x : A) :
  x ∈ List.filter f l ↔ x ∈ l ∧ f x = true.
Proof. rewrite !list_elem_of_In. apply filter_In. Qed.

(** After DELETE FROM users, a dependent row that is still there kept its
    parent. *)
Lemma exec_delete_users_rows (P : row → bool) (db db' : DB) :
  foreign_keys db = true → exec_delete "users" P db = Some db' →
  foreign_keys db' = true
  ∧ rows_of "users" db'
    = List.filter (fun r => negb (P r)) (rows_of "users" db)
  ∧ ∀ t, dependent t →
      rows_of t db'
      = List.filter
          (fun c => negb (references user_fk
                            (List.filter P (rows_of "users" db)) c))
          (rows_of t db).
Proof.
  intros Hfk Hex. rewrite (exec_delete_users P db Hfk) in Hex.
  inversion Hex; subst; clear Hex. split_and!; [done| |].
  - rewrite !rows_of_set_rows_ne by done. by rewrite rows_of_set_rows.
  - intros t [ -> | [ -> | -> ] ].
    + by rewrite rows_of_set_rows.
    + rewrite rows_of_set_rows_ne by done. by rewrite rows_of_set_rows.
    + rewrite !rows_of_set_rows_ne by done. by rewrite rows_of_set_rows.
Qed.

Lemma exec_delete_no_orphans (t : string) (P : row → bool) (db db' : DB) :
  foreign_keys db = true → no_orphans db →
  exec_delete t P db = Some db' →
  no_orphans db' ∧ foreign_keys db' = true.
Proof.
  intros Hfk Hinv Hex.
  destruct (find_table t) as [tbl|] eqn:Hft;
    [|by unfold exec_delete in Hex; rewrite Hft in Hex].
  rewrite no_orphans_alt in *.
  destruct (find_table_cases t tbl Hft) as [[-> _]|(Hdep & _ & Hne & _)].
  - destruct (exec_delete_users_rows P db db' Hfk Hex) as (Hfk' & Hu & Hd).
    split; [|done]. intros t' c Hdep Hin Hnn.
    rewrite (Hd t' Hdep) in Hin. apply elem_of_List_filter in Hin as [Hin Href].
    apply negb_true_iff in Href.
    destruct (Hinv t' c Hdep Hin Hnn) as (p & Hp & Hid).
    exists p. split; [|done]. rewrite Hu. apply elem_of_List_filter.
    split; [done|]. destruct (P p) eqn:HP; [|done].
    assert (references user_fk (List.filter P (rows_of "users" db)) c = true)
      as Hc; [|congruence].
    apply references_spec. split; [done|]. exists p.
    split; [|done]. by apply elem_of_List_filter.
  - rewrite (exec_delete_dependent t P db Hdep) in Hex.
    inversion Hex; subst; clear Hex. split; [|done].
    intros t' c Hdep' Hin Hnn.
    rewrite (rows_of_set_rows_ne t "users") by done.
    destruct (decide (t = t')) as [->|Hne'].
    + rewrite rows_of_set_rows in Hin.
      apply elem_of_List_filter in Hin as [Hin _]. eauto.
    + rewrite rows_of_set_rows_ne in Hin by done. eauto.
Qed.

(** Folding a fallible step: a rejection is final, and an invariant of
    the accepted steps is an invariant of the fold. *)
Lemma foldl_rejected {A} (f : option DB → A → option DB) (l : list A) :
  (∀ a, f None a = None) → foldl f None l = None.
Proof. intros Hf. induction l as [|a l IH]; simpl; [done|]. by rewrite Hf. Qed.

Lemma foldl_accepted_inv {A} (I : DB → Prop) (f : option DB → A → option DB) :
  (∀ a, f None a = None) →
  (∀ db a db', I db → f (Some db) a = Some db' → I db') →
  ∀ l db db', I db → foldl f (Some db) l = Some db' → I db'.
Proof.
  intros Hnone Hstep l. induction l as [|a l IH]; intros db db' HI Hf; simpl in Hf.
  - by inversion Hf; subst.
  - destruct (f (Some db) a) as [db1|] eqn:Hd.
    + eapply IH; [|done]. eauto.
    + by rewrite foldl_rejected in Hf.
Qed.

Lemma elem_of_list_insert_inv {A} (l : list A) (i : nat) (x y : A) :
  x ∈ <[i := y]> l → x = y ∨ x ∈ l.
Proof.
  intros (j & Hj)%list_elem_of_lookup.
  destruct (decide (i = j)) as [->|Hne].
  - destruct (decide (j < length l)%nat) as [Hlt|Hge].
    + rewrite list_lookup_insert_eq in Hj by done. left. congruence.
    + rewrite list_insert_ge in Hj by lia. right.
      apply list_elem_of_lookup. eauto.
  - rewrite list_lookup_insert_ne in Hj by done. right.
    apply list_elem_of_lookup. eauto.
Qed.

(** Without [PRAGMA foreign_keys = ON] the declaration has no effect: the
    dependent rows of a deleted user stay. *)
Lemma exec_delete_not_enforced (P : row → bool) (db : DB) :
  foreign_keys db = false →
  exec_delete "users" P db
  = Some (set_rows "users"
            (List.filter (fun r => negb (P r)) (rows_of "users" db)) db).
Proof. intros Hfk. unfold exec_delete. by rewrite Hfk. Qed.

(** *** The trigger on [users] *)

Lemma get_insert_eq (c : string) (v : value) (r : row) : get c (<[c := v]> r) = v.
Proof. unfold get. by rewrite lookup_insert_eq. Qed.

Lemma get_insert_ne (c c' : string) (v : value) (r : row) :
  c ≠ c' → get c (<[c' := v]> r) = get c r.
Proof. intros H. unfold get. by rewrite lookup_insert_ne. Qed.

Lemma get_assign_other (c : string) (assigns : list (string * value)) (r : row) :
  c ∉ map fst assigns → get c (assign assigns r) = get c r.
Proof.
  unfold assign. revert r. induction assigns as [|[c' v] a IH]; intros r Hc; [done|].
  simpl in *. apply not_elem_of_cons in Hc as [Hne Hc].
  rewrite IH by done. by apply get_insert_ne.
Qed.

Lemma map_list_insert {A B} (f : A → B) (l : list A) (i : nat) (x : A) :
  map f (<[i := x]> l) = <[i := f x]> (map f l).
Proof.
  revert i. induction l as [|a l IH]; intros [|i]; simpl; try done.
  by rewrite IH.
Qed.

Lemma indices_from_none (P : row → bool) (rows : list row) (n : nat) :
  (∀ r, r ∈ rows → P r = false) → indices_from P rows n = [].
Proof.
  revert n. induction rows as [|r rs IH]; intros n H; simpl; [done|].
  rewrite (H r) by (by left). simpl. apply IH. intros r' Hr'. apply H. by right.
Qed.

(** A unique key selects the one row that holds it. *)
Lemma indices_from_unique (P : row → bool) (c : string) (k : value)
  (rows : list row) (i n : nat) (r : row) :
  (∀ r, P r = bool_decide (get c r = k)) →
  NoDup (map (get c) rows) → rows !! i = Some r → get c r = k →
  indices_from P rows n = [(n + i)%nat].
Proof.
  intros HP Hnd Hi Hk. revert i n Hnd Hi.
  induction rows as [|r' rs IH]; intros i n Hnd Hi; [done|].
  simpl in Hnd. apply NoDup_cons in Hnd as [Hnotin Hnd]. simpl.
  rewrite HP. destruct i as [|i]; simpl in Hi.
  - inversion Hi; subst. rewrite bool_decide_eq_true_2 by done.
    rewrite indices_from_none; [by rewrite Nat.add_0_r|].
    intros r'' Hr''. rewrite HP. apply bool_decide_eq_false. intros Heq.
    apply Hnotin. rewrite <- Heq. apply list_elem_of_In, in_map.
    by apply list_elem_of_In.
  - rewrite bool_decide_eq_false_2.
    + simpl. rewrite (IH i (S n)) by done. f_equal. lia.
    + intros Heq. apply Hnotin. rewrite Heq, <- Hk.
      apply list_elem_of_In, in_map, list_elem_of_In.
      apply list_elem_of_lookup. eauto.
Qed.

Lemma not_null_ok_users_id (r : row) :
  not_null_ok users r = true → get "id" r ≠ VNull.
Proof.
  unfold not_null_ok. cbn [users tbl_columns forallb]. intros H.
  apply andb_prop in H as [H _]. cbn in H.
  apply negb_true_iff in H. by apply bool_decide_eq_false in H.
Qed.

Lemma update_row_Some (t : string) (tbl : Table) (assigns : list (string * value))
  (i : nat) (db db' : DB) (old : row) :
  rows_of t db !! i = Some old →
  update_row t tbl assigns i db = Some db' →
  db' = set_rows t (<[i := assign assigns old]> (rows_of t db)) db
  ∧ not_null_ok tbl (assign assigns old) = true.
Proof.
  intros Hold Hup. unfold update_row in Hup. rewrite Hold in Hup.
  destruct (_ && _) eqn:Hc; [|done]. inversion Hup; subst. split; [done|].
  by apply andb_prop in Hc as [Hc _].
Qed.

Lemma update_and_fire_eq (now : value) (t : string) (tbl : Table)
  (assigns : list (string * value)) (db : DB) (i : nat) :
  update_and_fire now t tbl assigns (Some db) i
  = match rows_of t db !! i with
    | None => Some db
    | Some old =>
        match update_row t tbl assigns i db with
        | None => None
        | Some db1 =>
            foldl (run_trigger now old) (Some db1)
              (List.filter (fun trg => bool_decide (trg_table trg = t)) triggers)
        end
    end.
Proof.
  unfold update_and_fire. simpl. destruct (rows_of t db !! i); [|done].
  by destruct (update_row t tbl assigns i db).
Qed.

Lemma foldl_none {S A} (f : option S → A → option S) (l : list A) :
  (∀ a, f None a = None) → foldl f None l = None.
Proof. intros Hf. induction l as [|a l IH]; simpl; [done|]. by rewrite Hf. Qed.

(** The rows an UPDATE writes are those of [update_and_fire]; the count of
    the foreign keys rides along. *)
Lemma update_counted_fst (now : value) (t : string) (tbl : Table)
  (assigns : list (string * value)) (idxs : list nat) (acc : option (DB * Z)) :
  fst <$> foldl (update_counted now t tbl assigns) acc idxs
  = foldl (update_and_fire now t tbl assigns) (fst <$> acc) idxs.
Proof.
  revert acc. induction idxs as [|i idxs IH]; intros acc; [done|].
  cbn [foldl]. rewrite IH. f_equal. destruct acc as [[d n]|]; [|done].
  unfold update_counted. cbn [mbind option_bind fst snd fmap option_fmap option_map].
  by destruct (update_and_fire now t tbl assigns (Some d) i).
Qed.

(** The shape of an accepted UPDATE. *)
Lemma exec_update_Some (now : value) (t : string) (P : row → bool)
  (assigns : list (string * value)) (db db' : DB) :
  exec_update now t P assigns db = Some db' →
  ∃ tbl n,
    find_table t = Some tbl
    ∧ foldl (update_counted now t tbl assigns) (Some (db, 0))
        (indices_where P (rows_of t db)) = Some (db', n)
    ∧ foreign_keys db && (0 <? n) = false
    ∧ foldl (update_and_fire now t tbl assigns) (Some db)
        (indices_where P (rows_of t db)) = Some db'.
Proof.
  unfold exec_update. destruct (find_table t) as [tbl|]; [|done].
  destruct (forallb _ assigns); [|done].
  pose proof (update_counted_fst now t tbl assigns
                (indices_where P (rows_of t db)) (Some (db, 0))) as Hfst.
  destruct (foldl (update_counted now t tbl assigns) _ _) as [[d n]|] eqn:Hf;
    [|done].
  cbn [mbind option_bind fst snd].
  destruct (foreign_keys db && (0 <? n)) eqn:Hn; [done|].
  intros [= <-]. exists tbl, n. split_and!; [done..|]. symmetry. exact Hfst.
Qed.

(** The trigger of the schema, run for the row that was [old]. *)
Lemma run_update_user_timestamp (now : value) (old : row) (db : DB) :
  run_trigger now old (Some db) update_user_timestamp
  = foldl (fun acc i =>
             match acc with
             | None => None
             | Some db => update_row "users" users [("updated_at", now)] i db
             end)
      (Some db)
      (indices_where
         (fun r => negb (bool_decide (get "id" old = VNull))
                   && bool_decide (get "id" r = get "id" old))
         (rows_of "users" db)).
Proof. done. Qed.

(** What one row of an UPDATE of [users] amounts to when the row keeps its
    id: the row receives the assignments, and the trigger stamps it. *)
Lemma update_and_fire_users (now : value) (assigns : list (string * value))
  (db db1 : DB) (i : nat) (old : row) :
  rows_of "users" db !! i = Some old →
  NoDup (map (get "id") (rows_of "users" db)) →
  get "id" (assign assigns old) = get "id" old →
  update_and_fire now "users" users assigns (Some db) i = Some db1 →
  rows_of "users" db1
  = <[i := <["updated_at" := now]> (assign assigns old)]> (rows_of "users" db)
  ∧ (∀ t, t ≠ "users" → rows_of t db1 = rows_of t db)
  ∧ foreign_keys db1 = foreign_keys db.
Proof.
  intros Hold Hnd Hsame Hstep. rewrite update_and_fire_eq, Hold in Hstep.
  destruct (update_row "users" users assigns i db) as [db2|] eqn:Hup; [|done].
  destruct (update_row_Some _ _ _ _ _ _ _ Hold Hup) as [-> Hnn].
  apply not_null_ok_users_id in Hnn.
  change (List.filter _ triggers) with [update_user_timestamp] in Hstep.
  cbn [foldl] in Hstep. rewrite run_update_user_timestamp in Hstep.
  set (new := assign assigns old) in *.
  set (rows := rows_of "users" db) in *.
  assert (i < length rows)%nat as Hlt by (by eapply lookup_lt_Some).
  rewrite rows_of_set_rows in Hstep. unfold indices_where in Hstep.
  rewrite (indices_from_unique _ "id" (get "id" old) (<[i := new]> rows) i 0 new)
    in Hstep.
  - cbn [foldl Nat.add] in Hstep.
    destruct (update_row "users" users [("updated_at", now)] i _) as [db3|] eqn:Hup2;
      [|done].
    inversion Hstep; subst db3; clear Hstep.
    eapply update_row_Some in Hup2 as [-> _];
      [|by rewrite rows_of_set_rows; apply list_lookup_insert_eq].
    rewrite !rows_of_set_rows, list_insert_insert_eq.
    split_and!; [done| |done].
    intros t Ht. by rewrite !rows_of_set_rows_ne.
  - intros r. rewrite bool_decide_eq_false_2; [done|congruence].
  - rewrite map_list_insert, Hsame. rewrite list_insert_id; [done|].
    change (map (get "id") rows) with (get "id" <$> rows).
    rewrite list_lookup_fmap. fold rows in Hold. by rewrite Hold.
  - by apply list_lookup_insert_eq.
  - done.
Qed.

Lemma exec_update_users_fold (now : value) (P : row → bool)
  (assigns : list (string * value)) :
  ∀ rs pre db db',
    (∀ r, r ∈ rs → P r = true → get "id" (assign assigns r) = get "id" r) →
    rows_of "users" db = pre ++ rs →
    NoDup (map (get "id") (pre ++ rs)) →
    foldl (update_and_fire now "users" users assigns) (Some db)
      (indices_from P rs (length pre)) = Some db' →
    rows_of "users" db'
    = pre ++ map (fun r => if P r then <["updated_at" := now]> (assign assigns r)
                           else r) rs
    ∧ (∀ t, t ≠ "users" → rows_of t db' = rows_of t db)
    ∧ foreign_keys db' = foreign_keys db.
Proof.
  intros rs. induction rs as [|r rs IH]; intros pre db db' Hkeep Hrows Hnd Hf.
  - simpl in Hf. inversion Hf; subst. by rewrite Hrows.
  - cbn [indices_from] in Hf. destruct (P r) eqn:HP; cbn [app foldl] in Hf.
    + destruct (update_and_fire now "users" users assigns (Some db) (length pre))
        as [db1|] eqn:Hstep; [|by rewrite foldl_rejected in Hf].
      assert (rows_of "users" db !! length pre = Some r) as Hold.
      { rewrite Hrows. by apply list_lookup_middle. }
      destruct (update_and_fire_users now assigns db db1 (length pre) r Hold)
        as (Hrows1 & Hother1 & Hfk1);
        [by rewrite Hrows|by apply Hkeep; [left|]|done|].
      rewrite Hrows, insert_app_r_alt, Nat.sub_diag in Hrows1 by done.
      simpl in Hrows1.
      set (r' := <["updated_at" := now]> (assign assigns r)) in *.
      destruct (IH (pre ++ [r']) db1 db') as (H1 & H2 & H3).
      * intros r0 Hr0. apply Hkeep. by right.
      * by rewrite <- app_assoc.
      * rewrite <- app_assoc. simpl. rewrite !map_app in *. simpl in *.
        replace (get "id" r') with (get "id" r); [done|].
        unfold r'. rewrite get_insert_ne by done.
        symmetry. by apply Hkeep; [left|].
      * rewrite length_app. simpl. by rewrite Nat.add_1_r.
      * split_and!.
        -- rewrite H1, <- app_assoc. simpl. by rewrite HP.
        -- intros t Ht. by rewrite H2, Hother1.
        -- congruence.
    + destruct (IH (pre ++ [r]) db db') as (H1 & H2 & H3).
      * intros r0 Hr0. apply Hkeep. by right.
      * by rewrite <- app_assoc.
      * by rewrite <- app_assoc.
      * rewrite length_app. simpl. by rewrite Nat.add_1_r.
      * split_and!; [|done..]. rewrite H1, <- app_assoc. simpl. by rewrite HP.
Qed.

(** C7, as the schema has it.  The statement is
    [UPDATE users SET c1 = v1, c2 = v2, ... WHERE P], with values of the
    declared types of their columns and no [OR] conflict clause, run at the
    timestamp [now] on a database whose values are of the declared types
    and whose users have distinct ids.  When it is accepted and every row
    it selects keeps
    the id it had (the id is not assigned, or it is assigned the value the
    row holds), every selected row is left with the assigned values and
    with [updated_at] equal to [now], whatever the statement assigned to
    [updated_at]; the rows it does not select, and the other tables, are
    unchanged. *)
Theorem update_user_timestamp_refreshes (now : value) (P : row → bool)
  (assigns : list (string * value)) (db db' : DB) :
  pk_unique "users" db → typed_db db = true →
  is_timestamp now = true → typed_assigns users assigns = true →
  (∀ r, r ∈ rows_of "users" db → P r = true →
        get "id" (assign assigns r) = get "id" r) →
  exec_update now "users" P assigns db = Some db' →
  rows_of "users" db'
  = map (fun r => if P r then <["updated_at" := now]> (assign assigns r) else r)
      (rows_of "users" db)
  ∧ (∀ i r, rows_of "users" db !! i = Some r → P r = true →
       ∃ r', rows_of "users" db' !! i = Some r'
             ∧ get "updated_at" r' = now
             ∧ ∀ c, c ≠ "updated_at" → get c r' = get c (assign assigns r))
  ∧ (∀ i r, rows_of "users" db !! i = Some r → P r = false →
       rows_of "users" db' !! i = Some r)
  ∧ (∀ t, t ≠ "users" → rows_of t db' = rows_of t db).
Proof.
  intros Hpk _ _ _ Hkeep Hex.
  apply exec_update_Some in Hex as (tbl & n & Hft & _ & _ & Hex).
  change (find_table "users") with (Some users) in Hft.
  inversion Hft; subst tbl; clear Hft.
  destruct (exec_update_users_fold now P assigns (rows_of "users" db) [] db db')
    as (Hrows & Hother & _); [done|done|done|done|].
  simpl in Hrows. split_and!; [done| | |done].
  - intros i r Hi HP. eexists. split_and!.
    + rewrite Hrows. change (map ?f ?l) with (f <$> l).
      rewrite list_lookup_fmap, Hi. simpl. by rewrite HP.
    + apply get_insert_eq.
    + intros c Hc. by rewrite get_insert_ne.
  - intros i r Hi HP. rewrite Hrows. change (map ?f ?l) with (f <$> l).
    rewrite list_lookup_fmap, Hi. simpl. by rewrite HP.
Qed.

(** *** The primary keys stay unique *)

Lemma schema_id_checked (tbl : Table) (others : list row) (r : row) :
  tbl ∈ schema →
  not_null_ok tbl r = true → unique_ok tbl others r = true →
  get "id" r ≠ VNull ∧ ∀ o, o ∈ others → get "id" o ≠ get "id" r.
Proof.
  intros Ht Hnn Hu.
  assert (negb (bool_decide (get "id" r = VNull)) = true
          ∧ (bool_decide (get "id" r = VNull)
             || forallb (fun o => negb (bool_decide (get "id" o = get "id" r)))
                  others) = true) as [H1 H2].
  { apply schema_tables in Ht as [ -> | [ -> | [ -> | -> ] ] ];
      unfold not_null_ok in Hnn; unfold unique_ok in Hu;
      cbn [users liked_songs password_reset_codes session_tokens tbl_columns
           forallb primary_key col_unique col_primary_key col_not_null col_name
           orb negb] in Hnn, Hu;
      apply andb_prop in Hnn as [Hnn _]; apply andb_prop in Hu as [Hu _];
      done. }
  apply negb_true_iff, bool_decide_eq_false in H1. split; [done|].
  rewrite bool_decide_eq_false_2 in H2 by done. simpl in H2.
  intros o Ho. apply list_elem_of_In in Ho.
  pose proof (proj1 (forallb_forall _ _) H2 o Ho) as H.
  by apply negb_true_iff, bool_decide_eq_false in H.
Qed.

Lemma NoDup_map_filter {A B} (f : A → B) (g : A → bool) (l : list A) :
  NoDup (map f l) → NoDup (map f (List.filter g l)).
Proof.
  induction l as [|a l IH]; simpl; [done|].
  intros [Hnotin Hnd]%NoDup_cons. destruct (g a); simpl; [|by apply IH].
  apply NoDup_cons. split; [|by apply IH].
  intros Hin. apply Hnotin. apply list_elem_of_In, in_map_iff in Hin as (x & Hx & Hin).
  apply filter_In in Hin as [Hin _]. rewrite <- Hx.
  by apply list_elem_of_In, in_map.
Qed.

Lemma sublist_drop_S {A} (l : list A) (i : nat) :
  drop (S i) l `sublist_of` drop i l.
Proof.
  revert l. induction i as [|i IH]; intros [|a l]; simpl; try done.
  by apply sublist_cons.
Qed.

Lemma NoDup_list_insert {A} (l : list A) (i : nat) (x : A) :
  NoDup l → x ∉ delete i l → NoDup (<[i := x]> l).
Proof.
  intros Hnd Hx. destruct (decide (i < length l)%nat) as [Hlt|Hge];
    [|by rewrite list_insert_ge by lia].
  rewrite insert_take_drop by done. rewrite delete_take_drop in Hx.
  rewrite <- (take_drop i l) in Hnd at 1.
  apply NoDup_app in Hnd as (H1 & H12 & H2).
  apply not_elem_of_app in Hx as [Hx1 Hx2].
  apply NoDup_app. split_and!; [done| |].
  - intros y Hy [->|Hy2]%elem_of_cons; [done|].
    apply (H12 y Hy). eapply elem_of_sublist; [exact Hy2|apply sublist_drop_S].
  - apply NoDup_cons. split; [done|].
    exact (sublist_NoDup _ _ H2 (sublist_drop_S l i)).
Qed.

Lemma update_row_keys_unique (t : string) (tbl : Table)
  (assigns : list (string * value)) (i : nat) (db db' : DB) :
  find_table t = Some tbl → keys_unique db →
  update_row t tbl assigns i db = Some db' → keys_unique db'.
Proof.
  intros Hft Hk Hup. unfold update_row in Hup.
  destruct (rows_of t db !! i) as [old|] eqn:Hold; [|by inversion Hup; subst].
  destruct (_ && _) eqn:Hc; [|done]. inversion Hup; subst; clear Hup.
  apply andb_prop in Hc as [Hnn Hu].
  apply find_table_Some in Hft as [Hin _].
  destruct (schema_id_checked _ _ _ Hin Hnn Hu) as [_ Hfresh].
  intros t'. unfold pk_unique. destruct (decide (t = t')) as [<-|Hne].
  - rewrite rows_of_set_rows, map_list_insert.
    apply NoDup_list_insert; [apply Hk|].
    change (map ?f ?l) with (f <$> l). rewrite <- list_fmap_delete.
    intros (o & Ho & Hin')%list_elem_of_fmap. by apply (Hfresh o).
  - rewrite rows_of_set_rows_ne by done. apply Hk.
Qed.

Lemma exec_keys_unique (now : value) (s : Stmt) (db db' : DB) :
  keys_unique db → exec now s db = Some db' → keys_unique db'.
Proof.
  intros Hk Hex. destruct s as [t r|t P|t P a]; simpl in Hex.
  - unfold exec_insert in Hex.
    destruct (find_table t) as [tbl|] eqn:Hft; [|done].
    destruct (_ && _) eqn:Hc; [|done]. inversion Hex; subst; clear Hex.
    apply andb_prop in Hc as [Hc _]. apply andb_prop in Hc as [Hc Hu].
    apply andb_prop in Hc as [_ Hnn].
    apply find_table_Some in Hft as [Hin _].
    destruct (schema_id_checked _ _ _ Hin Hnn Hu) as [_ Hfresh].
    intros t'. unfold pk_unique. rewrite rows_of_insert_table.
    destruct (decide (t = t')) as [<-|Hne]; [|apply Hk].
    rewrite map_app. simpl. apply NoDup_app. split_and!; [apply Hk| |].
    + intros k Hk1 Hk2%list_elem_of_singleton.
      apply list_elem_of_In, in_map_iff in Hk1 as (o & Ho & Hino).
      apply (Hfresh o); [by apply list_elem_of_In|congruence].
    + apply NoDup_singleton.
  - destruct (find_table t) as [tbl|] eqn:Hft;
      [|by unfold exec_delete in Hex; rewrite Hft in Hex].
    destruct (find_table_cases t tbl Hft) as [[-> _]|(Hdep & _ & Hne & _)].
    + destruct (foreign_keys db) eqn:Hfk.
      * destruct (exec_delete_users_rows P db db' Hfk Hex) as (_ & Hu & Hd).
        intros t'. unfold pk_unique.
        destruct (decide (t' = "users")) as [->|Hne].
        { rewrite Hu. apply NoDup_map_filter, Hk. }
        destruct (decide (dependent t')) as [Hdep|Hnd].
        { rewrite (Hd t' Hdep). apply NoDup_map_filter, Hk. }
        rewrite (exec_delete_users P db Hfk) in Hex. inversion Hex; subst.
        unfold dependent in Hnd.
        rewrite !rows_of_set_rows_ne
          by (intros Heq; subst t'; first [congruence|apply Hnd; auto]).
        apply Hk.
      * rewrite (exec_delete_not_enforced P db Hfk) in Hex. inversion Hex; subst.
        intros t'. unfold pk_unique.
        destruct (decide ("users" = t')) as [<-|Hne].
        { rewrite rows_of_set_rows. apply NoDup_map_filter, Hk. }
        rewrite rows_of_set_rows_ne by done. apply Hk.
    + rewrite (exec_delete_dependent t P db Hdep) in Hex. inversion Hex; subst.
      intros t'. unfold pk_unique. destruct (decide (t = t')) as [<-|Hne'].
      * rewrite rows_of_set_rows. apply NoDup_map_filter, Hk.
      * rewrite rows_of_set_rows_ne by done. apply Hk.
  - apply exec_update_Some in Hex as (tbl & n & Hft & _ & _ & Hex).
    revert Hex. apply foldl_accepted_inv; [done| |done].
    intros db0 i db1 HI0 Hstep. rewrite update_and_fire_eq in Hstep.
    destruct (rows_of t db0 !! i) as [old|]; [|by inversion Hstep; subst].
    destruct (update_row t tbl a i db0) as [db2|] eqn:Hup; [|done].
    revert Hstep.
    apply foldl_accepted_inv; [done| |by eapply update_row_keys_unique].
    intros db3 trg db4 HI3 Hrun. unfold run_trigger in Hrun. simpl in Hrun.
    destruct (find_table (trg_target trg)) as [tbl'|] eqn:Hft'; [|done].
    revert Hrun. apply foldl_accepted_inv; [done| |done].
    intros db5 j db6 HI5 Hs. simpl in Hs. by eapply update_row_keys_unique.
Qed.

Lemma empty_db_keys_unique (fk : bool) : keys_unique (empty_db fk).
Proof.
  intros t. unfold pk_unique, rows_of. simpl. rewrite lookup_empty.
  apply NoDup_nil_2.
Qed.

(** *** The foreign keys of an UPDATE *)

Lemma elem_of_list_insert_delete {A} (l : list A) (i : nat) (a b k : A) :
  l !! i = Some a →
  (k ∈ <[i := b]> l ↔ k = b ∨ k ∈ delete i l)
  ∧ (k ∈ l ↔ k = a ∨ k ∈ delete i l).
Proof.
  intros Hi. assert (i < length l)%nat as Hlt by (by eapply lookup_lt_Some).
  split.
  - rewrite insert_take_drop by done. rewrite delete_take_drop.
    rewrite !elem_of_app, elem_of_cons. tauto.
  - transitivity (k ∈ take i l ++ a :: drop (S i) l);
      [by rewrite take_drop_middle|].
    rewrite delete_take_drop, !elem_of_app, elem_of_cons. tauto.
Qed.

Lemma sum_map_insert {A} (f : A → Z) (l : list A) (i : nat) (x y : A) :
  l !! i = Some x →
  foldr Z.add 0 (map f (<[i := y]> l)) = foldr Z.add 0 (map f l) - f x + f y.
Proof.
  revert i. induction l as [|a l IH]; intros [|i] Hi; simpl in *; try done.
  - inversion Hi; subst. lia.
  - rewrite (IH i Hi). lia.
Qed.

Lemma sum_map_le {A} (f g : A → Z) (p q : A → bool) (l : list A) :
  (∀ x, f x ≤ g x + (if p x then 1 else 0) - (if q x then 1 else 0)) →
  foldr Z.add 0 (map f l)
  ≤ foldr Z.add 0 (map g l) + Z.of_nat (length (List.filter p l))
    - Z.of_nat (length (List.filter q l)).
Proof.
  intros H. induction l as [|a l IH]; simpl; [lia|].
  pose proof (H a). destruct (p a), (q a); simpl; lia.
Qed.

Lemma sum_map_zero {A} (f : A → Z) (l : list A) :
  (∀ x, x ∈ l → f x = 0) → foldr Z.add 0 (map f l) = 0.
Proof.
  induction l as [|a l IH]; intros H; simpl; [done|].
  rewrite (H a) by (by left). rewrite IH; [done|]. intros x Hx. apply H. by right.
Qed.

Lemma sum_map_nonneg {A} (f : A → Z) (l : list A) :
  (∀ x, 0 ≤ f x) → 0 ≤ foldr Z.add 0 (map f l).
Proof.
  intros H. induction l as [|a l IH]; simpl; [lia|]. pose proof (H a). lia.
Qed.

Lemma sum_map_zero_inv {A} (f : A → Z) (l : list A) :
  (∀ x, 0 ≤ f x) → foldr Z.add 0 (map f l) ≤ 0 → ∀ x, x ∈ l → f x = 0.
Proof.
  intros H. induction l as [|a l IH]; intros Hs x Hx;
    [by apply elem_of_nil in Hx|].
  simpl in Hs. pose proof (H a). pose proof (sum_map_nonneg f l H).
  apply elem_of_cons in Hx as [->|Hx]; [lia|]. apply IH; [lia|done].
Qed.

Lemma missing_range (ids : list value) (k : value) : 0 ≤ missing ids k ≤ 1.
Proof. unfold missing. destruct (_ || _); lia. Qed.

Lemma missing_zero (ids : list value) (k : value) :
  missing ids k = 0 ↔ k = VNull ∨ k ∈ ids.
Proof.
  unfold missing. destruct (_ || _) eqn:H.
  - apply orb_prop in H as [H|H]; apply bool_decide_eq_true in H; tauto.
  - apply orb_false_elim in H as [H1 H2].
    apply bool_decide_eq_false in H1, H2. split; [done|tauto].
Qed.

(** The keys of the parents after one of them is rewritten: the children
    on the old key may have lost their parent, those on the new key have
    one now. *)
Lemma missing_insert (ids : list value) (i : nat) (a b k : value) :
  ids !! i = Some a → b ≠ VNull → b ∉ delete i ids →
  missing (<[i := b]> ids) k
  ≤ missing ids k
    + (if negb (bool_decide (a = VNull)) && bool_decide (k = a) then 1 else 0)
    - (if negb (bool_decide (b = VNull)) && bool_decide (k = b) then 1 else 0).
Proof.
  intros Hi Hb Hfresh.
  destruct (elem_of_list_insert_delete ids i a b k Hi) as [Hins Hmem].
  pose proof (missing_range (<[i := b]> ids) k) as Hr1.
  pose proof (missing_range ids k) as Hr2.
  rewrite (bool_decide_eq_false_2 (b = VNull)) by done. cbn [negb andb].
  destruct (decide (k = b)) as [->|Hkb].
  - rewrite (bool_decide_eq_true_2 (b = b)) by done.
    assert (missing (<[i := b]> ids) b = 0) as ->
      by (apply missing_zero; right; apply Hins; by left).
    destruct (decide (b = a)) as [->|Hba].
    + rewrite (bool_decide_eq_true_2 (a = a)) by done.
      rewrite (bool_decide_eq_false_2 (a = VNull)) by done. simpl. lia.
    + assert (missing ids b = 1) as ->.
      { unfold missing. rewrite (bool_decide_eq_false_2 (b = VNull)) by done.
        rewrite bool_decide_eq_false_2; [done|]. rewrite Hmem. tauto. }
      destruct (_ && _); lia.
  - rewrite (bool_decide_eq_false_2 (k = b)) by done.
    destruct (decide (k = a)) as [->|Hka].
    + rewrite (bool_decide_eq_true_2 (a = a)) by done.
      destruct (decide (a = VNull)) as [->|Han].
      * assert (missing (<[i := b]> ids) VNull = 0) as ->
          by (apply missing_zero; by left).
        simpl. lia.
      * rewrite (bool_decide_eq_false_2 (a = VNull)) by done. simpl. lia.
    + rewrite (bool_decide_eq_false_2 (k = a)) by done. rewrite andb_false_r.
      assert (missing (<[i := b]> ids) k = missing ids k) as ->; [|lia].
      unfold missing.
      rewrite (bool_decide_ext (k ∈ <[i := b]> ids) (k ∈ ids)); [done|].
      rewrite Hins, Hmem. tauto.
Qed.

Lemma has_parent_users (db : DB) (k : value) :
  has_parent db user_fk k
  = bool_decide (k ∈ map (get "id") (rows_of "users" db)).
Proof.
  unfold has_parent. cbn [user_fk fk_parent fk_parent_column].
  induction (rows_of "users" db) as [|p ps IH]; cbn [existsb map].
  - symmetry. apply bool_decide_eq_false_2, not_elem_of_nil.
  - rewrite IH. destruct (decide (get "id" p = k)) as [<-|Hne].
    + rewrite bool_decide_eq_true_2 by done. simpl. symmetry.
      apply bool_decide_eq_true. by left.
    + rewrite (bool_decide_eq_false_2 _ Hne). simpl. apply bool_decide_ext.
      rewrite elem_of_cons. intuition congruence.
Qed.

Lemma orphans_eq (db : DB) :
  orphans db
  = orphans_of db (liked_songs, user_fk)
    + orphans_of db (password_reset_codes, user_fk)
    + orphans_of db (session_tokens, user_fk).
Proof.
  unfold orphans. change declared_fks with
    [ (liked_songs, user_fk); (password_reset_codes, user_fk);
      (session_tokens, user_fk) ].
  simpl. lia.
Qed.

Lemma orphans_of_nonneg (db : DB) (cf : Table * ForeignKey) : 0 ≤ orphans_of db cf.
Proof. apply sum_map_nonneg. intros c. apply missing_range. Qed.

Lemma orphans_of_zero (db : DB) (tbl : Table) :
  orphans_of db (tbl, user_fk) = 0 ↔
  ∀ c, c ∈ rows_of (tbl_name tbl) db → get "user_id" c ≠ VNull →
       ∃ p, p ∈ rows_of "users" db ∧ get "id" p = get "user_id" c.
Proof.
  unfold orphans_of. cbn [fst snd user_fk fk_parent fk_parent_column fk_column].
  split.
  - intros Hz c Hc Hnn.
    assert (0 ≤ 0) as Hle by lia. rewrite <- Hz in Hle at 1.
    pose proof (sum_map_zero_inv _ _ (fun c => proj1 (missing_range _ _))
                  ltac:(rewrite Hz; lia) c Hc) as Hm.
    simpl in Hm. apply missing_zero in Hm as [Hm|Hm]; [done|].
    apply list_elem_of_In, in_map_iff in Hm as (p & Hp & Hin).
    exists p. by rewrite list_elem_of_In.
  - intros H. apply sum_map_zero. intros c Hc. apply missing_zero.
    destruct (decide (get "user_id" c = VNull)) as [|Hnn]; [by left|right].
    destruct (H c Hc Hnn) as (p & Hp & Hid). rewrite <- Hid.
    apply list_elem_of_In, in_map. by apply list_elem_of_In.
Qed.

(** No orphan row is a count of zero. *)
Lemma no_orphans_count (db : DB) : no_orphans db ↔ orphans db = 0.
Proof.
  rewrite no_orphans_alt, orphans_eq.
  pose proof (orphans_of_nonneg db (liked_songs, user_fk)).
  pose proof (orphans_of_nonneg db (password_reset_codes, user_fk)).
  pose proof (orphans_of_nonneg db (session_tokens, user_fk)).
  split.
  - intros Hno.
    rewrite (proj2 (orphans_of_zero db liked_songs)),
      (proj2 (orphans_of_zero db password_reset_codes)),
      (proj2 (orphans_of_zero db session_tokens)); [done|..];
      intros c Hc; (eapply Hno; [|exact Hc]); unfold dependent; simpl; auto.
  - intros Hz t c [ -> | [ -> | -> ] ].
    + apply (proj1 (orphans_of_zero db liked_songs)). lia.
    + apply (proj1 (orphans_of_zero db password_reset_codes)). lia.
    + apply (proj1 (orphans_of_zero db session_tokens)). lia.
Qed.

(** The children on a key when a user is rewritten. *)
Lemma orphans_of_users_step (tbl : Table) (db db' : DB) (i : nat) (old : row)
  (b : value) :
  rows_of "users" db !! i = Some old →
  map (get "id") (rows_of "users" db')
  = <[i := b]> (map (get "id") (rows_of "users" db)) →
  rows_of (tbl_name tbl) db' = rows_of (tbl_name tbl) db →
  b ≠ VNull →
  (∀ o, o ∈ delete i (rows_of "users" db) → get "id" o ≠ b) →
  orphans_of db' (tbl, user_fk)
  ≤ orphans_of db (tbl, user_fk)
    + children_on db (tbl, user_fk) (get "id" old)
    - children_on db (tbl, user_fk) b.
Proof.
  intros Hold Hids Hrows Hb Hfresh. unfold orphans_of, children_on.
  cbn [fst snd user_fk fk_parent fk_parent_column fk_column].
  rewrite Hids, Hrows.
  apply (sum_map_le _ _ (col_is "user_id" (get "id" old)) (col_is "user_id" b)).
  intros c. unfold col_is. apply missing_insert; [|done|].
  - change (map ?f ?l) with (f <$> l). by rewrite list_lookup_fmap, Hold.
  - change (map ?f ?l) with (f <$> l). rewrite <- list_fmap_delete.
    intros (o & Ho & Hin)%list_elem_of_fmap. by apply (Hfresh o).
Qed.

Lemma orphans_of_child_step (tbl : Table) (db db' : DB) (i : nat) (old new : row) :
  rows_of (tbl_name tbl) db !! i = Some old →
  rows_of (tbl_name tbl) db' = <[i := new]> (rows_of (tbl_name tbl) db) →
  rows_of "users" db' = rows_of "users" db →
  orphans_of db' (tbl, user_fk)
  = orphans_of db (tbl, user_fk)
    - missing (map (get "id") (rows_of "users" db)) (get "user_id" old)
    + missing (map (get "id") (rows_of "users" db)) (get "user_id" new).
Proof.
  intros Hold Hrows Hu. unfold orphans_of.
  cbn [fst snd user_fk fk_parent fk_parent_column fk_column].
  rewrite Hrows, Hu.
  by apply (sum_map_insert
              (fun c => missing (map (get "id") (rows_of "users" db))
                          (get "user_id" c))).
Qed.

Lemma orphans_of_same (tbl : Table) (db db' : DB) :
  rows_of (tbl_name tbl) db' = rows_of (tbl_name tbl) db →
  rows_of "users" db' = rows_of "users" db →
  orphans_of db' (tbl, user_fk) = orphans_of db (tbl, user_fk).
Proof.
  intros Hrows Hu. unfold orphans_of.
  cbn [fst snd user_fk fk_parent fk_parent_column fk_column].
  by rewrite Hrows, Hu.
Qed.

Lemma update_row_unique (t : string) (tbl : Table) (assigns : list (string * value))
  (i : nat) (db db' : DB) (old : row) :
  rows_of t db !! i = Some old →
  update_row t tbl assigns i db = Some db' →
  unique_ok tbl (delete i (rows_of t db)) (assign assigns old) = true.
Proof.
  intros Hold Hup. unfold update_row in Hup. rewrite Hold in Hup.
  destruct (_ && _) eqn:Hc; [|done]. by apply andb_prop in Hc as [_ Hc].
Qed.

(** The trigger of the schema writes [updated_at] only. *)
Lemma run_trigger_keeps_ids (now : value) (old : row) (db db' : DB) :
  run_trigger now old (Some db) update_user_timestamp = Some db' →
  map (get "id") (rows_of "users" db') = map (get "id") (rows_of "users" db)
  ∧ (∀ t, t ≠ "users" → rows_of t db' = rows_of t db)
  ∧ foreign_keys db' = foreign_keys db.
Proof.
  rewrite run_update_user_timestamp.
  apply (foldl_accepted_inv
           (fun d => map (get "id") (rows_of "users" d)
                     = map (get "id") (rows_of "users" db)
                     ∧ (∀ t, t ≠ "users" → rows_of t d = rows_of t db)
                     ∧ foreign_keys d = foreign_keys db)); [done| |done].
  intros d i d' (Hids & Hother & Hfk) Hup. unfold update_row in Hup.
  destruct (rows_of "users" d !! i) as [r|] eqn:Hr; [|by inversion Hup; subst].
  destruct (_ && _); [|done]. inversion Hup; subst d'; clear Hup.
  split_and!; [| |done].
  - rewrite rows_of_set_rows, map_list_insert, <- Hids.
    rewrite get_insert_ne by done.
    apply list_insert_id. change (map ?f ?l) with (f <$> l).
    by rewrite list_lookup_fmap, Hr.
  - intros t Ht. rewrite rows_of_set_rows_ne by done. by apply Hother.
Qed.

(** One row of an UPDATE of [users], whatever it assigns. *)
Lemma update_and_fire_users_ids (now : value) (assigns : list (string * value))
  (db db' : DB) (i : nat) (old : row) :
  rows_of "users" db !! i = Some old →
  update_and_fire now "users" users assigns (Some db) i = Some db' →
  map (get "id") (rows_of "users" db')
  = <[i := get "id" (assign assigns old)]> (map (get "id") (rows_of "users" db))
  ∧ (∀ t, t ≠ "users" → rows_of t db' = rows_of t db)
  ∧ foreign_keys db' = foreign_keys db
  ∧ get "id" (assign assigns old) ≠ VNull
  ∧ (∀ o, o ∈ delete i (rows_of "users" db) →
          get "id" o ≠ get "id" (assign assigns old)).
Proof.
  intros Hold Hstep. rewrite update_and_fire_eq, Hold in Hstep.
  destruct (update_row "users" users assigns i db) as [db2|] eqn:Hup; [|done].
  pose proof (update_row_unique _ _ _ _ _ _ _ Hold Hup) as Hu.
  destruct (update_row_Some _ _ _ _ _ _ _ Hold Hup) as [-> Hnn].
  destruct (schema_id_checked users _ _ ltac:(by left) Hnn Hu) as [Hid Hfresh].
  change (List.filter _ triggers) with [update_user_timestamp] in Hstep.
  cbn [foldl] in Hstep.
  apply run_trigger_keeps_ids in Hstep as (Hids & Hother & Hfk).
  rewrite rows_of_set_rows, map_list_insert in Hids.
  split_and!; [done| |done|done|done].
  intros t Ht. rewrite (Hother t Ht). by rewrite rows_of_set_rows_ne.
Qed.

(** One row of an UPDATE of a dependent table: no trigger is on it. *)
Lemma update_and_fire_dependent (now : value) (t : string) (tbl : Table)
  (assigns : list (string * value)) (db db' : DB) (i : nat) (old : row) :
  t ≠ "users" → rows_of t db !! i = Some old →
  update_and_fire now t tbl assigns (Some db) i = Some db' →
  db' = set_rows t (<[i := assign assigns old]> (rows_of t db)) db.
Proof.
  intros Hne Hold Hstep. rewrite update_and_fire_eq, Hold in Hstep.
  destruct (update_row t tbl assigns i db) as [db2|] eqn:Hup; [|done].
  destruct (update_row_Some _ _ _ _ _ _ _ Hold Hup) as [-> _].
  unfold triggers in Hstep. cbn [List.filter] in Hstep.
  rewrite bool_decide_eq_false_2 in Hstep by (simpl; congruence).
  by inversion Hstep.
Qed.

Lemma children_on_set_users (rs : list row) (db : DB) (tbl : Table) (k : value) :
  tbl_name tbl ≠ "users" →
  children_on (set_rows "users" rs db) (tbl, user_fk) k
  = children_on db (tbl, user_fk) k.
Proof.
  intros Hne. unfold children_on. cbn [fst snd].
  by rewrite rows_of_set_rows_ne by done.
Qed.

(** The count of an UPDATE of [users] after one row. *)
Lemma fk_row_users (assigns : list (string * value)) (i : nat) (db : DB) (n : Z)
  (old : row) :
  rows_of "users" db !! i = Some old →
  ("id" ∈ map fst assigns →
   n + (children_on db (liked_songs, user_fk) (get "id" old)
        + children_on db (password_reset_codes, user_fk) (get "id" old)
        + children_on db (session_tokens, user_fk) (get "id" old))
     - (children_on db (liked_songs, user_fk) (get "id" (assign assigns old))
        + children_on db (password_reset_codes, user_fk)
            (get "id" (assign assigns old))
        + children_on db (session_tokens, user_fk) (get "id" (assign assigns old)))
   ≤ fk_row "users" users assigns i db n)
  ∧ ("id" ∉ map fst assigns → fk_row "users" users assigns i db n = n).
Proof.
  intros Hold. unfold fk_row. rewrite Hold. unfold fk_old, fk_new.
  cbn [users tbl_foreign_keys foldl].
  change (referencing "users") with
    [ (liked_songs, user_fk); (password_reset_codes, user_fk);
      (session_tokens, user_fk) ].
  cbn [foldl snd user_fk fk_parent_column].
  rewrite !children_on_set_users by done.
  split; intros Hid.
  - rewrite (bool_decide_eq_true_2 _ Hid). cbn [andb].
    unfold children_on.
    repeat match goal with
           | |- context [negb (?x =? 0)] => destruct (negb (x =? 0))
           end; lia.
  - by rewrite (bool_decide_eq_false_2 _ Hid).
Qed.

Lemma referencing_dependent (t : string) : t ≠ "users" → referencing t = [].
Proof.
  intros Hne. unfold referencing.
  cbn [schema flat_map users liked_songs password_reset_codes session_tokens
       tbl_foreign_keys List.filter user_fk fk_parent map app].
  by rewrite bool_decide_eq_false_2 by congruence.
Qed.

(** The count of an UPDATE of a dependent table after one row. *)
Lemma fk_row_dependent (t : string) (tbl : Table) (assigns : list (string * value))
  (i : nat) (db : DB) (n : Z) (old : row) :
  tbl_foreign_keys tbl = [user_fk] → t ≠ "users" →
  rows_of t db !! i = Some old →
  ("user_id" ∈ map fst assigns →
   n - missing (map (get "id") (rows_of "users" db)) (get "user_id" old)
     + missing (map (get "id") (rows_of "users" db))
         (get "user_id" (assign assigns old))
   ≤ fk_row t tbl assigns i db n)
  ∧ ("user_id" ∉ map fst assigns → fk_row t tbl assigns i db n = n).
Proof.
  intros Hfks Hne Hold. unfold fk_row. rewrite Hold. unfold fk_old, fk_new.
  rewrite Hfks, (referencing_dependent t Hne).
  cbn [foldl user_fk fk_column]. rewrite !has_parent_users.
  rewrite rows_of_set_rows_ne by done.
  split; intros Hid.
  - rewrite (bool_decide_eq_true_2 _ Hid). cbn [andb]. unfold missing.
    destruct (bool_decide (get "user_id" old = VNull));
      destruct (bool_decide (get "user_id" old ∈ _));
      destruct (bool_decide (get "user_id" (assign assigns old) = VNull));
      destruct (bool_decide (get "user_id" (assign assigns old) ∈ _));
      destruct (n =? 0); simpl; lia.
  - by rewrite (bool_decide_eq_false_2 _ Hid).
Qed.

(** One row of an UPDATE never adds more orphan rows than it counts. *)
Lemma update_counted_step (now : value) (t : string) (tbl : Table)
  (assigns : list (string * value)) (i : nat) (db db' : DB) (n : Z) :
  find_table t = Some tbl →
  update_and_fire now t tbl assigns (Some db) i = Some db' →
  orphans db' - orphans db ≤ fk_row t tbl assigns i db n - n
  ∧ foreign_keys db' = foreign_keys db.
Proof.
  intros Hft Hstep.
  destruct (rows_of t db !! i) as [old|] eqn:Hold.
  2:{ rewrite update_and_fire_eq, Hold in Hstep. inversion Hstep; subst db'.
      unfold fk_row. rewrite Hold. split; [lia|done]. }
  destruct (find_table_cases t tbl Hft) as [[-> ->]|(Hdep & Hname & Hne & Hfks)].
  - destruct (update_and_fire_users_ids now assigns db db' i old Hold Hstep)
      as (Hids & Hother & Hfk & Hnn & Hfresh).
    split; [|done]. rewrite !orphans_eq.
    pose proof (orphans_of_users_step liked_songs db db' i old _ Hold Hids
                  (Hother "liked_songs" ltac:(done)) Hnn Hfresh) as H1.
    pose proof (orphans_of_users_step password_reset_codes db db' i old _ Hold Hids
                  (Hother "password_reset_codes" ltac:(done)) Hnn Hfresh) as H2.
    pose proof (orphans_of_users_step session_tokens db db' i old _ Hold Hids
                  (Hother "session_tokens" ltac:(done)) Hnn Hfresh) as H3.
    destruct (fk_row_users assigns i db n old Hold) as [Hin Hout].
    destruct (decide ("id" ∈ map fst assigns)) as [Hid|Hid].
    + specialize (Hin Hid). lia.
    + rewrite (Hout Hid). rewrite (get_assign_other "id" assigns old Hid) in *.
      lia.
  - pose proof (update_and_fire_dependent now t tbl assigns db db' i old Hne Hold
                  Hstep) as ->.
    split; [|done]. rewrite !orphans_eq.
    destruct (fk_row_dependent t tbl assigns i db n old Hfks Hne Hold)
      as [Hin Hout].
    assert (orphans (set_rows t (<[i := assign assigns old]> (rows_of t db)) db)
            = orphans db
              - missing (map (get "id") (rows_of "users" db)) (get "user_id" old)
              + missing (map (get "id") (rows_of "users" db))
                  (get "user_id" (assign assigns old))) as Hdiff.
    { rewrite !orphans_eq. clear Hin Hout Hstep.
      destruct Hdep as [ -> | [ -> | -> ] ].
      - pose proof (orphans_of_child_step liked_songs db _ i old (assign assigns old)
                      Hold (rows_of_set_rows _ _ _)
                      (rows_of_set_rows_ne "liked_songs" "users" _ _ Hne)) as Hc.
        change (tbl_name liked_songs) with "liked_songs" in Hc. rewrite Hc.
        rewrite (orphans_of_same password_reset_codes db),
          (orphans_of_same session_tokens db); [lia|..];
          by rewrite rows_of_set_rows_ne.
      - pose proof (orphans_of_child_step password_reset_codes db _ i old (assign assigns old)
                      Hold (rows_of_set_rows _ _ _)
                      (rows_of_set_rows_ne "password_reset_codes" "users" _ _ Hne)) as Hc.
        change (tbl_name password_reset_codes) with "password_reset_codes" in Hc. rewrite Hc.
        rewrite (orphans_of_same liked_songs db),
          (orphans_of_same session_tokens db); [lia|..];
          by rewrite rows_of_set_rows_ne.
      - pose proof (orphans_of_child_step session_tokens db _ i old (assign assigns old)
                      Hold (rows_of_set_rows _ _ _)
                      (rows_of_set_rows_ne "session_tokens" "users" _ _ Hne)) as Hc.
        change (tbl_name session_tokens) with "session_tokens" in Hc. rewrite Hc.
        rewrite (orphans_of_same liked_songs db),
          (orphans_of_same password_reset_codes db); [lia|..];
          by rewrite rows_of_set_rows_ne. }
    rewrite <- !orphans_eq, Hdiff.
    destruct (decide ("user_id" ∈ map fst assigns)) as [Hid|Hid].
    + specialize (Hin Hid). lia.
    + rewrite (Hout Hid), (get_assign_other "user_id" assigns old Hid). lia.
Qed.

(** Along the rows of an UPDATE the count stays above the number of orphan
    rows. *)
Lemma update_counted_orphans (now : value) (t : string) (tbl : Table)
  (assigns : list (string * value)) (idxs : list nat) :
  find_table t = Some tbl →
  ∀ db n db' n',
    orphans db ≤ n →
    foldl (update_counted now t tbl assigns) (Some (db, n)) idxs = Some (db', n') →
    orphans db' ≤ n' ∧ foreign_keys db' = foreign_keys db.
Proof.
  intros Hft. induction idxs as [|i idxs IH]; intros db n db' n' Hle Hf.
  - simpl in Hf. by inversion Hf; subst.
  - cbn [foldl] in Hf. unfold update_counted at 2 in Hf.
    cbn [mbind option_bind fst snd] in Hf.
    destruct (update_and_fire now t tbl assigns (Some db) i) as [db1|] eqn:Hstep;
      cbn [mbind option_bind] in Hf; [|by rewrite foldl_none in Hf].
    destruct (update_counted_step now t tbl assigns i db db1 n Hft Hstep)
      as [Hd Hfk].
    destruct (IH db1 (fk_row t tbl assigns i db n) db' n' ltac:(lia) Hf)
      as [H1 H2].
    split; [done|congruence].
Qed.

Lemma exec_update_enforced (now : value) (t : string) (P : row → bool)
  (assigns : list (string * value)) (db db' : DB) :
  enforced db → exec_update now t P assigns db = Some db' → enforced db'.
Proof.
  intros [Hinv Hfk] Hex.
  apply exec_update_Some in Hex as (tbl & n & Hft & Hf & Hn & _).
  apply no_orphans_count in Hinv.
  destruct (update_counted_orphans now t tbl assigns _ Hft db 0 db' n
              ltac:(lia) Hf) as [Hle Hfk'].
  rewrite Hfk in Hn. apply Z.ltb_ge in Hn.
  split; [|congruence]. apply no_orphans_count.
  pose proof (orphans_eq db').
  pose proof (orphans_of_nonneg db' (liked_songs, user_fk)).
  pose proof (orphans_of_nonneg db' (password_reset_codes, user_fk)).
  pose proof (orphans_of_nonneg db' (session_tokens, user_fk)).
  lia.
Qed.

Lemma exec_enforced (now : value) (s : Stmt) (db db' : DB) :
  enforced db → exec now s db = Some db' → enforced db'.
Proof.
  intros [Hinv Hfk] Hex. destruct s as [t r|t P|t P a]; simpl in Hex.
  - by eapply exec_insert_no_orphans.
  - by eapply exec_delete_no_orphans.
  - by eapply exec_update_enforced.
Qed.

Lemma empty_db_enforced : enforced (empty_db true).
Proof.
  split; [|done]. intros tbl fk c _ _ Hc. unfold rows_of in Hc. simpl in Hc.
  rewrite lookup_empty in Hc. by apply elem_of_nil in Hc.
Qed.

(** C5, as the schema has it.  Each of the three dependent tables declares
    one foreign key, to [users(id)] with ON DELETE CASCADE, and the schema
    declares no other.  The schema file sets no [PRAGMA foreign_keys]; on a
    connection that enforces foreign keys, and on a database whose
    dependent rows all have a user ([enforced]): deleting the user with id
    [k] is accepted, and afterwards no user has that id and no row of
    [liked_songs], [password_reset_codes] or [session_tokens] carries it,
    while the rows of other users stay; no INSERT, DELETE or UPDATE on any
    table leaves a dependent row whose user does not exist; and the empty
    database is such a database. *)
Theorem delete_user_cascades :
  (∀ tbl fk, tbl ∈ schema → fk ∈ tbl_foreign_keys tbl →
     fk_column fk = "user_id" ∧ fk_parent fk = "users"
     ∧ fk_parent_column fk = "id" ∧ fk_on_delete fk = Cascade)
  ∧ (∀ t, dependent t →
       ∃ tbl, find_table t = Some tbl ∧ tbl_foreign_keys tbl = [user_fk])
  ∧ (∀ now db k, enforced db →
       ∃ db', exec now (Delete "users" (col_is "id" (VInt k))) db = Some db'
              ∧ (∀ p, p ∈ rows_of "users" db' → get "id" p ≠ VInt k)
              ∧ (∀ t c, dependent t → c ∈ rows_of t db' →
                   get "user_id" c ≠ VInt k)
              ∧ (∀ t c, dependent t → c ∈ rows_of t db →
                   get "user_id" c ≠ VInt k → c ∈ rows_of t db'))
  ∧ (∀ now s db db', enforced db → exec now s db = Some db' → enforced db')
  ∧ enforced (empty_db true).
Proof.
  split_and!.
  - intros tbl fk Ht Hfk. by destruct (schema_foreign_keys tbl fk Ht Hfk) as [_ ->].
  - intros t Hdep. destruct (find_table_dependent t Hdep) as (tbl & ? & ? & _). eauto.
  - intros now db k [Hinv Hfk]. simpl.
    rewrite (exec_delete_users (col_is "id" (VInt k)) db Hfk).
    eexists. split; [done|].
    pose proof (exec_delete_users_rows (col_is "id" (VInt k)) db _ Hfk
                  (exec_delete_users (col_is "id" (VInt k)) db Hfk))
      as (_ & Hu & Hd).
    rewrite no_orphans_alt in Hinv.
    split_and!.
    + intros p Hp. rewrite Hu in Hp. apply elem_of_List_filter in Hp as [_ Hp].
      unfold col_is in Hp. apply negb_true_iff in Hp.
      by apply bool_decide_eq_false in Hp.
    + intros t c Hdep Hc Hk. rewrite (Hd t Hdep) in Hc.
      apply elem_of_List_filter in Hc as [Hc Href]. apply negb_true_iff in Href.
      assert (get "user_id" c ≠ VNull) as Hnn by (rewrite Hk; done).
      destruct (Hinv t c Hdep Hc Hnn) as (p & Hp & Hid).
      assert (references user_fk
                (List.filter (col_is "id" (VInt k)) (rows_of "users" db)) c = true)
        as Hyes; [|congruence].
      apply references_spec. split; [done|]. exists p. split; [|done].
      apply elem_of_List_filter. split; [done|].
      unfold col_is. apply bool_decide_eq_true. congruence.
    + intros t c Hdep Hc Hk. rewrite (Hd t Hdep).
      apply elem_of_List_filter. split; [done|]. apply negb_true_iff.
      destruct (references _ _ c) eqn:Href; [|done].
      apply references_spec in Href as (_ & p & Hp & Hid).
      apply elem_of_List_filter in Hp as [_ Hp]. unfold col_is in Hp.
      apply bool_decide_eq_true in Hp. congruence.
  - apply exec_enforced.
  - apply empty_db_enforced.
Qed.

(** A user with one liked song, then the user is deleted. *)
Lemma delete_user_cascades_witness :
  let ann : row :=
    list_to_map [ ("name", VText "Ann"); ("email", VText "a@x.com");
                  ("password_hash", VText "h") ] in
  let song : row :=
    list_to_map [ ("user_id", VInt 1); ("song_title", VText "Happy");
                  ("artist", VText "Pharrell Williams") ] in
  let db1 := default (empty_db true)
               (exec (VInt 100) (Insert "users" ann) (empty_db true)) in
  let db2 := default db1 (exec (VInt 101) (Insert "liked_songs" song) db1) in
  enforced db2
  ∧ length (rows_of "liked_songs" db2) = 1%nat
  ∧ ∃ db3,
      exec (VInt 102) (Delete "users" (col_is "id" (VInt 1))) db2 = Some db3
      ∧ (∀ t c, dependent t → c ∈ rows_of t db3 → get "user_id" c ≠ VInt 1).
Proof.
  intros ann song db1 db2.
  destruct delete_user_cascades as (_ & _ & Hdel & Hpres & Hempty).
  assert (exec (VInt 100) (Insert "users" ann) (empty_db true) = Some db1) as H1
    by (vm_compute; reflexivity).
  assert (exec (VInt 101) (Insert "liked_songs" song) db1 = Some db2) as H2
    by (vm_compute; reflexivity).
  pose proof (Hpres _ _ _ _ Hempty H1) as He1.
  pose proof (Hpres _ _ _ _ He1 H2) as He2.
  destruct (Hdel (VInt 102) db2 1 He2) as (db3 & H3 & _ & Hrows & _).
  split_and!; [exact He2|vm_compute; reflexivity|].
  exists db3. split; [exact H3|exact Hrows].
Defined.

(** C5 as stated fails: the schema sets no [PRAGMA foreign_keys], and on a
    connection that does not enforce foreign keys the deletion of a user
    leaves her liked song behind, with the id of no user. *)
Lemma delete_without_enforcement_leaves_orphan :
  let ann : row :=
    list_to_map [ ("name", VText "Ann"); ("email", VText "a@x.com");
                  ("password_hash", VText "h") ] in
  let song : row :=
    list_to_map [ ("user_id", VInt 1); ("song_title", VText "Happy");
                  ("artist", VText "Pharrell Williams") ] in
  (db1 ← exec (VInt 100) (Insert "users" ann) (empty_db false);
   db2 ← exec (VInt 101) (Insert "liked_songs" song) db1;
   db3 ← exec (VInt 102) (Delete "users" (col_is "id" (VInt 1))) db2;
   Some (map (get "id") (rows_of "users" db3),
         map (get "user_id") (rows_of "liked_songs" db3)))
  = Some ([], [VInt 1]).
Proof. vm_compute. reflexivity. Qed.

(** Two users; the first is renamed at time 200 by a statement that also
    assigns her id the value it has. *)
Lemma update_user_timestamp_refreshes_witness :
  let ann : row :=
    list_to_map [ ("name", VText "Ann"); ("email", VText "a@x.com");
                  ("password_hash", VText "h") ] in
  let bea : row :=
    list_to_map [ ("name", VText "Bea"); ("email", VText "b@x.com");
                  ("password_hash", VText "h") ] in
  let db1 := default (empty_db true)
               (exec (VInt 100) (Insert "users" ann) (empty_db true)) in
  let db2 := default db1 (exec (VInt 101) (Insert "users" bea) db1) in
  let assigns := [ ("id", VInt 1); ("name", VText "Bob") ] in
  ∃ db3,
    exec_update (VInt 200) "users" (col_is "id" (VInt 1)) assigns db2 = Some db3
    ∧ map (fun r => (get "id" r, get "name" r, get "updated_at" r))
        (rows_of "users" db3)
      = [ (VInt 1, VText "Bob", VInt 200); (VInt 2, VText "Bea", VInt 101) ].
Proof.
  intros ann bea db1 db2 assigns.
  destruct (exec_update (VInt 200) "users" (col_is "id" (VInt 1)) assigns db2)
    as [db3|] eqn:Hex;
    [|exfalso; vm_compute in Hex; discriminate].
  exists db3. split; [reflexivity|].
  destruct (update_user_timestamp_refreshes (VInt 200) (col_is "id" (VInt 1))
              assigns db2 db3) as (Hrows & _);
    [|vm_compute; reflexivity|reflexivity|reflexivity| |exact Hex|].
  - apply (bool_decide_unpack _). vm_compute. exact I.
  - apply (proj1 (Forall_forall
             (fun r => col_is "id" (VInt 1) r = true →
                       get "id" (assign assigns r) = get "id" r) _)).
    apply (bool_decide_unpack _). vm_compute. exact I.
  - rewrite Hrows. vm_compute. reflexivity.
Defined.

(** C7 as stated fails: an UPDATE that changes the [id] of a user is
    accepted, and the trigger, which looks for the old id, finds no row:
    [updated_at] keeps the time of the insertion. *)
Lemma update_of_id_keeps_updated_at :
  let ann : row :=
    list_to_map [ ("name", VText "Ann"); ("email", VText "a@x.com");
                  ("password_hash", VText "h") ] in
  (db1 ← exec (VInt 100) (Insert "users" ann) (empty_db true);
   db2 ← exec (VInt 200) (Update "users" (col_is "id" (VInt 1)) [("id", VInt 9)]) db1;
   Some (map (fun r => (get "id" r, get "updated_at" r)) (rows_of "users" db2)))
  = Some [ (VInt 9, VInt 100) ].
Proof. vm_compute. reflexivity. Qed.

End SqlFacts.

(** ** The Liked-Song Ledger *)

Module LedgerFacts.

Import Sql Ledger SqlFacts.

Local Open Scope bool_scope.

(** The row an accepted like inserts keeps the natural key it was given. *)
Lemma key_of_build_row (now : value) (n uid : Z) (req : MainApp.LikeRequest) :
  key_of (build_row now n liked_songs (supplied_row uid req))
  = key_of (supplied_row uid req).
Proof. destruct req as [a b c [d|] e f g]; vm_compute; reflexivity. Qed.

Lemma exec_insert_rows (now : value) (t : string) (s : row) (db db' : DB) :
  exec_insert now t s db = Some db' →
  ∃ tbl, find_table t = Some tbl
         ∧ rows_of t db' = rows_of t db ++ [build_row now (next_id t db) tbl s]
         ∧ (∀ t', t' ≠ t → rows_of t' db' = rows_of t' db).
Proof.
  unfold exec_insert. destruct (find_table t) as [tbl|]; [|done].
  destruct (_ && _); [|done]. intros [= <-]. exists tbl.
  split_and!; [done| |].
  - rewrite rows_of_insert_table. by rewrite decide_True.
  - intros t' Hne. rewrite rows_of_insert_table. by rewrite decide_False.
Qed.

Lemma find_key_none (k : Key) (rows : list row) :
  List.find (fun r => bool_decide (key_of r = k)) rows = None →
  k ∉ map key_of rows.
Proof.
  intros Hnone Hin. apply list_elem_of_In, in_map_iff in Hin as (r & Hk & Hr).
  pose proof (find_none _ _ Hnone r Hr) as H. simpl in H.
  by apply bool_decide_eq_false in H.
Qed.

Lemma filter_none {A} (f : A → bool) (l : list A) :
  (∀ x, x ∈ l → f x = false) → List.filter f l = [].
Proof.
  induction l as [|a l IH]; intros H; simpl; [done|].
  rewrite (H a) by (by left). apply IH. intros x Hx. apply H. by right.
Qed.

Lemma find_key_unique (k : Key) (rows : list row) (r : row) :
  NoDup (map key_of rows) → r ∈ rows → key_of r = k →
  List.find (fun r => bool_decide (key_of r = k)) rows = Some r
  ∧ List.filter (fun r => bool_decide (key_of r = k)) rows = [r].
Proof.
  intros Hnd Hin Hk. induction rows as [|a rows IH]; [by apply elem_of_nil in Hin|].
  simpl in Hnd. apply NoDup_cons in Hnd as [Hnotin Hnd]. simpl.
  apply elem_of_cons in Hin as [->|Hin].
  - rewrite bool_decide_eq_true_2 by done. split; [done|]. f_equal.
    apply filter_none. intros b Hb. apply bool_decide_eq_false. intros Heq.
    apply Hnotin. rewrite Hk, <- Heq. apply list_elem_of_In, in_map.
    by apply list_elem_of_In.
  - rewrite bool_decide_eq_false_2.
    + by apply IH.
    + intros Heq. apply Hnotin. rewrite Heq, <- Hk.
      apply list_elem_of_In, in_map. by apply list_elem_of_In.
Qed.

Lemma like_spec (now : value) (uid : Z) (req : MainApp.LikeRequest)
  (db db' : DB) (r : row) :
  key_unique db → like now uid req db = Some (db', r) →
  key_unique db'
  ∧ r ∈ rows_of "liked_songs" db'
  ∧ key_of r = key_of (supplied_row uid req)
  ∧ (∀ t, t ≠ "liked_songs" → rows_of t db' = rows_of t db).
Proof.
  intros Hu Hlike. unfold like in Hlike.
  destruct (List.find _ _) as [r0|] eqn:Hfind.
  - inversion Hlike; subst. apply find_some in Hfind as [Hin Hk].
    apply bool_decide_eq_true in Hk. by rewrite list_elem_of_In.
  - destruct (exec_insert now "liked_songs" _ db) as [db1|] eqn:Hins; [|done].
    simpl in Hlike.
    destruct (exec_insert_rows _ _ _ _ _ Hins) as (tbl & Hft & Hrows & Hother).
    change (find_table "liked_songs") with (Some liked_songs) in Hft.
    inversion Hft; subst tbl; clear Hft.
    rewrite Hrows, last_snoc in Hlike. simpl in Hlike.
    inversion Hlike; subst; clear Hlike.
    split_and!; [| |apply key_of_build_row|done].
    + unfold key_unique. rewrite Hrows, map_app. simpl.
      rewrite key_of_build_row. apply NoDup_app. split_and!; [done| |].
      * intros k Hk Hk'. apply list_elem_of_singleton in Hk'. subst k.
        apply find_key_none in Hfind. exact (Hfind Hk).
      * apply NoDup_singleton.
    + rewrite Hrows. apply elem_of_app. right. by left.
Qed.

(** A second like with the same key finds the row of the first. *)
Lemma like_again (now now' : value) (uid : Z) (req : MainApp.LikeRequest)
  (db db1 : DB) (r1 : row) :
  key_unique db → like now uid req db = Some (db1, r1) →
  like now' uid req db1 = Some (db1, r1)
  ∧ rows_with_key (key_of (supplied_row uid req)) db1 = [r1].
Proof.
  intros Hu Hlike.
  destruct (like_spec _ _ _ _ _ _ Hu Hlike) as (Hu1 & Hin & Hk & _).
  destruct (find_key_unique _ _ _ Hu1 Hin Hk) as [Hfind Hfilter].
  split; [|done]. unfold like. by rewrite Hfind.
Qed.

Lemma max_int_ge (c : string) (rows : list row) (r : row) (z : Z) :
  r ∈ rows → get c r = VInt z → z ≤ max_int c rows.
Proof.
  induction rows as [|a rows IH]; intros Hin Hz; [by apply elem_of_nil in Hin|].
  simpl. apply elem_of_cons in Hin as [->|Hin].
  - rewrite Hz. lia.
  - specialize (IH Hin Hz). destruct (get c a); lia.
Qed.

Lemma supplied_columns_ok (uid : Z) (req : MainApp.LikeRequest) :
  forallb (fun k => bool_decide (k ∈ map col_name (tbl_columns liked_songs)))
    (map fst (map_to_list (supplied_row uid req))) = true.
Proof. vm_compute. reflexivity. Qed.

Lemma like_row_not_null (now : value) (n uid : Z) (req : MainApp.LikeRequest) :
  not_null_ok liked_songs (build_row now n liked_songs (supplied_row uid req)) = true.
Proof. vm_compute. reflexivity. Qed.

Lemma like_row_id (now : value) (n uid : Z) (req : MainApp.LikeRequest) :
  get "id" (build_row now n liked_songs (supplied_row uid req)) = VInt n.
Proof. vm_compute. reflexivity. Qed.

Lemma like_row_user (now : value) (n uid : Z) (req : MainApp.LikeRequest) :
  get "user_id" (build_row now n liked_songs (supplied_row uid req)) = VInt uid.
Proof. vm_compute. reflexivity. Qed.

(** While the table has an id left to give, the store accepts the row of a
    like by an existing user, whatever rows are there: the fresh id collides
    with no stored id, and the other constraints hold by construction. *)
Lemma insert_like_accepted (now : value) (uid : Z) (req : MainApp.LikeRequest)
  (db : DB) :
  id_left "liked_songs" db = true →
  (∃ p, p ∈ rows_of "users" db ∧ get "id" p = VInt uid) →
  ∃ db', exec_insert now "liked_songs" (supplied_row uid req) db = Some db'.
Proof.
  intros Hleft (p & Hp & Hid).
  unfold exec_insert. change (find_table "liked_songs") with (Some liked_songs).
  cbv iota beta zeta.
  rewrite supplied_columns_ok, Hleft, orb_true_r, like_row_not_null. cbn [andb].
  replace (unique_ok liked_songs _ _) with true.
  - replace (fk_child_ok db liked_songs _) with true; [by eauto|].
    symmetry. unfold fk_child_ok. destruct (foreign_keys db); [|done].
    cbn [negb orb liked_songs tbl_foreign_keys forallb user_fk fk_column
         fk_parent fk_parent_column]. rewrite like_row_user.
    rewrite andb_true_r. apply orb_true_intro. right.
    apply existsb_exists. exists p.
    split; [by apply list_elem_of_In|by apply bool_decide_eq_true].
  - symmetry. unfold unique_ok.
    cbn [liked_songs tbl_columns forallb primary_key not_null plain
         timestamp_now col_unique col_primary_key col_name orb negb andb].
    rewrite like_row_id. rewrite !andb_true_r.
    apply forallb_forall. intros o Ho. apply negb_true_iff.
    apply bool_decide_eq_false. intros Heq. apply list_elem_of_In in Ho.
    pose proof (max_int_ge "id" _ o _ Ho Heq) as Hle.
    unfold next_id in Hle. lia.
Qed.

(** The like operation of the specification, run by an existing user, is
    accepted. *)
Lemma like_accepted (now : value) (uid : Z) (req : MainApp.LikeRequest) (db : DB) :
  id_left "liked_songs" db = true →
  (∃ p, p ∈ rows_of "users" db ∧ get "id" p = VInt uid) →
  ∃ db' r, like now uid req db = Some (db', r).
Proof.
  intros Hleft Huser. unfold like.
  destruct (List.find _ _) as [r0|]; [by eauto|].
  destruct (insert_like_accepted now uid req db Hleft Huser) as [db' Hins].
  rewrite Hins. simpl.
  destruct (exec_insert_rows _ _ _ _ _ Hins) as (tbl & _ & Hrows & _).
  rewrite Hrows, last_snoc. simpl. eauto.
Qed.

(** With the existence check of the specification's like, a repeated like
    leaves one row: the check, not the store, keeps the key unique. *)
Lemma like_twice_one_row (now now' : value) (uid : Z) (req : MainApp.LikeRequest)
  (db : DB) :
  key_unique db →
  id_left "liked_songs" db = true →
  (∃ p, p ∈ rows_of "users" db ∧ get "id" p = VInt uid) →
  ∃ db1 r1,
    like now uid req db = Some (db1, r1)
    ∧ like now' uid req db1 = Some (db1, r1)
    ∧ key_unique db1
    ∧ rows_with_key (key_of (supplied_row uid req)) db1 = [r1].
Proof.
  intros Hu Hleft Huser.
  destruct (like_accepted now uid req db Hleft Huser) as (db1 & r1 & Hlike).
  exists db1, r1. split; [exact Hlike|].
  destruct (like_again now now' uid req db db1 r1 Hu Hlike) as [H1 H2].
  destruct (like_spec _ _ _ _ _ _ Hu Hlike) as (H3 & _).
  done.
Qed.

Lemma filter_snoc {A} (f : A → bool) (l : list A) (x : A) :
  List.filter f (l ++ [x]) = List.filter f l ++ (if f x then [x] else []).
Proof.
  induction l as [|a l IH]; simpl; [by destruct (f x)|].
  rewrite IH. by destruct (f a).
Qed.

(** C1, as the schema has it.  [liked_songs] declares no uniqueness
    constraint on its natural key: its only unique column is the primary
    key [id].  On a database whose values are of the declared types, and
    while the table has an id left to give, the store therefore accepts the
    row of a like by an existing user whatever rows are there, and the rows
    with that natural key become one more, also when there was one already.
    At most one row per natural key is not something the store enforces. *)
Theorem liked_songs_natural_key_not_enforced :
  List.filter (fun c => col_unique c || col_primary_key c)
    (tbl_columns liked_songs) = [ primary_key "id" ]
  ∧ tbl_foreign_keys liked_songs = [ user_fk ]
  ∧ (∀ now uid req db,
       typed_db db = true →
       id_left "liked_songs" db = true →
       (∃ p, p ∈ rows_of "users" db ∧ get "id" p = VInt uid) →
       ∃ db' r,
         exec_insert now "liked_songs" (supplied_row uid req) db = Some db'
         ∧ key_of r = key_of (supplied_row uid req)
         ∧ rows_of "liked_songs" db' = rows_of "liked_songs" db ++ [r]
         ∧ rows_with_key (key_of (supplied_row uid req)) db'
           = rows_with_key (key_of (supplied_row uid req)) db ++ [r]).
Proof.
  split_and!; [reflexivity..|].
  intros now uid req db _ Hleft Huser.
  destruct (insert_like_accepted now uid req db Hleft Huser) as [db' Hins].
  destruct (exec_insert_rows _ _ _ _ _ Hins) as (tbl & Hft & Hrows & _).
  change (find_table "liked_songs") with (Some liked_songs) in Hft.
  inversion Hft; subst tbl; clear Hft.
  exists db', (build_row now (next_id "liked_songs" db) liked_songs
                 (supplied_row uid req)).
  split_and!; [exact Hins|apply key_of_build_row|exact Hrows|].
  unfold rows_with_key. rewrite Hrows, filter_snoc.
  rewrite key_of_build_row. by rewrite bool_decide_eq_true_2.
Qed.

(** One user, the same catalog track inserted twice: two rows with the
    key. *)
Lemma liked_songs_natural_key_not_enforced_witness :
  let ann : row :=
    list_to_map [ ("name", VText "Ann"); ("email", VText "a@x.com");
                  ("password_hash", VText "h") ] in
  let db := default (empty_db true)
              (exec (VInt 100) (Insert "users" ann) (empty_db true)) in
  let req := MainApp.mkLikeRequest "Happy" "Pharrell Williams" None
               (Some "trk1") None "G I R L" (Some "happy") in
  let db1 := default db
               (exec_insert (VInt 101) "liked_songs" (supplied_row 1 req) db) in
  ∃ db2 r1 r2,
    exec_insert (VInt 101) "liked_songs" (supplied_row 1 req) db = Some db1
    ∧ exec_insert (VInt 102) "liked_songs" (supplied_row 1 req) db1 = Some db2
    ∧ rows_with_key (ByTrackId (VInt 1) (VText "trk1")) db2 = [r1; r2].
Proof.
  intros ann db req db1.
  destruct liked_songs_natural_key_not_enforced as (_ & _ & H).
  assert (∀ d, rows_of "users" d = rows_of "users" db →
               ∃ p, p ∈ rows_of "users" d ∧ get "id" p = VInt 1) as Huser.
  { intros d ->. exists (build_row (VInt 100) 1 users ann). split.
    - apply (bool_decide_unpack _). vm_compute. exact I.
    - vm_compute. reflexivity. }
  destruct (H (VInt 101) 1 req db ltac:(vm_compute; reflexivity)
              ltac:(vm_compute; reflexivity) (Huser db eq_refl))
    as (db1' & r1 & H1 & _ & _ & Hk1).
  assert (db1' = db1) as -> by (unfold db1; by rewrite H1).
  assert (rows_of "users" db1 = rows_of "users" db) as Hu1.
  { destruct (exec_insert_rows _ _ _ _ _ H1) as (_ & _ & _ & Ho). by apply Ho. }
  destruct (H (VInt 102) 1 req db1 ltac:(vm_compute; reflexivity)
              ltac:(vm_compute; reflexivity) (Huser db1 Hu1))
    as (db2 & r2 & H2 & _ & _ & Hk2).
  exists db2, r1, r2. split_and!; [exact H1|exact H2|].
  change (ByTrackId (VInt 1) (VText "trk1")) with (key_of (supplied_row 1 req)).
  rewrite Hk2, Hk1. reflexivity.
Defined.

(** C1 as stated fails: the store accepts a second row with the same
    [(user_id, spotify_track_id)]; nothing in the schema rejects it. *)
Lemma schema_accepts_duplicate_like :
  let ann : row :=
    list_to_map [ ("name", VText "Ann"); ("email", VText "a@x.com");
                  ("password_hash", VText "h") ] in
  let song : row :=
    list_to_map [ ("user_id", VInt 1); ("song_title", VText "Happy");
                  ("artist", VText "Pharrell Williams");
                  ("spotify_track_id", VText "trk1") ] in
  (db1 ← exec (VInt 100) (Insert "users" ann) (empty_db true);
   db2 ← exec (VInt 101) (Insert "liked_songs" song) db1;
   db3 ← exec (VInt 102) (Insert "liked_songs" song) db2;
   Some (map (fun r => (get "user_id" r, get "spotify_track_id" r))
           (rows_of "liked_songs" db3)))
  = Some [ (VInt 1, VText "trk1"); (VInt 1, VText "trk1") ].
Proof. vm_compute. reflexivity. Qed.

End LedgerFacts.

(** ** Runs of statements on the schema *)

Module SqlRunFacts.

Import Sql SqlRun SqlFacts.

Local Open Scope bool_scope.

Lemma not_null_ok_column (tbl : Table) (r : row) (c : Column) :
  c ∈ tbl_columns tbl → is_required c = true → not_null_ok tbl r = true →
  get (col_name c) r ≠ VNull.
Proof.
  intros Hc Hreq Hok. unfold not_null_ok in Hok.
  pose proof (proj1 (forallb_forall _ _) Hok c (proj1 (list_elem_of_In _ _) Hc)) as H.
  cbv beta in H. unfold is_required in Hreq. rewrite Hreq in H. simpl in H.
  by apply negb_true_iff, bool_decide_eq_false in H.
Qed.

Lemma unique_ok_column (tbl : Table) (others : list row) (r : row) (c : Column) :
  c ∈ tbl_columns tbl → is_key c = true → unique_ok tbl others r = true →
  get (col_name c) r ≠ VNull →
  ∀ o, o ∈ others → get (col_name c) o ≠ get (col_name c) r.
Proof.
  intros Hc Hkey Hok Hnn o Ho. unfold unique_ok in Hok.
  pose proof (proj1 (forallb_forall _ _) Hok c (proj1 (list_elem_of_In _ _) Hc)) as H.
  cbv beta in H. unfold is_key in Hkey. rewrite Hkey in H. simpl in H.
  rewrite (bool_decide_eq_false_2 _ Hnn) in H. simpl in H.
  pose proof (proj1 (forallb_forall _ _) H o (proj1 (list_elem_of_In _ _) Ho)) as H'.
  by apply negb_true_iff, bool_decide_eq_false in H'.
Qed.

(** Every key of the schema is a required column. *)
Lemma schema_keys_required (tbl : Table) (c : Column) :
  tbl ∈ schema → c ∈ tbl_columns tbl → is_key c = true → is_required c = true.
Proof.
  intros Ht Hc. apply schema_tables in Ht as [ -> | [ -> | [ -> | -> ] ] ];
    simpl in Hc; repeat (apply elem_of_cons in Hc as [->|Hc]; [done|]);
    by apply elem_of_nil in Hc.
Qed.

Lemma schema_name_inj (tbl tbl' : Table) :
  tbl ∈ schema → tbl' ∈ schema → tbl_name tbl = tbl_name tbl' → tbl = tbl'.
Proof.
  intros H H'. apply schema_tables in H as [ -> | [ -> | [ -> | -> ] ] ];
    apply schema_tables in H' as [ -> | [ -> | [ -> | -> ] ] ]; done.
Qed.

Lemma find_table_name (tbl : Table) :
  tbl ∈ schema → find_table (tbl_name tbl) = Some tbl.
Proof. intros H. by apply schema_tables in H as [ -> | [ -> | [ -> | -> ] ] ]. Qed.

Lemma List_filter_all {A} (l : list A) : List.filter (fun _ => true) l = l.
Proof. induction l as [|a l IH]; simpl; [done|]. by rewrite IH. Qed.

(** A DELETE only removes rows, in every table. *)
Lemma exec_delete_filters (t : string) (P : row → bool) (db db' : DB) :
  exec_delete t P db = Some db' →
  foreign_keys db' = foreign_keys db ∧ seq db' = seq db
  ∧ ∀ t', ∃ f, rows_of t' db' = List.filter f (rows_of t' db).
Proof.
  intros Hex.
  destruct (find_table t) as [tbl|] eqn:Hft;
    [|by unfold exec_delete in Hex; rewrite Hft in Hex].
  destruct (find_table_cases t tbl Hft) as [[-> _]|(Hdep & _ & Hne & _)].
  - destruct (foreign_keys db) eqn:Hfk.
    + destruct (exec_delete_users_rows P db db' Hfk Hex) as (Hfk' & Hu & Hd).
      split; [done|]. split.
      { rewrite (exec_delete_users P db Hfk) in Hex. by inversion Hex. }
      intros t'. destruct (decide (t' = "users")) as [->|Hne]; [by eauto|].
      destruct (decide (dependent t')) as [Hdep|Hnd]; [by rewrite (Hd t' Hdep); eauto|].
      exists (fun _ => true). rewrite List_filter_all.
      rewrite (exec_delete_users P db Hfk) in Hex. inversion Hex; subst.
      unfold dependent in Hnd.
      by rewrite !rows_of_set_rows_ne
        by (intros Heq; subst t'; first [congruence|apply Hnd; auto]).
    + rewrite (exec_delete_not_enforced P db Hfk) in Hex. inversion Hex; subst.
      split_and!; [done..|]. intros t'.
      destruct (decide ("users" = t')) as [<-|Hne].
      * rewrite rows_of_set_rows. eauto.
      * rewrite rows_of_set_rows_ne by done. exists (fun _ => true).
        by rewrite List_filter_all.
  - rewrite (exec_delete_dependent t P db Hdep) in Hex. inversion Hex; subst.
    split_and!; [done..|]. intros t'. destruct (decide (t = t')) as [<-|Hne'].
    + rewrite rows_of_set_rows. eauto.
    + rewrite rows_of_set_rows_ne by done. exists (fun _ => true).
      by rewrite List_filter_all.
Qed.

(** What every row write of an UPDATE keeps, the UPDATE keeps. *)
Lemma exec_update_inv (I : DB → Prop) :
  (∀ t tbl a i db db', find_table t = Some tbl → I db →
     update_row t tbl a i db = Some db' → I db') →
  ∀ now t P a db db', I db → exec_update now t P a db = Some db' → I db'.
Proof.
  intros Hrow now t P a db db' HI Hex.
  apply exec_update_Some in Hex as (tbl & n & Hft & _ & _ & Hex).
  revert Hex. apply foldl_accepted_inv; [done| |done].
  intros db0 i db1 HI0 Hstep. rewrite update_and_fire_eq in Hstep.
  destruct (rows_of t db0 !! i) as [old|]; [|by inversion Hstep; subst].
  destruct (update_row t tbl a i db0) as [db2|] eqn:Hup; [|done].
  revert Hstep. apply foldl_accepted_inv; [done| |by eapply Hrow].
  intros db3 trg db4 HI3 Hrun. unfold run_trigger in Hrun. simpl in Hrun.
  destruct (find_table (trg_target trg)) as [tbl'|] eqn:Hft'; [|done].
  revert Hrun. apply foldl_accepted_inv; [done| |done].
  intros db5 j db6 HI5 Hs. simpl in Hs. by eapply Hrow.
Qed.

(** What every accepted statement keeps holds after every run. *)
Lemma run_inv (I : DB → Prop) :
  (∀ now s db db', I db → exec now s db = Some db' → I db') →
  ∀ ss db, I db → I (run db ss).
Proof.
  intros Hstep ss. unfold run. induction ss as [|[now s] ss IH]; intros db HI; [done|].
  simpl. apply IH. unfold apply_stmt. simpl.
  destruct (exec now s db) as [db'|] eqn:Hex; simpl; [by eapply Hstep|done].
Qed.

Lemma update_row_stored_ok (t : string) (tbl : Table)
  (a : list (string * value)) (i : nat) (db db' : DB) :
  find_table t = Some tbl → stored_ok db →
  update_row t tbl a i db = Some db' → stored_ok db'.
Proof.
  intros Hft [Hreq Hkeys] Hup. unfold update_row in Hup.
  destruct (rows_of t db !! i) as [old|] eqn:Hold; [|by inversion Hup; subst].
  destruct (_ && _) eqn:Hc; [|done]. inversion Hup; subst; clear Hup.
  apply andb_prop in Hc as [Hnn Hu].
  apply find_table_Some in Hft as [Hin <-].
  split.
  - intros tbl' r Hin' Hr.
    destruct (decide (tbl_name tbl = tbl_name tbl')) as [Heq|Hne].
    + rewrite <- Heq in Hr. rewrite rows_of_set_rows in Hr.
      assert (tbl = tbl') as <- by by apply schema_name_inj.
      apply elem_of_list_insert_inv in Hr as [->|Hr]; [done|by apply Hreq].
    + rewrite rows_of_set_rows_ne in Hr by done. by apply Hreq.
  - intros tbl' c Hin' Hc Hkey.
    destruct (decide (tbl_name tbl = tbl_name tbl')) as [Heq|Hne].
    + rewrite <- Heq. rewrite rows_of_set_rows.
      assert (tbl = tbl') as <- by by apply schema_name_inj.
      rewrite map_list_insert. apply NoDup_list_insert; [by apply Hkeys|].
      change (map ?f ?l) with (f <$> l). rewrite <- list_fmap_delete.
      intros (o & Ho & Hino)%list_elem_of_fmap.
      eapply (unique_ok_column tbl _ _ c Hc Hkey Hu); [|exact Hino|done].
      apply (not_null_ok_column tbl _ c Hc); [|done].
      by apply (schema_keys_required tbl).
    + rewrite rows_of_set_rows_ne by done. by apply Hkeys.
Qed.

Lemma exec_stored_ok (now : value) (s : Stmt) (db db' : DB) :
  stored_ok db → exec now s db = Some db' → stored_ok db'.
Proof.
  intros HI Hex. destruct s as [t r0|t P|t P a]; simpl in Hex.
  - destruct HI as [Hreq Hkeys]. unfold exec_insert in Hex.
    destruct (find_table t) as [tbl|] eqn:Hft; [|done].
    destruct (_ && _) eqn:Hc; [|done]. inversion Hex; subst; clear Hex.
    apply andb_prop in Hc as [Hc _]. apply andb_prop in Hc as [Hc Hu].
    apply andb_prop in Hc as [_ Hnn].
    apply find_table_Some in Hft as [Hin <-].
    split.
    + intros tbl' r Hin' Hr. rewrite rows_of_insert_table in Hr.
      destruct (decide (tbl_name tbl = tbl_name tbl')) as [Heq|Hne]; [|by apply Hreq].
      assert (tbl = tbl') as <- by by apply schema_name_inj.
      apply elem_of_app in Hr as [Hr|Hr]; [by apply Hreq|].
      apply list_elem_of_singleton in Hr. by subst.
    + intros tbl' c Hin' Hc Hkey. rewrite rows_of_insert_table.
      destruct (decide (tbl_name tbl = tbl_name tbl')) as [Heq|Hne]; [|by apply Hkeys].
      assert (tbl = tbl') as <- by by apply schema_name_inj.
      rewrite map_app. simpl. apply NoDup_app. split_and!; [by apply Hkeys| |].
      * intros k Hk1 Hk2. apply list_elem_of_singleton in Hk2.
        apply list_elem_of_In, in_map_iff in Hk1 as (o & Ho & Hino).
        eapply (unique_ok_column tbl _ _ c Hc Hkey Hu);
          [|apply list_elem_of_In; exact Hino|congruence].
        apply (not_null_ok_column tbl _ c Hc); [|done].
        by apply (schema_keys_required tbl).
      * apply NoDup_singleton.
  - destruct HI as [Hreq Hkeys].
    destruct (exec_delete_filters t P db db' Hex) as (_ & _ & Hf).
    split.
    + intros tbl' r Hin' Hr. destruct (Hf (tbl_name tbl')) as [f Hrows].
      rewrite Hrows in Hr. apply elem_of_List_filter in Hr as [Hr _].
      by apply Hreq.
    + intros tbl' c Hin' Hc Hkey. destruct (Hf (tbl_name tbl')) as [f Hrows].
      rewrite Hrows. apply NoDup_map_filter. by apply Hkeys.
  - revert Hex. apply exec_update_inv; [|done].
    intros ??????. apply update_row_stored_ok.
Qed.

Lemma empty_db_stored_ok (fk : bool) : stored_ok (empty_db fk).
Proof.
  split.
  - intros tbl r _ Hr. unfold rows_of in Hr. simpl in Hr.
    rewrite lookup_empty in Hr. by apply elem_of_nil in Hr.
  - intros tbl c _ _ _. unfold rows_of. simpl. rewrite lookup_empty.
    apply NoDup_nil_2.
Qed.

Lemma run_stored_ok (fk : bool) (ss : list (value * Stmt)) :
  stored_ok (run (empty_db fk) ss).
Proof.
  apply (run_inv stored_ok); [|apply empty_db_stored_ok].
  intros now s db db'. apply exec_stored_ok.
Qed.

(** X2.  After every run of statements from the empty database, a column
    declared NOT NULL or PRIMARY KEY is NULL in no stored row. *)
Theorem required_columns_are_filled (fk : bool) (ss : list (value * Stmt))
  (tbl : Table) (c : Column) (r : row) :
  tbl ∈ schema → c ∈ tbl_columns tbl → is_required c = true →
  r ∈ rows_of (tbl_name tbl) (run (empty_db fk) ss) →
  get (col_name c) r ≠ VNull.
Proof.
  intros Ht Hc Hreq Hr. destruct (run_stored_ok fk ss) as [Hfilled _].
  apply (not_null_ok_column tbl r c Hc Hreq). by apply Hfilled.
Qed.

(** A liked song without a title is rejected; the one with a title is
    stored with its title. *)
Lemma required_columns_are_filled_witness :
  let ann : row :=
    list_to_map [ ("name", VText "Ann"); ("email", VText "a@x.com");
                  ("password_hash", VText "h") ] in
  let untitled : row :=
    list_to_map [ ("user_id", VInt 1); ("artist", VText "Queen") ] in
  let titled : row :=
    list_to_map [ ("user_id", VInt 1); ("song_title", VText "Jazz");
                  ("artist", VText "Queen") ] in
  let ss := [ (VInt 100, Insert "users" ann);
              (VInt 101, Insert "liked_songs" untitled);
              (VInt 102, Insert "liked_songs" titled) ] in
  build_row (VInt 102) 1 liked_songs titled
    ∈ rows_of "liked_songs" (run (empty_db true) ss)
  ∧ get "song_title" (build_row (VInt 102) 1 liked_songs titled) ≠ VNull
  ∧ length (rows_of "liked_songs" (run (empty_db true) ss)) = 1%nat.
Proof.
  intros ann untitled titled ss.
  assert (build_row (VInt 102) 1 liked_songs titled
            ∈ rows_of "liked_songs" (run (empty_db true) ss)) as Hin.
  { apply (bool_decide_unpack _). vm_compute. exact I. }
  split_and!; [exact Hin| |vm_compute; reflexivity].
  apply (required_columns_are_filled true ss liked_songs (not_null "song_title")).
  - right. by left.
  - simpl. do 2 right. by left.
  - reflexivity.
  - exact Hin.
Defined.

(** *** What an INSERT stores, and when it is accepted *)

Lemma schema_column_names (tbl : Table) :
  tbl ∈ schema → NoDup (map col_name (tbl_columns tbl)).
Proof.
  intros Ht. apply schema_tables in Ht as [ -> | [ -> | [ -> | -> ] ] ];
    apply (bool_decide_unpack _); vm_compute; exact I.
Qed.

Lemma get_build_row (now : value) (n : Z) (tbl : Table) (s : row) (c : Column) :
  tbl ∈ schema → c ∈ tbl_columns tbl →
  get (col_name c) (build_row now n tbl s) = fill now n s c.
Proof.
  intros Ht Hc. unfold get, build_row.
  rewrite (elem_of_list_to_map_1 _ (col_name c) (fill now n s c)); [done| |].
  - change (map ?f ?l) with (f <$> l). rewrite <- list_fmap_compose.
    by apply schema_column_names.
  - change (map ?f ?l) with (f <$> l). apply list_elem_of_fmap. by exists c.
Qed.

(** A column without default that is not the primary key receives what the
    statement supplies, NULL when it supplies nothing. *)
Lemma fill_plain (now : value) (n : Z) (s : row) (c : Column) :
  col_default c = NoDefault → col_primary_key c = false →
  fill now n s c = get (col_name c) s.
Proof.
  intros Hd Hpk. unfold fill, get. rewrite Hd, Hpk.
  by destruct (s !! col_name c) as [[]|].
Qed.

Lemma fill_auto_id (now : value) (n : Z) (s : row) :
  get "id" s = VNull → fill now n s (primary_key "id") = VInt n.
Proof.
  unfold fill, get. simpl. destruct (s !! "id") as [[]|]; simpl; done.
Qed.

Lemma schema_has_id (tbl : Table) : tbl ∈ schema → primary_key "id" ∈ tbl_columns tbl.
Proof. intros Ht. apply schema_tables in Ht as [ -> | [ -> | [ -> | -> ] ] ]; by left. Qed.

Lemma supplied_columns_forallb (tbl : Table) (s : row) :
  forallb (fun k => bool_decide (k ∈ map col_name (tbl_columns tbl)))
    (map fst (map_to_list s)) = true
  ↔ ∀ k, is_Some (s !! k) → k ∈ map col_name (tbl_columns tbl).
Proof.
  rewrite forallb_forall. split.
  - intros H k [v Hk]. apply (bool_decide_unpack _). apply Is_true_true_2, H.
    apply in_map_iff. exists (k, v). split; [done|].
    by apply list_elem_of_In, elem_of_map_to_list.
  - intros H k Hin. apply in_map_iff in Hin as ([k' v] & <- & Hin).
    apply bool_decide_eq_true, H. exists v.
    by apply elem_of_map_to_list, list_elem_of_In.
Qed.

(** The id an INSERT hands out is above every integer id of the table and
    above the counter. *)
Lemma next_id_fresh (t : string) (db : DB) (o : row) :
  o ∈ rows_of t db → get "id" o ≠ VInt (next_id t db).
Proof.
  intros Ho Heq. pose proof (LedgerFacts.max_int_ge "id" _ o _ Ho Heq) as Hle.
  unfold next_id in Hle. lia.
Qed.

(** The shape of an accepted INSERT. *)
Lemma exec_insert_Some (now : value) (t : string) (s : row) (db db' : DB) :
  exec_insert now t s db = Some db' →
  ∃ tbl, find_table t = Some tbl
    ∧ not_null_ok tbl (build_row now (next_id t db) tbl s) = true
    ∧ unique_ok tbl (rows_of t db) (build_row now (next_id t db) tbl s) = true
    ∧ fk_child_ok db tbl (build_row now (next_id t db) tbl s) = true
    ∧ rows_of t db' = rows_of t db ++ [build_row now (next_id t db) tbl s]
    ∧ (∀ t', t' ≠ t → rows_of t' db' = rows_of t' db ∧ seq_of t' db' = seq_of t' db)
    ∧ seq_of t db'
      = Z.max (seq_of t db)
          match get "id" (build_row now (next_id t db) tbl s) with
          | VInt z => z
          | _ => 0
          end
    ∧ foreign_keys db' = foreign_keys db
    ∧ (get "id" s = VNull → id_left t db = true).
Proof.
  unfold exec_insert. destruct (find_table t) as [tbl|]; [|done].
  destruct (_ && _) eqn:Hc; [|done]. intros [= <-]. exists tbl.
  apply andb_prop in Hc as [Hc Hfk]. apply andb_prop in Hc as [Hc Hu].
  apply andb_prop in Hc as [Hc Hnn]. apply andb_prop in Hc as [_ Hleft].
  split_and!; try done.
  - rewrite rows_of_insert_table. by rewrite decide_True.
  - intros t' Hne. rewrite rows_of_insert_table. rewrite decide_False by done.
    split; [done|]. unfold seq_of. simpl. by rewrite lookup_insert_ne.
  - unfold seq_of. simpl. by rewrite lookup_insert_eq.
  - intros Hid. by rewrite Hid in Hleft.
Qed.

Lemma users_columns (c : Column) :
  c ∈ tbl_columns users →
  c = primary_key "id" ∨ c = not_null "name"
  ∨ c = mkColumn "email" TEXT false true true NoDefault
  ∨ c = not_null "password_hash"
  ∨ (is_key c = false ∧ is_required c = false).
Proof.
  simpl. intros Hc.
  repeat (apply elem_of_cons in Hc as [->|Hc]; [by auto 10|]).
  by apply elem_of_nil in Hc.
Qed.

(** X3.  On a database whose values are of the declared types, an INSERT
    into [users] that names only columns of the table, supplies values of
    the declared types and leaves the id to AUTOINCREMENT is accepted
    exactly when it supplies a name, an email and a password hash, no
    stored user has that email, compared as exact text, and the table has
    an id left to give.  Neither the other rows nor the other columns
    matter. *)
Theorem user_insert_accepted_iff (now : value) (s : row) (db : DB) :
  typed_db db = true →
  (∀ k, is_Some (s !! k) → k ∈ map col_name (tbl_columns users)) →
  typed_row users s = true →
  get "id" s = VNull →
  (is_Some (exec_insert now "users" s db)
   ↔ get "name" s ≠ VNull ∧ get "email" s ≠ VNull
     ∧ get "password_hash" s ≠ VNull
     ∧ (∀ r, r ∈ rows_of "users" db → get "email" r ≠ get "email" s)
     ∧ next_id "users" db ≤ max_rowid).
Proof.
  intros _ Hcols _ Hid.
  assert (users ∈ schema) as Hu by by left.
  assert (∀ n, get "id" (build_row now n users s) = VInt n) as Hgid.
  { intros n. etrans; [apply (get_build_row now n users s (primary_key "id") Hu)|].
    - by left.
    - by apply fill_auto_id. }
  assert (∀ n, get "name" (build_row now n users s) = get "name" s) as Hgname.
  { intros n. etrans; [apply (get_build_row now n users s (not_null "name") Hu)|].
    - simpl. right. by left.
    - by apply fill_plain. }
  assert (∀ n, get "email" (build_row now n users s) = get "email" s) as Hgemail.
  { intros n.
    etrans; [apply (get_build_row now n users s
                      (mkColumn "email" TEXT false true true NoDefault) Hu)|].
    - simpl. do 2 right. by left.
    - by apply fill_plain. }
  assert (∀ n, get "password_hash" (build_row now n users s)
               = get "password_hash" s) as Hghash.
  { intros n.
    etrans; [apply (get_build_row now n users s (not_null "password_hash") Hu)|].
    - simpl. do 3 right. by left.
    - by apply fill_plain. }
  split.
  - intros [db' Hins].
    destruct (exec_insert_Some _ _ _ _ _ Hins)
      as (tbl & Hft & Hnn & Huq & _ & _ & _ & _ & _ & Hleft).
    specialize (Hleft Hid). apply Z.leb_le in Hleft.
    change (find_table "users") with (Some users) in Hft.
    inversion Hft; subst tbl; clear Hft.
    pose proof (not_null_ok_column users _ (not_null "name")
                  ltac:(simpl; right; by left) eq_refl Hnn) as H1.
    pose proof (not_null_ok_column users _
                  (mkColumn "email" TEXT false true true NoDefault)
                  ltac:(simpl; do 2 right; by left) eq_refl Hnn) as H2.
    pose proof (not_null_ok_column users _ (not_null "password_hash")
                  ltac:(simpl; do 3 right; by left) eq_refl Hnn) as H3.
    change (col_name _) with "name" in H1.
    change (col_name _) with "email" in H2.
    change (col_name _) with "password_hash" in H3.
    rewrite Hgname in H1. rewrite Hgemail in H2. rewrite Hghash in H3.
    split_and!; [done..| |done].
    intros r Hr.
    pose proof (unique_ok_column users (rows_of "users" db) _
                  (mkColumn "email" TEXT false true true NoDefault)
                  ltac:(simpl; do 2 right; by left) eq_refl Huq) as H4.
    change (col_name _) with "email" in H4. rewrite Hgemail in H4.
    by apply H4.
  - intros (Hname & Hemail & Hhash & Hfresh & Hleft).
    apply Z.leb_le in Hleft. fold (id_left "users" db) in Hleft.
    unfold exec_insert. change (find_table "users") with (Some users).
    cbv iota beta zeta.
    rewrite (proj2 (supplied_columns_forallb users s) Hcols), Hleft, orb_true_r.
    cbn [andb].
    set (r := build_row now (next_id "users" db) users s).
    replace (not_null_ok users r) with true;
      [replace (unique_ok users (rows_of "users" db) r) with true|].
    + replace (fk_child_ok db users r) with true; [by eauto|].
      unfold fk_child_ok. simpl. by rewrite orb_true_r.
    + symmetry. apply forallb_forall. intros c Hc. apply list_elem_of_In in Hc.
      destruct (users_columns c Hc) as [->|[->|[->|[->|[Hk _]]]]]; try done.
      * change (col_name (primary_key "id")) with "id". unfold r. rewrite Hgid.
        simpl. apply forallb_forall. intros o Ho. apply negb_true_iff.
        apply bool_decide_eq_false. apply next_id_fresh.
        by apply list_elem_of_In.
      * change (col_name _) with "email". unfold r. rewrite Hgemail.
        simpl. rewrite (bool_decide_eq_false_2 _ Hemail). simpl.
        apply forallb_forall. intros o Ho. apply negb_true_iff.
        apply bool_decide_eq_false. apply Hfresh. by apply list_elem_of_In.
      * unfold is_key in Hk. by rewrite Hk.
    + symmetry. apply forallb_forall. intros c Hc. apply list_elem_of_In in Hc.
      destruct (users_columns c Hc) as [->|[->|[->|[->|[_ Hr]]]]].
      * change (col_name (primary_key "id")) with "id". unfold r. by rewrite Hgid.
      * change (col_name _) with "name". unfold r. rewrite Hgname. simpl.
        by rewrite (bool_decide_eq_false_2 _ Hname).
      * change (col_name _) with "email". unfold r. rewrite Hgemail. simpl.
        by rewrite (bool_decide_eq_false_2 _ Hemail).
      * change (col_name _) with "password_hash". unfold r. rewrite Hghash. simpl.
        by rewrite (bool_decide_eq_false_2 _ Hhash).
      * unfold is_required in Hr. by rewrite Hr.
Qed.

(** Ann is registered; a second user with her email is rejected, one
    whose email differs in case is accepted. *)
Lemma user_insert_accepted_iff_witness :
  let user (n e : string) : row :=
    list_to_map [ ("name", VText n); ("email", VText e);
                  ("password_hash", VText "h") ] in
  let db := run (empty_db true) [ (VInt 100, Insert "users" (user "Ann" "a@x.com")) ] in
  ¬ is_Some (exec_insert (VInt 101) "users" (user "Bea" "a@x.com") db)
  ∧ is_Some (exec_insert (VInt 101) "users" (user "Bea" "A@x.com") db).
Proof.
  intros user db.
  assert (∀ n e k, is_Some (user n e !! k) → k ∈ map col_name (tbl_columns users))
    as Hcols.
  { intros n e. apply supplied_columns_forallb. vm_compute. reflexivity. }
  assert (typed_db db = true) as Hty by (vm_compute; reflexivity).
  split.
  - intros H.
    apply (user_insert_accepted_iff (VInt 101) (user "Bea" "a@x.com") db
             Hty (Hcols _ _) eq_refl eq_refl) in H as (_ & _ & _ & Hfresh & _).
    apply (Hfresh (build_row (VInt 100) 1 users (user "Ann" "a@x.com"))).
    + apply (bool_decide_unpack _). vm_compute. exact I.
    + vm_compute. reflexivity.
  - apply (user_insert_accepted_iff (VInt 101) (user "Bea" "A@x.com") db
             Hty (Hcols _ _) eq_refl eq_refl).
    split_and!; try (apply (bool_decide_unpack _); vm_compute; exact I).
    apply Forall_forall. apply (bool_decide_unpack _). vm_compute. exact I.
Defined.

(** *** Values of the declared types *)

Lemma typed_row_spec (tbl : Table) (r : row) :
  typed_row tbl r = true ↔
  ∀ c, c ∈ tbl_columns tbl → typed_value (col_type c) (get (col_name c) r) = true.
Proof.
  unfold typed_row. rewrite forallb_forall. split.
  - intros H c Hc. apply H. by apply list_elem_of_In.
  - intros H c Hc. apply H. by apply list_elem_of_In.
Qed.

Lemma typed_db_spec (db : DB) :
  typed_db db = true ↔
  ∀ tbl r, tbl ∈ schema → r ∈ rows_of (tbl_name tbl) db → typed_row tbl r = true.
Proof.
  unfold typed_db. rewrite forallb_forall. split.
  - intros H tbl r Ht Hr. apply list_elem_of_In in Ht. specialize (H tbl Ht).
    rewrite forallb_forall in H. apply H. by apply list_elem_of_In.
  - intros H tbl Ht. apply forallb_forall. intros r Hr.
    apply H; by apply list_elem_of_In.
Qed.

Lemma typed_assigns_spec (tbl : Table) (a : list (string * value)) :
  typed_assigns tbl a = true ↔
  ∀ c v, (col_name c, v) ∈ a → c ∈ tbl_columns tbl →
         typed_value (col_type c) v = true.
Proof.
  unfold typed_assigns. rewrite forallb_forall. split.
  - intros H c v Hcv Hc. apply list_elem_of_In in Hcv. specialize (H _ Hcv).
    rewrite forallb_forall in H. apply list_elem_of_In in Hc.
    specialize (H c Hc). simpl in H.
    by rewrite bool_decide_eq_true_2 in H by done.
  - intros H [n v] Hcv. apply forallb_forall. intros c Hc. simpl.
    destruct (decide (col_name c = n)) as [<-|Hne].
    + rewrite (H c v); [apply orb_true_r| |]; by apply list_elem_of_In.
    + by rewrite bool_decide_eq_false_2.
Qed.

(** The defaults of the schema are of the types of their columns, and the
    primary key of every table is its [id]. *)
Lemma schema_columns_typed (tbl : Table) (c : Column) :
  tbl ∈ schema → c ∈ tbl_columns tbl →
  match col_default c with
  | DefaultLit v => typed_value (col_type c) v = true
  | DefaultCurrentTimestamp => col_type c = TIMESTAMP
  | NoDefault => True
  end
  ∧ (col_primary_key c = true → c = primary_key "id").
Proof.
  intros Ht Hc. apply schema_tables in Ht as [ -> | [ -> | [ -> | -> ] ] ];
    simpl in Hc;
    repeat (apply elem_of_cons in Hc as [->|Hc]; [by split|]);
    by apply elem_of_nil in Hc.
Qed.

Lemma max_int_nonneg (c : string) (rows : list row) : 0 ≤ max_int c rows.
Proof.
  induction rows as [|r rows IH]; simpl; [done|]. destruct (get c r); lia.
Qed.

Lemma next_id_int64 (t : string) (db : DB) :
  id_left t db = true → is_int64 (next_id t db) = true.
Proof.
  unfold id_left, is_int64. intros Hle. rewrite Hle, andb_true_r.
  apply Z.leb_le. unfold next_id.
  pose proof (max_int_nonneg "id" (rows_of t db)). unfold max_rowid. lia.
Qed.

Lemma fill_typed (now : value) (n : Z) (tbl : Table) (s : row) (c : Column) :
  tbl ∈ schema → c ∈ tbl_columns tbl →
  is_timestamp now = true →
  typed_value (col_type c) (get (col_name c) s) = true →
  (get "id" s = VNull → is_int64 n = true) →
  typed_value (col_type c) (fill now n s c) = true.
Proof.
  intros Ht Hc Hnow Hs Hn.
  destruct (schema_columns_typed tbl c Ht Hc) as [Hd Hpk].
  apply andb_prop in Hnow as [Hnow _].
  assert (col_primary_key c = true → default VNull (s !! col_name c) = VNull →
          typed_value (col_type c) (VInt n) = true) as Hauto.
  { intros Hp Hnull. specialize (Hpk Hp). subst c. simpl. by apply Hn. }
  unfold fill. unfold get in Hs.
  destruct (s !! col_name c) as [v|] eqn:Hv; simpl in Hs.
  - destruct v; try done.
    destruct (col_primary_key c) eqn:Hp; [by apply Hauto|done].
  - destruct (col_default c); [|done|by rewrite Hd].
    destruct (col_primary_key c) eqn:Hp; [by apply Hauto|done].
Qed.

Lemma get_assign_cases (c : string) (a : list (string * value)) (r : row) :
  get c (assign a r) = get c r ∨ ∃ v, (c, v) ∈ a ∧ get c (assign a r) = v.
Proof.
  unfold assign. revert r. induction a as [|[c' v] a IH]; intros r; [by left|].
  simpl. destruct (IH (<[c' := v]> r)) as [H|(w & Hw & H)].
  - rewrite H. destruct (decide (c = c')) as [->|Hne].
    + right. exists v. split; [by left|]. apply get_insert_eq.
    + left. by apply get_insert_ne.
  - right. exists w. split; [by right|done].
Qed.

Lemma update_row_typed (t : string) (tbl : Table) (a : list (string * value))
  (i : nat) (db db' : DB) :
  find_table t = Some tbl → typed_assigns tbl a = true → typed_db db = true →
  update_row t tbl a i db = Some db' → typed_db db' = true.
Proof.
  intros Hft Ha Hdb Hup. unfold update_row in Hup.
  destruct (rows_of t db !! i) as [old|] eqn:Hold; [|by inversion Hup; subst].
  destruct (_ && _); [|done]. inversion Hup; subst db'; clear Hup.
  apply find_table_Some in Hft as [Hin <-].
  rewrite typed_db_spec in *. intros tbl' r Ht' Hr.
  destruct (decide (tbl_name tbl = tbl_name tbl')) as [Heq|Hne];
    [|rewrite rows_of_set_rows_ne in Hr by done; by apply Hdb].
  assert (tbl = tbl') as <- by by apply schema_name_inj.
  rewrite rows_of_set_rows in Hr.
  apply elem_of_list_insert_inv in Hr as [->|Hr]; [|by apply Hdb].
  apply typed_row_spec. intros c Hc.
  destruct (get_assign_cases (col_name c) a old) as [->|(v & Hv & ->)].
  - assert (typed_row tbl old = true) as Hold'.
    { apply Hdb; [done|]. apply list_elem_of_lookup. eauto. }
    by apply (proj1 (typed_row_spec tbl old)).
  - by apply (proj1 (typed_assigns_spec tbl a) Ha c v).
Qed.

Lemma trigger_assigns_typed (now : value) :
  is_timestamp now = true → typed_assigns users [("updated_at", now)] = true.
Proof.
  intros Hnow. apply andb_prop in Hnow as [Hnow _].
  unfold typed_assigns. cbn. by rewrite Hnow.
Qed.

(** What the row writes of an UPDATE and of its trigger keep, the UPDATE
    keeps. *)
Lemma exec_update_inv_rows (I : DB → Prop) (now : value) (t : string)
  (a : list (string * value)) :
  (∀ tbl i db db', find_table t = Some tbl → I db →
     update_row t tbl a i db = Some db' → I db') →
  (∀ i db db', I db →
     update_row "users" users [("updated_at", now)] i db = Some db' → I db') →
  ∀ P db db', I db → exec_update now t P a db = Some db' → I db'.
Proof.
  intros Hrow Htrg P db db' HI Hex.
  apply exec_update_Some in Hex as (tbl & n & Hft & _ & _ & Hex).
  revert Hex. apply foldl_accepted_inv; [done| |done].
  intros db0 i db1 HI0 Hstep. rewrite update_and_fire_eq in Hstep.
  destruct (rows_of t db0 !! i) as [old|]; [|by inversion Hstep; subst].
  destruct (update_row t tbl a i db0) as [db2|] eqn:Hup; [|done].
  pose proof (Hrow tbl i db0 db2 Hft HI0 Hup) as HI2.
  unfold triggers in Hstep. cbn [List.filter] in Hstep.
  destruct (bool_decide _); cbn [foldl] in Hstep; [|by inversion Hstep; subst].
  rewrite run_update_user_timestamp in Hstep. revert Hstep.
  apply foldl_accepted_inv; [done| |done].
  intros db3 j db4 HI3 Hs. by eapply Htrg.
Qed.

(** A statement with values of the declared types leaves the database with
    values of the declared types. *)
Lemma exec_typed (s : value * Stmt) (db db' : DB) :
  typed_stmt s = true → typed_db db = true →
  exec s.1 s.2 db = Some db' → typed_db db' = true.
Proof.
  destruct s as [now s]. unfold typed_stmt. cbn [fst snd].
  intros Hs Hdb Hex. apply andb_prop in Hs as [Hnow Hs].
  destruct s as [t sup|t P|t P a]; simpl in Hex.
  - destruct (exec_insert_Some _ _ _ _ _ Hex)
      as (tbl & Hft & _ & _ & _ & Hrows & Hother & _ & _ & Hleft).
    rewrite Hft in Hs. apply find_table_Some in Hft as [Hin <-].
    rewrite typed_db_spec in *. intros tbl' r Ht' Hr.
    destruct (decide (tbl_name tbl' = tbl_name tbl)) as [Heq|Hne];
      [|rewrite (proj1 (Hother _ Hne)) in Hr; by apply Hdb].
    assert (tbl' = tbl) as -> by by apply schema_name_inj.
    rewrite Hrows in Hr. apply elem_of_app in Hr as [Hr|Hr]; [by apply Hdb|].
    apply list_elem_of_singleton in Hr. subst r.
    apply typed_row_spec. intros c Hc. rewrite (get_build_row _ _ _ _ _ Hin Hc).
    apply (fill_typed now _ tbl sup c Hin Hc Hnow).
    + by apply (proj1 (typed_row_spec tbl sup)).
    + intros Hid. apply next_id_int64. by apply Hleft.
  - destruct (exec_delete_filters t P db db' Hex) as (_ & _ & Hf).
    rewrite typed_db_spec in *. intros tbl' r Ht' Hr.
    destruct (Hf (tbl_name tbl')) as [f Hrows]. rewrite Hrows in Hr.
    apply elem_of_List_filter in Hr as [Hr _]. by apply Hdb.
  - destruct (find_table t) as [tbl|] eqn:Hft; [|done].
    revert Hex.
    apply (exec_update_inv_rows (fun d => typed_db d = true)); [| |done].
    + intros tbl0 i d d' Hft0 Hd. rewrite Hft in Hft0. inversion Hft0; subst tbl0.
      by apply update_row_typed.
    + intros i d d' Hd. apply update_row_typed; [done| |done].
      by apply trigger_assigns_typed.
Qed.

(** What every accepted statement with values of the declared types keeps
    holds after every run of such statements. *)
Lemma run_typed_inv (I : DB → Prop) :
  (∀ s db db', typed_stmt s = true → I db → exec s.1 s.2 db = Some db' → I db') →
  ∀ ss db, Forall (fun s => typed_stmt s = true) ss → I db → I (run db ss).
Proof.
  intros Hstep ss. unfold run.
  induction ss as [|s ss IH]; intros db Hss HI; [done|].
  apply Forall_cons in Hss as [Hs Hss]. simpl. apply IH; [done|].
  unfold apply_stmt.
  destruct (exec s.1 s.2 db) as [db'|] eqn:Hex; simpl; [by eapply Hstep|done].
Qed.

Lemma run_typed (fk : bool) (ss : list (value * Stmt)) :
  Forall (fun s => typed_stmt s = true) ss →
  typed_db (run (empty_db fk) ss) = true.
Proof.
  intros Hss. apply (run_typed_inv (fun d => typed_db d = true)); [|done|done].
  intros s db db' Hs Hdb. by apply exec_typed.
Qed.

(** X1.  After every run, from the empty database, of statements with
    values of the declared types, whether foreign keys are enforced or not,
    every stored value is of the declared type of its column and no value
    of a column declared UNIQUE or PRIMARY KEY occurs twice in its table:
    no two users share an email, no two session tokens a [token_jti], no
    two rows of a table an [id]. *)
Theorem keys_stay_distinct (fk : bool) (ss : list (value * Stmt)) :
  Forall (fun s => typed_stmt s = true) ss →
  typed_db (run (empty_db fk) ss) = true
  ∧ NoDup (map (get "email") (rows_of "users" (run (empty_db fk) ss)))
  ∧ NoDup (map (get "token_jti")
             (rows_of "session_tokens" (run (empty_db fk) ss)))
  ∧ ∀ tbl, tbl ∈ schema →
      NoDup (map (get "id") (rows_of (tbl_name tbl) (run (empty_db fk) ss))).
Proof.
  intros Hss. destruct (run_stored_ok fk ss) as [_ Hkeys]. split_and!.
  - by apply run_typed.
  - apply (Hkeys users (mkColumn "email" TEXT false true true NoDefault));
      [apply schema_tables; auto|simpl; do 2 right; by left|done].
  - apply (Hkeys session_tokens (mkColumn "token_jti" TEXT false true true NoDefault));
      [apply schema_tables; auto|simpl; do 2 right; by left|done].
  - intros tbl Ht. apply (Hkeys tbl (primary_key "id") Ht); [|done].
    apply schema_tables in Ht as [ -> | [ -> | [ -> | -> ] ] ]; by left.
Qed.

(** Two registrations with the same email: the second is rejected and one
    user is stored. *)
Lemma keys_stay_distinct_witness :
  let user (n e : string) : row :=
    list_to_map [ ("name", VText n); ("email", VText e);
                  ("password_hash", VText "h") ] in
  let ss := [ (VText "2026-01-01 10:00:00", Insert "users" (user "Ann" "a@x.com"));
              (VText "2026-01-01 10:00:01", Insert "users" (user "Bea" "a@x.com")) ] in
  let db := run (empty_db true) ss in
  map (get "name") (rows_of "users" db) = [ VText "Ann" ]
  ∧ typed_db db = true
  ∧ NoDup (map (get "id") (rows_of "users" db)).
Proof.
  intros user ss db. split; [vm_compute; reflexivity|].
  destruct (keys_stay_distinct true ss) as (Hty & _ & _ & H).
  - apply (bool_decide_unpack _). vm_compute. exact I.
  - split; [exact Hty|]. apply (H users). by left.
Defined.

(** *** AUTOINCREMENT *)

Lemma exec_seq_mono (a : Z) (t : string) (now : value) (s : Stmt) (db db' : DB) :
  a ≤ seq_of t db → exec now s db = Some db' → a ≤ seq_of t db'.
Proof.
  intros Ha Hex. destruct s as [t0 r0|t0 P|t0 P asg]; simpl in Hex.
  - destruct (exec_insert_Some _ _ _ _ _ Hex) as (tbl & _ & _ & _ & _ & _ & Ho & Hs & _).
    destruct (decide (t = t0)) as [->|Hne]; [rewrite Hs; lia|].
    by rewrite (proj2 (Ho t Hne)).
  - destruct (exec_delete_filters _ _ _ _ Hex) as (_ & Hs & _).
    unfold seq_of. by rewrite Hs.
  - revert Hex. apply (exec_update_inv (fun d => a ≤ seq_of t d)); [|done].
    intros t1 tbl a1 i d d' _ Hd Hup. unfold update_row in Hup.
    destruct (rows_of t1 d !! i); [|by inversion Hup; subst].
    destruct (_ && _); [|done]. by inversion Hup; subst.
Qed.

(** X4.  AUTOINCREMENT never hands out an id twice.  On a database of
    values of the declared types and for statements with such values: when
    two INSERTs into the same table leave the id to the table, the second
    receives a greater id than the first, whatever INSERT, DELETE and
    UPDATE statements on the tables of the schema ran in between: deleting
    the first row, or all rows, does not free its id. *)
Theorem autoincrement_ids_are_not_reused (now now' : value) (t : string)
  (s s' : row) (db db1 db3 : DB) (ss : list (value * Stmt)) :
  typed_db db = true →
  typed_stmt (now, Insert t s) = true → typed_stmt (now', Insert t s') = true →
  Forall (fun s => typed_stmt s = true) ss →
  get "id" s = VNull → get "id" s' = VNull →
  exec_insert now t s db = Some db1 →
  exec_insert now' t s' (run db1 ss) = Some db3 →
  ∃ r r' a b,
    last (rows_of t db1) = Some r ∧ get "id" r = VInt a
    ∧ last (rows_of t db3) = Some r' ∧ get "id" r' = VInt b
    ∧ a < b.
Proof.
  intros _ _ _ _ Hs Hs' H1 H3.
  destruct (exec_insert_Some _ _ _ _ _ H1)
    as (tbl & Hft & _ & _ & _ & Hrows1 & _ & Hseq1 & _).
  destruct (exec_insert_Some _ _ _ _ _ H3)
    as (tbl' & Hft' & _ & _ & _ & Hrows3 & _ & _ & _).
  rewrite Hft in Hft'. inversion Hft'; subst tbl'; clear Hft'.
  apply find_table_Some in Hft as [Hin _].
  assert (∀ nw n sr, get "id" sr = VNull →
                     get "id" (build_row nw n tbl sr) = VInt n) as Hgid.
  { intros nw n sr Hsr.
    etrans; [apply (get_build_row nw n tbl sr (primary_key "id") Hin)|].
    - by apply schema_has_id.
    - by apply fill_auto_id. }
  eexists _, _, (next_id t db), (next_id t (run db1 ss)).
  split_and!.
  - rewrite Hrows1. apply last_snoc.
  - by apply Hgid.
  - rewrite Hrows3. apply last_snoc.
  - by apply Hgid.
  - rewrite (Hgid _ _ _ Hs) in Hseq1.
    assert (next_id t db ≤ seq_of t (run db1 ss)) as Hle.
    { apply (run_inv (fun d => next_id t db ≤ seq_of t d)).
      - intros nw st d d'. apply exec_seq_mono.
      - rewrite Hseq1. lia. }
    unfold next_id at 2. fold (seq_of t (run db1 ss)). lia.
Qed.

(** Ann registers, her account is deleted, Bea registers: Bea is not given
    Ann's id. *)
Lemma autoincrement_ids_are_not_reused_witness :
  let user (n e : string) : row :=
    list_to_map [ ("name", VText n); ("email", VText e);
                  ("password_hash", VText "h") ] in
  let db1 := default (empty_db true)
               (exec_insert (VInt 100) "users" (user "Ann" "a@x.com") (empty_db true)) in
  let ss := [ (VInt 101, Delete "users" (col_is "id" (VInt 1))) ] in
  let db3 := default db1
               (exec_insert (VInt 102) "users" (user "Bea" "b@x.com") (run db1 ss)) in
  rows_of "users" (run db1 ss) = []
  ∧ ∃ r r' a b,
      last (rows_of "users" db1) = Some r ∧ get "id" r = VInt a
      ∧ last (rows_of "users" db3) = Some r' ∧ get "id" r' = VInt b
      ∧ a < b.
Proof.
  intros user db1 ss db3. split; [vm_compute; reflexivity|].
  apply (autoincrement_ids_are_not_reused (VInt 100) (VInt 102) "users"
           (user "Ann" "a@x.com") (user "Bea" "b@x.com") (empty_db true) db1 db3 ss).
  - reflexivity.
  - reflexivity.
  - reflexivity.
  - apply (bool_decide_unpack _). vm_compute. exact I.
  - reflexivity.
  - reflexivity.
  - vm_compute. reflexivity.
  - vm_compute. reflexivity.
Defined.

(** *** Foreign keys as rejections *)

(** X5.  With foreign keys enforced, on a database whose values are of the
    declared types, an INSERT into [liked_songs], [password_reset_codes] or
    [session_tokens] whose [user_id] is an integer, or NULL, and the id of
    no stored user is rejected, whatever else it supplies. *)
Theorem dependent_insert_needs_user (now : value) (t : string) (s : row) (db : DB) :
  foreign_keys db = true → typed_db db = true → dependent t →
  typed_value INTEGER (get "user_id" s) = true →
  (∀ p, p ∈ rows_of "users" db → get "id" p ≠ get "user_id" s) →
  exec_insert now t s db = None.
Proof.
  intros Hfk _ Hdep _ Hnone.
  destruct (exec_insert now t s db) as [db'|] eqn:Hins; [exfalso|done].
  destruct (exec_insert_Some _ _ _ _ _ Hins) as (tbl & Hft & Hnn & _ & Hchild & _).
  destruct (find_table_cases t tbl Hft) as [[-> _]|(_ & _ & Hne & Hfks)].
  { by destruct Hdep as [?|[?|?]]. }
  apply find_table_Some in Hft as [Hin <-].
  assert (integer_not_null "user_id" ∈ tbl_columns tbl) as Hc.
  { apply schema_tables in Hin as [ -> | [ -> | [ -> | -> ] ] ];
      [done|right; by left..]. }
  assert (get "user_id" (build_row now (next_id (tbl_name tbl) db) tbl s)
          = get "user_id" s) as Hget.
  { etrans; [apply (get_build_row _ _ tbl s (integer_not_null "user_id") Hin Hc)|].
    by apply fill_plain. }
  pose proof (not_null_ok_column tbl _ (integer_not_null "user_id") Hc eq_refl Hnn) as Hu.
  change (col_name _) with "user_id" in Hu.
  destruct (fk_child_ok_parent db tbl _ Hfk Hfks Hchild Hu) as (p & Hp & Hid).
  apply (Hnone p Hp). by rewrite Hid, Hget.
Qed.

Lemma dependent_insert_needs_user_witness :
  let ann : row :=
    list_to_map [ ("name", VText "Ann"); ("email", VText "a@x.com");
                  ("password_hash", VText "h") ] in
  let db := run (empty_db true) [ (VInt 100, Insert "users" ann) ] in
  let code : row :=
    list_to_map [ ("user_id", VInt 7); ("reset_code", VText "123456");
                  ("expires_at", VInt 700) ] in
  exec_insert (VInt 101) "password_reset_codes" code db = None.
Proof.
  intros ann db code.
  apply (dependent_insert_needs_user (VInt 101) "password_reset_codes" code db).
  - reflexivity.
  - vm_compute. reflexivity.
  - right. by left.
  - reflexivity.
  - apply Forall_forall. apply (bool_decide_unpack _). vm_compute. exact I.
Defined.

Lemma run_enforced (ss : list (value * Stmt)) : enforced (run (empty_db true) ss).
Proof. apply (run_inv enforced); [apply exec_enforced|apply empty_db_enforced]. Qed.

Lemma children_on_pos (db : DB) (tbl : Table) (k : value) (c : row) :
  c ∈ rows_of (tbl_name tbl) db → k ≠ VNull → get "user_id" c = k →
  1 ≤ children_on db (tbl, user_fk) k.
Proof.
  intros Hc Hk Hid. unfold children_on. cbn [fst snd user_fk fk_column].
  assert (c ∈ List.filter (col_is "user_id" k) (rows_of (tbl_name tbl) db)) as Hin.
  { apply elem_of_List_filter. split; [done|]. unfold col_is.
    rewrite (bool_decide_eq_false_2 _ Hk). by apply bool_decide_eq_true. }
  destruct (List.filter _ _); [by apply elem_of_nil in Hin|]. simpl. lia.
Qed.

Lemma children_on_none (db : DB) (tbl : Table) (k : value) :
  (∀ c, c ∈ rows_of (tbl_name tbl) db → get "user_id" c ≠ k) →
  children_on db (tbl, user_fk) k = 0.
Proof.
  intros H. unfold children_on. cbn [fst snd user_fk fk_column].
  rewrite LedgerFacts.filter_none; [done|].
  intros c Hc. unfold col_is. rewrite (bool_decide_eq_false_2 _ (H c Hc)).
  apply andb_false_r.
Qed.

(** X6.  On a connection that enforces foreign keys, on a database of
    values of the declared types whose dependent rows all have a user and
    whose users have distinct ids,
    [UPDATE users SET id = k' WHERE id = k] with another id [k'] is
    rejected when a liked song, a reset code or a session token holds [k]:
    the schema declares no ON UPDATE action, so the rows that held [k] are
    counted as violations at the end of the statement. *)
Theorem referenced_user_id_is_fixed (now : value) (k k' : Z) (t : string)
  (c : row) (db : DB) :
  enforced db → pk_unique "users" db → typed_db db = true →
  is_int64 k' = true →
  dependent t → c ∈ rows_of t db → get "user_id" c = VInt k →
  k' ≠ k →
  exec_update now "users" (col_is "id" (VInt k)) [("id", VInt k')] db = None.
Proof.
  intros [Hinv Hfk] Hpk _ _ Hdep Hc Hcid Hne.
  rewrite no_orphans_alt in Hinv.
  destruct (Hinv t c Hdep Hc ltac:(by rewrite Hcid)) as (u & Hu & Hid).
  rewrite Hcid in Hid. apply list_elem_of_lookup in Hu as [i Hi].
  unfold exec_update. change (find_table "users") with (Some users). cbv iota.
  replace (forallb _ [("id", VInt k')]) with true by done.
  unfold indices_where.
  rewrite (indices_from_unique _ "id" (VInt k) (rows_of "users" db) i 0 u);
    [|by intros r; unfold col_is; rewrite bool_decide_eq_false_2|done..].
  cbn [foldl Nat.add]. unfold update_counted. cbn [mbind option_bind fst snd].
  destruct (update_and_fire now "users" users [("id", VInt k')] (Some db) i)
    as [db1|] eqn:Hstep; [|done].
  cbn [mbind option_bind fst snd]. rewrite Hfk.
  destruct (update_and_fire_users_ids now _ db db1 i u Hi Hstep)
    as (_ & _ & _ & _ & Hfresh).
  destruct (fk_row_users [("id", VInt k')] i db 0 u Hi) as [Hge _].
  specialize (Hge ltac:(by left)).
  assert (get "id" (assign [("id", VInt k')] u) = VInt k') as Hnew
    by (unfold assign; simpl; apply get_insert_eq).
  rewrite Hnew, Hid in Hge. rewrite Hnew in Hfresh.
  assert (∀ tbl, dependent (tbl_name tbl) →
                 children_on db (tbl, user_fk) (VInt k') = 0) as Hnone.
  { intros tbl Hd. apply children_on_none. intros c' Hc' Hk'.
    destruct (Hinv _ c' Hd Hc' ltac:(by rewrite Hk')) as (p & Hp & Hpid).
    rewrite Hk' in Hpid.
    destruct (proj2 (elem_of_list_insert_delete (rows_of "users" db) i u u p Hi))
      as [Hcases _].
    destruct (Hcases Hp) as [->|Hp']; [congruence|].
    by apply (Hfresh p Hp'). }
  rewrite (Hnone liked_songs), (Hnone password_reset_codes),
    (Hnone session_tokens) in Hge by (unfold dependent; simpl; auto).
  pose proof (orphans_of_nonneg db (liked_songs, user_fk)).
  assert (0 ≤ children_on db (liked_songs, user_fk) (VInt k)
          ∧ 0 ≤ children_on db (password_reset_codes, user_fk) (VInt k)
          ∧ 0 ≤ children_on db (session_tokens, user_fk) (VInt k))
    as (? & ? & ?) by (unfold children_on; lia).
  assert (1 ≤ children_on db (liked_songs, user_fk) (VInt k)
              + children_on db (password_reset_codes, user_fk) (VInt k)
              + children_on db (session_tokens, user_fk) (VInt k)) as Hpos.
  { destruct Hdep as [ -> | [ -> | -> ] ].
    - pose proof (children_on_pos db liked_songs (VInt k) c Hc ltac:(done) Hcid).
      lia.
    - pose proof (children_on_pos db password_reset_codes (VInt k) c Hc
                    ltac:(done) Hcid). lia.
    - pose proof (children_on_pos db session_tokens (VInt k) c Hc
                    ltac:(done) Hcid). lia. }
  replace (0 <? fk_row "users" users [("id", VInt k')] i db 0) with true; [done|].
  symmetry. apply Z.ltb_lt. lia.
Qed.

Lemma referenced_user_id_is_fixed_witness :
  let ann : row :=
    list_to_map [ ("name", VText "Ann"); ("email", VText "a@x.com");
                  ("password_hash", VText "h") ] in
  let song : row :=
    list_to_map [ ("user_id", VInt 1); ("song_title", VText "Happy");
                  ("artist", VText "Pharrell Williams") ] in
  let db := run (empty_db true)
              [ (VInt 100, Insert "users" ann);
                (VInt 101, Insert "liked_songs" song) ] in
  exec_update (VInt 102) "users" (col_is "id" (VInt 1)) [("id", VInt 9)] db = None.
Proof.
  intros ann song db.
  apply (referenced_user_id_is_fixed (VInt 102) 1 9 "liked_songs"
           (build_row (VInt 101) 1 liked_songs song) db).
  - apply run_enforced.
  - apply (bool_decide_unpack _). vm_compute. exact I.
  - vm_compute. reflexivity.
  - reflexivity.
  - by left.
  - apply (bool_decide_unpack _). vm_compute. exact I.
  - vm_compute. reflexivity.
  - lia.
Defined.

(** *** The view [user_statistics] *)

Lemma statistics_fields (a b c d e f : value) :
  let v : row :=
    list_to_map [ ("id", a); ("name", b); ("email", c);
                  ("total_liked_songs", d); ("emotions_explored", e);
                  ("last_activity", f) ] in
  get "id" v = a ∧ get "name" v = b ∧ get "email" v = c
  ∧ get "total_liked_songs" v = d ∧ get "emotions_explored" v = e
  ∧ get "last_activity" v = f.
Proof. vm_compute. by split_and!. Qed.

Lemma group_heads_distinct (seen : list value) (us : list row) :
  NoDup (map (get "id") us) → (∀ u, u ∈ us → get "id" u ∉ seen) →
  group_heads seen us = us.
Proof.
  revert seen. induction us as [|u us IH]; intros seen Hnd Hseen; simpl; [done|].
  simpl in Hnd. apply NoDup_cons in Hnd as [Hnotin Hnd].
  rewrite bool_decide_eq_false_2 by (apply Hseen; by left).
  f_equal. apply IH; [done|]. intros v Hv [Heq|Hin]%elem_of_cons.
  - apply Hnotin. rewrite <- Heq.
    apply list_elem_of_In, in_map. by apply list_elem_of_In.
  - apply (Hseen v); [by right|done].
Qed.

Lemma filter_same_key {A B} `{EqDecision B} (f : A → B) (l : list A) (x : A) :
  NoDup (map f l) → x ∈ l →
  List.filter (fun y => bool_decide (f y = f x)) l = [x].
Proof.
  intros Hnd Hin. induction l as [|a l IH]; [by apply elem_of_nil in Hin|].
  simpl in Hnd. apply NoDup_cons in Hnd as [Hnotin Hnd]. simpl.
  apply elem_of_cons in Hin as [->|Hin].
  - rewrite bool_decide_eq_true_2 by done. f_equal.
    apply LedgerFacts.filter_none. intros b Hb. apply bool_decide_eq_false.
    intros Heq. apply Hnotin. rewrite <- Heq.
    apply list_elem_of_In, in_map. by apply list_elem_of_In.
  - rewrite bool_decide_eq_false_2; [by apply IH|].
    intros Heq. apply Hnotin. rewrite Heq.
    apply list_elem_of_In, in_map. by apply list_elem_of_In.
Qed.

Lemma remove_dups_length_le {A} `{EqDecision A} (l : list A) :
  (length (remove_dups l) ≤ length l)%nat.
Proof.
  induction l as [|a l IH]; simpl; [done|].
  destruct (decide_rel elem_of a l); simpl; lia.
Qed.

Lemma remove_dups_NoDup {A} `{EqDecision A} (l : list A) :
  NoDup l → remove_dups l = l.
Proof.
  induction l as [|a l IH]; simpl; [done|].
  intros [Hnotin Hnd]%NoDup_cons.
  destruct (decide_rel elem_of a l); [done|]. by rewrite IH.
Qed.

Lemma List_filter_length_le {A} (f : A → bool) (l : list A) :
  (length (List.filter f l) ≤ length l)%nat.
Proof. induction l as [|a l IH]; simpl; [done|]. destruct (f a); simpl; lia. Qed.

Lemma List_filter_keep {A} (f : A → bool) (l : list A) :
  (∀ x, x ∈ l → f x = true) → List.filter f l = l.
Proof.
  induction l as [|a l IH]; intros H; simpl; [done|].
  rewrite (H a) by (by left). f_equal. apply IH. intros x Hx. apply H. by right.
Qed.

Lemma count_distinct_le (vs : list value) :
  0 ≤ count_distinct vs ≤ Z.of_nat (length vs).
Proof.
  unfold count_distinct. split; [lia|]. apply inj_le.
  etrans; [apply remove_dups_length_le|apply List_filter_length_le].
Qed.

Lemma count_distinct_keys (vs : list value) :
  NoDup vs → VNull ∉ vs → count_distinct vs = Z.of_nat (length vs).
Proof.
  intros Hnd Hnn. unfold count_distinct. rewrite List_filter_keep.
  - by rewrite remove_dups_NoDup.
  - intros x Hx. apply negb_true_iff, bool_decide_eq_false. by intros ->.
Qed.

Lemma sql_max_among (vs : list value) :
  sql_max vs = VNull ∨ sql_max vs ∈ vs.
Proof.
  induction vs as [|v vs IH]; simpl; [by left|].
  case_bool_decide as Hv; [destruct IH; [by left|right; by right]|].
  destruct (value_leb v (sql_max vs)).
  - destruct IH; [by left|right; by right].
  - right. by left.
Qed.

Lemma statistics_row_fields (db : DB) (u : row) :
  stored_ok db → u ∈ rows_of "users" db →
  let ls := joined u db in
  get "id" (statistics_row db u) = get "id" u
  ∧ get "name" (statistics_row db u) = get "name" u
  ∧ get "email" (statistics_row db u) = get "email" u
  ∧ get "total_liked_songs" (statistics_row db u)
    = VInt (count_distinct (map (get "id") ls))
  ∧ get "emotions_explored" (statistics_row db u)
    = VInt (count_distinct (map (get "emotion_detected") ls))
  ∧ get "last_activity" (statistics_row db u) = sql_max (map (get "liked_at") ls).
Proof.
  intros [_ Hkeys] Hu ls. unfold statistics_row.
  rewrite (filter_same_key (get "id") (rows_of "users" db) u); [|..|done].
  - simpl. rewrite app_nil_r. fold ls. apply statistics_fields.
  - apply (Hkeys users (primary_key "id")); [by left|by left|done].
Qed.

Lemma joined_mine (db : DB) (u : row) :
  get "id" u ≠ VNull →
  let mine := List.filter (fun ls => bool_decide (get "user_id" ls = get "id" u))
                (rows_of "liked_songs" db) in
  (mine = [] ∧ joined u db = [∅]) ∨ (mine ≠ [] ∧ joined u db = mine).
Proof.
  intros Hnn mine. unfold joined.
  rewrite (List.filter_ext _ (fun ls => bool_decide (get "user_id" ls = get "id" u))).
  - fold mine. destruct mine; [by left|by right].
  - intros a. by rewrite (bool_decide_eq_false_2 _ Hnn).
Qed.

(** X7.  On a database whose stored rows satisfy the declared NOT NULL and
    key constraints, the view [user_statistics] has exactly one row per user,
    with the user's id, name and email.  [total_liked_songs]
    is the number of rows of [liked_songs] with that user's id,
    [emotions_explored] lies between 0 and that number, and
    [last_activity] is NULL for a user without liked songs and otherwise
    NULL or the [liked_at] of one of the user's songs. *)
Theorem user_statistics_counts (db : DB) :
  stored_ok db →
  map (get "id") (user_statistics db) ≡ₚ map (get "id") (rows_of "users" db)
  ∧ ∀ u, u ∈ rows_of "users" db →
      let mine := List.filter (fun ls => bool_decide (get "user_id" ls = get "id" u))
                    (rows_of "liked_songs" db) in
      statistics_row db u ∈ user_statistics db
      ∧ get "name" (statistics_row db u) = get "name" u
      ∧ get "email" (statistics_row db u) = get "email" u
      ∧ get "total_liked_songs" (statistics_row db u) = VInt (Z.of_nat (length mine))
      ∧ (∃ e, get "emotions_explored" (statistics_row db u) = VInt e
              ∧ 0 ≤ e ≤ Z.of_nat (length mine))
      ∧ (mine = [] → get "last_activity" (statistics_row db u) = VNull)
      ∧ (get "last_activity" (statistics_row db u) = VNull
         ∨ ∃ ls, ls ∈ mine
                 ∧ get "last_activity" (statistics_row db u) = get "liked_at" ls).
Proof.
  intros Hok. pose proof Hok as [Hreq Hkeys].
  assert (group_heads [] (rows_of "users" db) = rows_of "users" db) as Hheads.
  { apply group_heads_distinct; [|intros ? _; apply not_elem_of_nil].
    apply (Hkeys users (primary_key "id")); [by left|by left|done]. }
  unfold user_statistics. rewrite Hheads. split.
  - apply reflexive_eq.
    rewrite map_map. apply map_ext_in. intros u Hu.
    apply list_elem_of_In in Hu.
    by destruct (statistics_row_fields db u Hok Hu) as (-> & _).
  - intros u Hu. set (mine := List.filter _ (rows_of "liked_songs" db)).
    destruct (statistics_row_fields db u Hok Hu) as (_ & Hn & He & Ht & Hem & Hl).
    assert (get "id" u ≠ VNull) as Hnn.
    { apply (not_null_ok_column users u (primary_key "id")); [by left|done|].
      apply (Hreq users); [by left|done]. }
    assert (NoDup (map (get "id") mine) ∧ VNull ∉ map (get "id") mine) as [Hnd Hids].
    { split.
      - apply NoDup_map_filter.
        apply (Hkeys liked_songs (primary_key "id"));
          [right; by left|by left|done].
      - intros Hin. apply list_elem_of_In, in_map_iff in Hin as (ls & Hls & Hin).
        apply filter_In in Hin as [Hin _]. apply list_elem_of_In in Hin.
        apply (not_null_ok_column liked_songs ls (primary_key "id"));
          [by left|done| |done].
        apply (Hreq liked_songs); [right; by left|done]. }
    pose proof (joined_mine db u Hnn) as Hj. cbv zeta in Hj. fold mine in Hj.
    split_and!; [|done|done|..].
    + apply list_elem_of_In, in_map. by apply list_elem_of_In.
    + rewrite Ht. f_equal. destruct Hj as [[Hm ->]|[_ ->]].
      * by rewrite Hm.
      * rewrite count_distinct_keys by done. by rewrite length_map.
    + eexists. split; [exact Hem|]. destruct Hj as [[Hm ->]|[_ ->]].
      * by rewrite Hm.
      * pose proof (count_distinct_le (map (get "emotion_detected") mine)) as H.
        by rewrite length_map in H.
    + intros Hm. rewrite Hl. by destruct Hj as [[_ ->]|[Hne _]].
    + rewrite Hl. destruct Hj as [[_ ->]|[_ ->]]; [by left|].
      destruct (sql_max_among (map (get "liked_at") mine)) as [?|Hin]; [by left|].
      right. apply list_elem_of_In, in_map_iff in Hin as (ls & Hls & Hin).
      exists ls. split; [by apply list_elem_of_In|done].
Qed.

(** Ann likes two songs, both detected as happy, and Bob none: the view
    has Ann's row with 2 songs and 1 emotion, then Bob's with 0 and 0 and
    no last activity. *)
Lemma user_statistics_counts_witness :
  let ann : row :=
    list_to_map [ ("name", VText "Ann"); ("email", VText "a@x.com");
                  ("password_hash", VText "h") ] in
  let bob : row :=
    list_to_map [ ("name", VText "Bob"); ("email", VText "b@x.com");
                  ("password_hash", VText "h") ] in
  let song (title : string) : row :=
    list_to_map [ ("user_id", VInt 1); ("song_title", VText title);
                  ("artist", VText "Queen"); ("emotion_detected", VText "happy") ] in
  let db := run (empty_db true)
              [ (VInt 100, Insert "users" ann); (VInt 101, Insert "users" bob);
                (VInt 102, Insert "liked_songs" (song "Jazz"));
                (VInt 103, Insert "liked_songs" (song "Innuendo")) ] in
  stored_ok db
  ∧ map (get "id") (user_statistics db) ≡ₚ map (get "id") (rows_of "users" db)
  ∧ map (get "total_liked_songs") (user_statistics db) = [VInt 2; VInt 0]
  ∧ map (get "emotions_explored") (user_statistics db) = [VInt 1; VInt 0]
  ∧ map (get "last_activity") (user_statistics db) = [VInt 103; VNull].
Proof.
  intros ann bob song db.
  assert (stored_ok db) as Hok by apply run_stored_ok.
  split_and!; [exact Hok| |vm_compute; reflexivity..].
  exact (proj1 (user_statistics_counts db Hok)).
Defined.

(** *** Referential integrity over runs *)

Lemma dependent_user_id (t : string) (db : DB) (r : row) :
  stored_ok db → no_orphans db → dependent t → r ∈ rows_of t db →
  get "user_id" r ≠ VNull
  ∧ ∃ u, u ∈ rows_of "users" db ∧ get "id" u = get "user_id" r.
Proof.
  intros [Hreq _] Horph Hdep Hr.
  destruct (find_table_dependent t Hdep) as (tbl & Hft & Hfks & Hne).
  apply find_table_Some in Hft as [Hin <-].
  assert (integer_not_null "user_id" ∈ tbl_columns tbl) as Hc.
  { apply schema_tables in Hin as [ -> | [ -> | [ -> | -> ] ] ];
      [done|right; by left..]. }
  pose proof (not_null_ok_column tbl r (integer_not_null "user_id") Hc eq_refl
                (Hreq tbl r Hin Hr)) as Hu.
  change (col_name _) with "user_id" in Hu. split; [done|].
  apply (Horph tbl user_fk r Hin); [rewrite Hfks; by left|done|done].
Qed.

(** X8.  On a connection that enforces foreign keys, after every sequence
    of statements run on the empty database, each row of [liked_songs],
    [password_reset_codes] and [session_tokens] has a [user_id] that is not
    NULL and is the id of a stored user. *)
Theorem dependent_rows_have_a_user (ss : list (value * Stmt)) (t : string) (r : row) :
  dependent t → r ∈ rows_of t (run (empty_db true) ss) →
  get "user_id" r ≠ VNull
  ∧ ∃ u, u ∈ rows_of "users" (run (empty_db true) ss)
         ∧ get "id" u = get "user_id" r.
Proof.
  intros Hdep Hr.
  apply (dependent_user_id t _ r); [apply run_stored_ok|apply run_enforced|done..].
Qed.

(** Ann's token is stored, the token of a user that does not exist is not,
    and when Ann is deleted her token goes with her. *)
Lemma dependent_rows_have_a_user_witness :
  let ann : row :=
    list_to_map [ ("name", VText "Ann"); ("email", VText "a@x.com");
                  ("password_hash", VText "h") ] in
  let token (u : Z) (jti : string) : row :=
    list_to_map [ ("user_id", VInt u); ("token_jti", VText jti);
                  ("expires_at", VInt 900) ] in
  let ss := [ (VInt 100, Insert "users" ann);
              (VInt 101, Insert "session_tokens" (token 1 "j1"));
              (VInt 102, Insert "session_tokens" (token 7 "j7")) ] in
  let r := build_row (VInt 101) 1 session_tokens (token 1 "j1") in
  r ∈ rows_of "session_tokens" (run (empty_db true) ss)
  ∧ length (rows_of "session_tokens" (run (empty_db true) ss)) = 1%nat
  ∧ get "user_id" r ≠ VNull
  ∧ ∃ u, u ∈ rows_of "users" (run (empty_db true) ss)
         ∧ get "id" u = get "user_id" r.
Proof.
  intros ann token ss r.
  assert (r ∈ rows_of "session_tokens" (run (empty_db true) ss)) as Hin.
  { apply (bool_decide_unpack _). vm_compute. exact I. }
  split_and!; [exact Hin|vm_compute; reflexivity|..];
    apply (dependent_rows_have_a_user ss "session_tokens" r);
    first [exact Hin|do 2 right; reflexivity].
Defined.

(** *** The totals of the view *)

Lemma user_statistics_rows (db : DB) :
  stored_ok db →
  user_statistics db = map (statistics_row db) (rows_of "users" db)
  ∧ ∀ u, u ∈ rows_of "users" db →
      get "total_liked_songs" (statistics_row db u)
      = VInt (Z.of_nat (length (List.filter
                                  (fun ls => bool_decide (get "user_id" ls = get "id" u))
                                  (rows_of "liked_songs" db)))).
Proof.
  intros Hok. pose proof Hok as [Hreq Hkeys]. split.
  - unfold user_statistics. f_equal.
    apply group_heads_distinct; [|intros ? _; apply not_elem_of_nil].
    apply (Hkeys users (primary_key "id")); [by left|by left|done].
  - intros u Hu.
    destruct (statistics_row_fields db u Hok Hu) as (_ & _ & _ & -> & _).
    assert (get "id" u ≠ VNull) as Hnn.
    { apply (not_null_ok_column users u (primary_key "id")); [by left|done|].
      apply (Hreq users); [by left|done]. }
    f_equal. destruct (joined_mine db u Hnn) as [[Hm ->]|[_ ->]].
    + by rewrite Hm.
    + rewrite count_distinct_keys; [by rewrite length_map|..].
      * apply NoDup_map_filter.
        apply (Hkeys liked_songs (primary_key "id"));
          [right; by left|by left|done].
      * intros Hin. apply list_elem_of_In, in_map_iff in Hin as (ls & Hls & Hin).
        apply filter_In in Hin as [Hin _]. apply list_elem_of_In in Hin.
        apply (not_null_ok_column liked_songs ls (primary_key "id"));
          [by left|done| |done].
        apply (Hreq liked_songs); [right; by left|done].
Qed.

Lemma count_one {A} (f : A → value) (k : value) (us : list A) :
  NoDup (map f us) → k ∈ map f us →
  foldr Z.add 0 (map (fun u => if bool_decide (k = f u) then 1 else 0) us) = 1.
Proof.
  induction us as [|u us IH]; simpl; intros Hnd Hin.
  - by apply elem_of_nil in Hin.
  - apply NoDup_cons in Hnd as [Hu Hnd].
    apply elem_of_cons in Hin as [->|Hin].
    + rewrite bool_decide_eq_true_2 by done.
      assert (foldr Z.add 0
                (map (fun u' => if bool_decide (f u = f u') then 1 else 0) us) = 0)
        as ->; [|done].
      clear IH Hnd. induction us as [|u' us IH]; [done|]. simpl.
      rewrite bool_decide_eq_false_2.
      * rewrite IH; [done|]. intros H. apply Hu. by right.
      * intros H. apply Hu. rewrite H. by left.
    + rewrite bool_decide_eq_false_2; [by rewrite IH|].
      intros ->. done.
Qed.

Lemma count_partition {A B} (f : A → value) (g : B → value)
  (us : list A) (ls : list B) :
  NoDup (map f us) → (∀ l, l ∈ ls → g l ∈ map f us) →
  foldr Z.add 0
    (map (fun u => Z.of_nat (length (List.filter (fun l => bool_decide (g l = f u)) ls)))
       us)
  = Z.of_nat (length ls).
Proof.
  intros Hnd. induction ls as [|l ls IH]; intros Hall.
  - simpl. clear Hnd Hall. induction us as [|u us IHu]; [done|]. simpl.
    by rewrite IHu.
  - assert (∀ us' : list A,
      foldr Z.add 0
        (map (fun u => Z.of_nat (length (List.filter
                                           (fun l' => bool_decide (g l' = f u)) (l :: ls))))
           us')
      = foldr Z.add 0 (map (fun u => if bool_decide (g l = f u) then 1 else 0) us')
        + foldr Z.add 0
            (map (fun u => Z.of_nat (length (List.filter
                                               (fun l' => bool_decide (g l' = f u)) ls)))
               us')) as Hsplit.
    { induction us' as [|u us' IHu]; [done|]. cbn [map foldr]. rewrite IHu.
      cbn [List.filter]. destruct (bool_decide (g l = f u)); simpl length; lia. }
    rewrite Hsplit, (count_one f (g l) us Hnd) by (apply Hall; by left).
    rewrite IH by (intros l' Hl'; apply Hall; by right).
    simpl length. lia.
Qed.

(** X9.  On a database whose rows satisfy the declared constraints and
    whose liked songs all belong to a stored user, the
    [total_liked_songs] of the view add up to the number of rows of
    [liked_songs]: every liked song is counted for exactly one user. *)
Theorem user_statistics_totals_add_up (db : DB) :
  stored_ok db → no_orphans db →
  sum_of_totals db = Z.of_nat (length (rows_of "liked_songs" db)).
Proof.
  intros Hok Horph. pose proof Hok as [_ Hkeys].
  assert (NoDup (map (get "id") (rows_of "users" db))) as Hnd.
  { apply (Hkeys users (primary_key "id")); [by left|by left|done]. }
  destruct (user_statistics_rows db Hok) as [Hrows Htot].
  unfold sum_of_totals. rewrite Hrows, map_map.
  rewrite <- (count_partition (get "id") (get "user_id") (rows_of "users" db)
                (rows_of "liked_songs" db) Hnd).
  - f_equal. apply map_ext_in. intros u Hu. apply list_elem_of_In in Hu.
    unfold total_of. by rewrite (Htot u Hu).
  - intros l Hl.
    destruct (dependent_user_id "liked_songs" db l Hok Horph) as (_ & u & Hu & Hid);
      [by left|done|].
    rewrite <- Hid. apply list_elem_of_In, in_map. by apply list_elem_of_In.
Qed.

(** Ann likes two songs and Bob one; a fourth like, for a user that does
    not exist, is rejected: the totals add up to 3. *)
Lemma user_statistics_totals_add_up_witness :
  let user (n e : string) : row :=
    list_to_map [ ("name", VText n); ("email", VText e);
                  ("password_hash", VText "h") ] in
  let song (u : Z) (title : string) : row :=
    list_to_map [ ("user_id", VInt u); ("song_title", VText title);
                  ("artist", VText "Queen") ] in
  let db := run (empty_db true)
              [ (VInt 100, Insert "users" (user "Ann" "a@x.com"));
                (VInt 101, Insert "users" (user "Bob" "b@x.com"));
                (VInt 102, Insert "liked_songs" (song 1 "Jazz"));
                (VInt 103, Insert "liked_songs" (song 2 "Jazz"));
                (VInt 104, Insert "liked_songs" (song 7 "Jazz"));
                (VInt 105, Insert "liked_songs" (song 1 "Innuendo")) ] in
  stored_ok db ∧ no_orphans db
  ∧ sum_of_totals db = Z.of_nat (length (rows_of "liked_songs" db))
  ∧ length (rows_of "liked_songs" db) = 3%nat.
Proof.
  intros user song db.
  assert (stored_ok db) as Hok by apply run_stored_ok.
  assert (no_orphans db) as Horph by apply run_enforced.
  split_and!; [exact Hok|exact Horph| |vm_compute; reflexivity].
  exact (user_statistics_totals_add_up db Hok Horph).
Defined.

End SqlRunFacts.

(** ** The session *)

Module SessionFacts.

Import Api Session.

Lemma quote_not_space (c : ascii) : is_quote c = true → is_space c = false.
Proof.
  unfold is_quote. intros [H|H]%orb_true_iff; apply bool_decide_eq_true in H;
    by subst c.
Qed.

Lemma trimStart_spaces (ws s : string) :
  all_space ws = true → trimStart (ws ++ s)%string = trimStart s.
Proof.
  induction ws as [|c ws IH]; simpl; [done|].
  intros [Hc Hws]%andb_true_iff. rewrite Hc. by apply IH.
Qed.

Lemma trimEnd_all_space (ws : string) : all_space ws = true → trimEnd ws = "".
Proof.
  induction ws as [|c ws IH]; simpl; [done|].
  intros [Hc Hws]%andb_true_iff. by rewrite IH, Hc.
Qed.

Lemma trimEnd_last (s : string) (b : ascii) :
  last_char s = Some b → is_space b = false → trimEnd s = s.
Proof.
  induction s as [|c s IH]; [done|]. intros Hlast Hb.
  destruct s as [|c' s'].
  - simpl in *. injection Hlast as ->. by rewrite Hb.
  - change (last_char (String c (String c' s'))) with (last_char (String c' s')) in Hlast.
    change (trimEnd (String c (String c' s')))
      with (match trimEnd (String c' s') with
            | EmptyString => if is_space c then EmptyString else String c EmptyString
            | t => String c t
            end).
    by rewrite (IH Hlast Hb).
Qed.

Lemma trimEnd_spaces (s ws : string) (b : ascii) :
  last_char s = Some b → is_space b = false → all_space ws = true →
  trimEnd (s ++ ws)%string = s.
Proof.
  induction s as [|c s IH]; [done|]. intros Hlast Hb Hws.
  destruct s as [|c' s'].
  - simpl in Hlast. injection Hlast as ->.
    change (trimEnd (String b "" ++ ws)%string)
      with (match trimEnd ws with
            | EmptyString => if is_space b then EmptyString else String b EmptyString
            | t => String b t
            end).
    by rewrite (trimEnd_all_space ws Hws), Hb.
  - change (last_char (String c (String c' s'))) with (last_char (String c' s')) in Hlast.
    change (trimEnd (String c (String c' s') ++ ws)%string)
      with (match trimEnd (String c' s' ++ ws)%string with
            | EmptyString => if is_space c then EmptyString else String c EmptyString
            | t => String c t
            end).
    by rewrite (IH Hlast Hb Hws).
Qed.

Lemma last_char_snoc (s : string) (b : ascii) :
  last_char (s ++ String b "")%string = Some b.
Proof.
  induction s as [|c s IH]; [done|].
  change ((String c s ++ String b "")%string) with (String c (s ++ String b "")%string).
  destruct (s ++ String b "")%string eqn:E; [by destruct s|]. exact IH.
Qed.

Lemma replace_quotes_snoc (t : string) (q : ascii) :
  is_quote q = true → replace_quotes false (t ++ String q "")%string = t.
Proof.
  intros Hq. induction t as [|c t IH]; simpl.
  - by rewrite Hq.
  - rewrite IH. rewrite bool_decide_eq_false_2; [by rewrite andb_false_r|].
    by destruct t.
Qed.

Lemma replace_quotes_last (s : string) :
  from_option (fun b => negb (is_quote b)) true (last_char s) = true →
  replace_quotes false s = s.
Proof.
  induction s as [|c s IH]; [done|]. intros Hlast.
  destruct s as [|c' s'].
  - simpl in *. apply negb_true_iff in Hlast. by rewrite Hlast.
  - change (last_char (String c (String c' s'))) with (last_char (String c' s')) in Hlast.
    change (replace_quotes false (String c (String c' s')))
      with (if is_quote c && (false || bool_decide (String c' s' = ""))
            then replace_quotes false (String c' s')
            else String c (replace_quotes false (String c' s'))).
    rewrite bool_decide_eq_false_2 by done. rewrite andb_false_r.
    by rewrite (IH Hlast).
Qed.

Lemma app_assoc_string (a b c : string) :
  ((a ++ b) ++ c = a ++ (b ++ c))%string.
Proof.
  induction a as [|x a IH]; [done|].
  change (String x ((a ++ b) ++ c) = String x (a ++ (b ++ c)))%string.
  by rewrite IH.
Qed.

(** X10.  Cleaning a token removes the white space around it and then one
    quote at each end, and nothing else: a token wrapped in quotes and
    white space comes out as it was wrapped, whatever it consists of. *)
Theorem cleanToken_unwraps_one_layer (ws1 ws2 t : string) (q1 q2 : ascii) :
  all_space ws1 = true → all_space ws2 = true →
  is_quote q1 = true → is_quote q2 = true →
  cleanToken (ws1 ++ String q1 (t ++ String q2 ws2))%string = t.
Proof.
  intros H1 H2 Hq1 Hq2. unfold cleanToken, trim.
  rewrite (trimStart_spaces ws1 _ H1). simpl trimStart.
  rewrite (quote_not_space q1 Hq1).
  change (String q1 (t ++ String q2 ws2)%string)
    with ((String q1 t ++ String q2 ws2)%string).
  change (String q2 ws2) with ((String q2 "" ++ ws2)%string).
  rewrite <- app_assoc_string.
  rewrite (trimEnd_spaces _ ws2 q2);
    [|apply last_char_snoc|by apply quote_not_space|done].
  change ((String q1 t ++ String q2 "")%string)
    with (String q1 (t ++ String q2 "")%string).
  cbn [replace_quotes]. rewrite Hq1. simpl.
  by apply replace_quotes_snoc.
Qed.

(** A token stored by [JSON.stringify], with a line break after it, comes
    out bare; a token that itself begins with a quote keeps it. *)
Lemma cleanToken_unwraps_one_layer_witness :
  let nl := String (ascii_of_nat 10) "" in
  let dq := String dquote "" in
  cleanToken (" " ++ dq ++ "abc.def" ++ dq ++ nl)%string = "abc.def"
  ∧ cleanToken (dq ++ "'abc " ++ dq)%string = "'abc ".
Proof.
  intros nl dq. split.
  - apply (cleanToken_unwraps_one_layer " " nl "abc.def" dquote dquote);
      reflexivity.
  - apply (cleanToken_unwraps_one_layer "" "" "'abc " dquote dquote); reflexivity.
Defined.

Lemma trimStart_shrinks (s : string) :
  (trimStart s = s ∧ from_option (fun a => negb (is_space a)) true (head (list_ascii_of_string s)) = true)
  ∨ (String.length (trimStart s) < String.length s)%nat.
Proof.
  induction s as [|c s IH]; [by left|]. simpl.
  destruct (is_space c) eqn:Hc; [right|by left].
  destruct IH as [[-> _]|IH]; lia.
Qed.

Lemma trimEnd_length (s : string) : (String.length (trimEnd s) ≤ String.length s)%nat.
Proof.
  induction s as [|c s IH]; [done|]. simpl.
  destruct (trimEnd s); [destruct (is_space c)|]; simpl in *; lia.
Qed.

Lemma trimEnd_shrinks (s : string) :
  (trimEnd s = s ∧ from_option (fun b => negb (is_space b)) true (last_char s) = true)
  ∨ (String.length (trimEnd s) < String.length s)%nat.
Proof.
  induction s as [|c s IH]; [by left|].
  destruct s as [|c' s'].
  - simpl. destruct (is_space c); [right; simpl; lia|by left].
  - change (last_char (String c (String c' s'))) with (last_char (String c' s')).
    change (trimEnd (String c (String c' s')))
      with (match trimEnd (String c' s') with
            | EmptyString => if is_space c then EmptyString else String c EmptyString
            | t => String c t
            end).
    destruct IH as [[-> Hl]|IH]; [by left|right].
    destruct (trimEnd (String c' s')); [destruct (is_space c)|]; simpl in *; lia.
Qed.

Lemma replace_quotes_length (b : bool) (s : string) :
  (String.length (replace_quotes b s) ≤ String.length s)%nat.
Proof.
  revert b. induction s as [|c s IH]; intros b; [done|]. simpl.
  pose proof (IH false).
  destruct (is_quote c && (b || bool_decide (s = ""))); simpl; lia.
Qed.

Lemma replace_quotes_shrinks (s : string) :
  (replace_quotes false s = s
   ∧ from_option (fun b => negb (is_quote b)) true (last_char s) = true)
  ∨ (String.length (replace_quotes false s) < String.length s)%nat.
Proof.
  induction s as [|c s IH]; [by left|].
  destruct s as [|c' s'].
  - simpl. destruct (is_quote c); [right; simpl; lia|by left].
  - change (last_char (String c (String c' s'))) with (last_char (String c' s')).
    change (replace_quotes false (String c (String c' s')))
      with (if is_quote c && (false || bool_decide (String c' s' = ""))
            then replace_quotes false (String c' s')
            else String c (replace_quotes false (String c' s'))).
    rewrite bool_decide_eq_false_2 by done. rewrite andb_false_r.
    destruct IH as [[-> Hl]|IH]; [by left|right]. simpl in *. lia.
Qed.

Lemma last_char_cons (c : ascii) (s : string) :
  last_char (String c s) = Some (default c (last_char s)).
Proof.
  revert c. induction s as [|c' s IH]; intros c; [done|].
  change (last_char (String c (String c' s))) with (last_char (String c' s)).
  by rewrite (IH c').
Qed.

(** X11.  Cleaning leaves a token as it is exactly when the token neither
    begins nor ends with white space or a quote. *)
Theorem cleanToken_fixes_plain_ends (s : string) :
  cleanToken s = s ↔ plain_ends s = true.
Proof.
  destruct s as [|a s]; [done|]. unfold cleanToken, trim, plain_ends, plain.
  rewrite last_char_cons. cbn [from_option]. split.
  - intros Heq.
    pose proof (trimEnd_length (trimStart (String a s))) as Hle1.
    pose proof (replace_quotes_length true (trimEnd (trimStart (String a s)))) as Hle2.
    assert (String.length (replace_quotes true (trimEnd (trimStart (String a s))))
            = String.length (String a s)) as Hlen by (by rewrite Heq).
    destruct (trimStart_shrinks (String a s)) as [[Hs Ha]|?]; [|lia].
    rewrite Hs in *. simpl in Ha.
    destruct (trimEnd_shrinks (String a s)) as [[He Hb]|?]; [|lia].
    rewrite He in *. rewrite last_char_cons in Hb. cbn [from_option] in Hb.
    cbn [replace_quotes] in Heq, Hlen. rewrite orb_true_l, andb_true_r in Heq, Hlen.
    destruct (is_quote a) eqn:Hqa.
    { pose proof (replace_quotes_length false s). simpl in Hlen. lia. }
    injection Heq as Heq.
    destruct (replace_quotes_shrinks s) as [[_ Hq]|?]; [|simpl in Hlen; lia].
    rewrite Ha, Hb. simpl.
    destruct (last_char s) as [b|] eqn:Hl; simpl in *; [done|by rewrite Hqa].
  - intros [[Ha Hqa]%andb_true_iff [Hb Hqb]%andb_true_iff]%andb_true_iff.
    apply negb_true_iff in Ha, Hb, Hqa.
    cbn [trimStart]. rewrite Ha.
    rewrite (trimEnd_last (String a s) (default a (last_char s)));
      [|apply last_char_cons|done].
    cbn [replace_quotes]. rewrite Hqa. cbn [andb]. f_equal.
    apply replace_quotes_last.
    destruct (last_char s) as [b|]; simpl in *; done.
Qed.

(** X12.  The route guard and the request interceptor agree: a request
    gets an [Authorization] header exactly when [isAuthenticated] holds,
    the header then is [Bearer] followed by the cleaned token, and the
    request is otherwise left as it is.  After [setAuthToken],
    [isAuthenticated] holds exactly when the token given was a non-empty
    string, whatever was stored before. *)
Theorem bearer_iff_authenticated (store : gmap string string) (config : Config) :
  url (request_interceptor store config) = url config
  ∧ (if isAuthenticated store
     then ∃ token, store !! "access_token" = Some token
                   ∧ Authorization (request_interceptor store config)
                     = Some ("Bearer " ++ cleanToken token)%string
     else request_interceptor store config = config)
  ∧ ∀ token, isAuthenticated (setAuthToken token store)
             = from_option nonempty false token.
Proof.
  split_and!.
  - unfold request_interceptor.
    destruct (store !! "access_token") as [token|]; [|done].
    by destruct (nonempty token).
  - unfold isAuthenticated, request_interceptor.
    destruct (store !! "access_token") as [token|]; [|done].
    destruct (nonempty token); [|done]. by exists token.
  - intros [t|]; unfold isAuthenticated, setAuthToken; simpl.
    + destruct (nonempty t) eqn:Ht.
      * by rewrite lookup_insert_eq.
      * by rewrite lookup_delete_eq.
    + by rewrite lookup_delete_eq.
Qed.

End SessionFacts.

(** ** The routes *)

Module AppFacts.

Import Api Session App.

Lemma removeItem_lookup (k k' : string) (b : Browser) :
  localStorage (removeItem k b) !! k'
  = if decide (k = k') then None else localStorage b !! k'.
Proof.
  unfold removeItem. simpl. destruct (decide (k = k')) as [->|Hne].
  - apply lookup_delete_eq.
  - by apply lookup_delete_ne.
Qed.

Lemma logout_session (b : Browser) :
  localStorage (logout b) = delete "user" (delete "access_token" (localStorage b))
  ∧ href (logout b) = "/login"
  ∧ isAuthenticated (localStorage (logout b)) = false.
Proof.
  split_and!; [done..|]. unfold isAuthenticated, logout. simpl.
  rewrite lookup_delete_ne by done. by rewrite lookup_delete_eq.
Qed.

Lemma loaded_logged_out (b : Browser) :
  href b = "/login" → isAuthenticated (localStorage b) = false →
  loaded b = Some PLogin.
Proof. intros Hh Ha. unfold loaded. by rewrite Hh, Ha. Qed.

(** X13.  Whatever route is entered and whatever [isAuthenticated]
    returned when the page was loaded, at most three redirections lead to
    a page, and that page fits the session: [MainApp] or [ProfilePage]
    when a token is stored, [RegisterPage] or [LoginPage] when none is.  A
    protected page is never shown without a token, and the redirections do
    not loop. *)
Theorem routes_fit_the_session (at_load now : bool) (r : Route) :
  ∃ p, shown 3 at_load now r = Some p
       ∧ (if now then p = PMainApp ∨ p = PProfile
          else p = PRegister ∨ p = PLogin).
Proof.
  destruct at_load, now, r; simpl; eexists; (split; [reflexivity|]); auto.
Qed.

(** X14.  After the response interceptor has handled a 401, and after
    [logout], no token is stored and the browser loads [/login], where the
    application shows the login page. *)
Theorem teardown_shows_login (b : Browser) :
  loaded (logout b) = Some PLogin
  ∧ ∀ e, is_401 e = true →
         isAuthenticated (localStorage (on_rejected e b).1) = false
         ∧ loaded (on_rejected e b).1 = Some PLogin.
Proof.
  destruct (logout_session b) as (_ & Hh & Ha). split.
  - by apply loaded_logged_out.
  - intros e He. unfold on_rejected. rewrite He. simpl.
    split; [exact Ha|]. by apply (loaded_logged_out (logout b)).
Qed.

Lemma teardown_shows_login_witness :
  let b := mkBrowser {[ "access_token" := "abc"; "user" := "{}" ]} "/profile" [] in
  let e := mkAxiosError (Some (mkResponse 401 "")) in
  loaded b = Some PProfile
  ∧ loaded (logout b) = Some PLogin
  ∧ isAuthenticated (localStorage (on_rejected e b).1) = false
  ∧ loaded (on_rejected e b).1 = Some PLogin.
Proof.
  intros b e. split; [vm_compute; reflexivity|].
  destruct (teardown_shows_login b) as [H1 H2]. split; [exact H1|].
  apply (H2 e). reflexivity.
Defined.

End AppFacts.

(** ** Deleting the account *)

Module ProfilePageFacts.

Import Api Session App ProfilePage AppFacts.

(** X15.  [handleDeleteAccount] sends nothing and changes nothing when the
    confirmation is declined.  When it is given, one request is sent; the
    session is torn down (no token, no user, the browser at [/login]) when
    the backend answers with a 2xx status, which is reported as a success,
    and also when it answers 401, which is reported as a failure; after any
    other answer, and when no answer arrives, the browser is as before. *)
Theorem handleDeleteAccount_outcomes (confirmed : bool) (t : Transport) (b : Browser) :
  let o := handleDeleteAccount confirmed t b in
  let torn_down :=
    localStorage (browser o) = delete "user" (delete "access_token" (localStorage b))
    ∧ href (browser o) = "/login" ∧ loaded (browser o) = Some PLogin in
  if confirmed then
    requests o = 1%nat
    ∧ match t with
      | Http r =>
          if (200 <=? status r) && (status r <? 300) then
            alerts o = ["Account deleted successfully"] ∧ torn_down
          else
            alerts o = ["Failed to delete account. Please try again."]
            ∧ if status r =? 401 then torn_down else browser o = b
      | NoResponse =>
          alerts o = ["Failed to delete account. Please try again."]
          ∧ browser o = b
      end
  else o = mkOutcome b [] 0.
Proof.
  destruct confirmed; [|done]. unfold handleDeleteAccount, api_receive.
  destruct (logout_session b) as (Hs & Hh & Ha).
  destruct t as [|r]; simpl; [done|].
  destruct ((200 <=? status r) && (status r <? 300)) eqn:Hok; simpl.
  - split; [done|]. split; [done|]. split_and!; [done..|].
    by apply (loaded_logged_out (logout b)).
  - unfold on_rejected, is_401. simpl.
    destruct (status r =? 401) eqn:H401; simpl; [|done].
    split; [done|]. split; [done|]. split_and!; [done..|].
    by apply (loaded_logged_out (logout b)).
Qed.

End ProfilePageFacts.

(** ** From a login or a registration to the first request *)

Module SignInFacts.

Import Api Session App SessionFacts.

Lemma trimStart_head (s : string) :
  from_option (fun a => negb (is_space a)) true
    (head (list_ascii_of_string (trimStart s))) = true.
Proof.
  induction s as [|c s IH]; [done|]. simpl.
  destruct (is_space c) eqn:Hc; [done|]. simpl. by rewrite Hc.
Qed.

Lemma trimEnd_last_plain (s : string) :
  from_option (fun b => negb (is_space b)) true (last_char (trimEnd s)) = true.
Proof.
  induction s as [|c s IH]; [done|]. simpl.
  destruct (trimEnd s) as [|x y] eqn:E.
  - destruct (is_space c) eqn:Hc; [done|]. simpl. by rewrite Hc.
  - change (last_char (String c (String x y))) with (last_char (String x y)).
    exact IH.
Qed.

Lemma trimEnd_head (a : ascii) (s : string) :
  is_space a = false → ∃ u, trimEnd (String a s) = String a u.
Proof.
  intros Ha. simpl. destruct (trimEnd s); [rewrite Ha|]; by eexists.
Qed.

Lemma trim_idempotent (s : string) : trim (trim s) = trim s.
Proof.
  unfold trim. pose proof (trimStart_head s) as Hh.
  destruct (trimStart s) as [|a t]; [done|]. simpl in Hh.
  apply negb_true_iff in Hh.
  destruct (trimEnd_head a t Hh) as [u Hu]. rewrite Hu.
  cbn [trimStart]. rewrite Hh, <- Hu.
  pose proof (trimEnd_last_plain (String a t)) as Hl.
  destruct (last_char (trimEnd (String a t))) as [b|] eqn:Hb.
  - simpl in Hl. apply negb_true_iff in Hl. by apply (trimEnd_last _ b).
  - rewrite Hu in Hb. by rewrite last_char_cons in Hb.
Qed.

Lemma stored_token_session (store : gmap string string) (tok : string) :
  store !! "access_token" = Some (trim tok) →
  if nonempty (trim tok)
  then isAuthenticated store = true
       ∧ ∀ config, request_interceptor store config
                   = mkConfig (url config) (Some ("Bearer " ++ cleanToken tok)%string)
  else isAuthenticated store = false
       ∧ ∀ config, request_interceptor store config = config.
Proof.
  intros Hs. unfold isAuthenticated, request_interceptor. rewrite Hs.
  destruct (nonempty (trim tok)); [|done]. split; [done|]. intros config.
  unfold cleanToken. by rewrite trim_idempotent.
Qed.

(** X16.  When the backend accepts a login with a 2xx response whose body
    has [success] and a token, [handleSubmit] stores the trimmed token,
    shows no error and schedules the navigation to [/app].  If the trimmed
    token is not empty, every later request carries [Bearer] followed by
    the cleaned token and [/app] shows [MainApp]; if it is empty, the user
    counts as logged out, requests carry no header, and [/app] leads back
    to the login page. *)
Theorem login_token_reaches_requests
  (decode : string → LoginForm.LoginResponse)
  (message_of : string → option string)
  (server : LoginForm.Credentials → Transport)
  (st : LoginForm.State) (b : Browser) (r : Response) (tok : string) :
  server (LoginForm.mkCredentials (LoginForm.email (LoginForm.formData st))
            (LoginForm.password (LoginForm.formData st))) = Http r →
  (200 <=? status r) && (status r <? 300) = true →
  LoginForm.success (decode (data r)) = true →
  LoginForm.access_token (decode (data r)) = Some tok →
  let o := LoginForm.handleSubmit decode message_of server st b in
  let store := localStorage (LoginForm.browser o) in
  store = <["user" := LoginForm.user (decode (data r))]>
            (<["access_token" := trim tok]> (localStorage b))
  ∧ LoginForm.error (LoginForm.state o) = ""
  ∧ LoginForm.navigate_later o = Some "/app"
  ∧ route_of "/app" = Some AppHome
  ∧ ∀ at_load config,
      if nonempty (trim tok)
      then request_interceptor store config
           = mkConfig (url config) (Some ("Bearer " ++ cleanToken tok)%string)
           ∧ shown 3 at_load (isAuthenticated store) AppHome = Some PMainApp
      else request_interceptor store config = config
           ∧ shown 3 at_load (isAuthenticated store) AppHome = Some PLogin.
Proof.
  intros Hsrv Hok Hsucc Htok o store.
  assert (o = LoginForm.mkOutcome (LoginForm.mkState (LoginForm.formData st) false "")
                (LoginForm.setItem "user" (LoginForm.user (decode (data r)))
                   (LoginForm.setItem "access_token" (trim tok) b))
                (LoginForm.mkCredentials (LoginForm.email (LoginForm.formData st))
                   (LoginForm.password (LoginForm.formData st)))
                (Some "/app")) as Ho.
  { unfold o, LoginForm.handleSubmit, api_receive. rewrite Hsrv. simpl.
    rewrite Hok. simpl. by rewrite Hsucc, Htok. }
  assert (store = <["user" := LoginForm.user (decode (data r))]>
                    (<["access_token" := trim tok]> (localStorage b))) as Hstore.
  { unfold store. by rewrite Ho. }
  split_and!; [done|by rewrite Ho|by rewrite Ho|done|].
  intros at_load config.
  assert (store !! "access_token" = Some (trim tok)) as Hlook.
  { rewrite Hstore. rewrite lookup_insert_ne by done. apply lookup_insert_eq. }
  pose proof (stored_token_session store tok Hlook) as Hsess.
  destruct (nonempty (trim tok)); destruct Hsess as [-> Hreq];
    (split; [apply Hreq|by destruct at_load]).
Qed.

Lemma login_token_reaches_requests_witness :
  let decode (_ : string) := LoginForm.mkLoginResponse true (Some " abc.def ") "{}" in
  let server (_ : LoginForm.Credentials) := Http (mkResponse 200 "body") in
  let st := LoginForm.mkState (LoginForm.mkFormData "a@x.com" "secret" false) false "" in
  let b := mkBrowser ∅ "/login" [] in
  let o := LoginForm.handleSubmit decode (fun _ => None) server st b in
  request_interceptor (localStorage (LoginForm.browser o)) (mkConfig "/music/liked" None)
  = mkConfig "/music/liked" (Some "Bearer abc.def")
  ∧ shown 3 false (isAuthenticated (localStorage (LoginForm.browser o))) AppHome
    = Some PMainApp.
Proof.
  intros decode server st b o.
  destruct (login_token_reaches_requests decode (fun _ => None) server st b
              (mkResponse 200 "body") " abc.def "
              eq_refl eq_refl eq_refl eq_refl) as (_ & _ & _ & _ & H).
  exact (H false (mkConfig "/music/liked" None)).
Defined.

(** X17.  When the three checks of the registration form pass and the
    backend answers with [success], [handleSubmit] has sent one request.
    If the body holds a string token, its effects store the trimmed token
    and the user and schedule one navigation, to [/app]; if the trimmed
    token is not empty, every later request carries [Bearer] followed by
    the cleaned token, and if it is empty, the user counts as logged out
    and requests carry no header.  If the body holds no string token,
    nothing is stored, no navigation is scheduled and the form shows
    [Registration failed. Please try again.] *)
Theorem register_token_reaches_requests
  (server : RegisterPage.RegisterRequest → RegisterPage.RegisterOutcome)
  (st : RegisterPage.State) (store : gmap string string)
  (token : option string) (user : string) :
  RegisterPage.preconditions (RegisterPage.formData st) →
  (∀ req, server req = RegisterPage.RegisterReturned true token user) →
  let out := RegisterPage.handleSubmit trim server st in
  let store' := RegisterEffects.stored store out.2 in
  length (RegisterPage.network_calls out.2) = 1%nat
  ∧ match token with
    | Some tok =>
        RegisterPage.error out.1 = ""
        ∧ store' = <["user" := user]> (<["access_token" := trim tok]> store)
        ∧ RegisterEffects.navigations out.2 = ["/app"]
        ∧ ∀ config,
            if nonempty (trim tok)
            then isAuthenticated store' = true
                 ∧ request_interceptor store' config
                   = mkConfig (url config)
                       (Some ("Bearer " ++ cleanToken tok)%string)
            else isAuthenticated store' = false
                 ∧ request_interceptor store' config = config
    | None =>
        RegisterPage.error out.1 = "Registration failed. Please try again."
        ∧ store' = store
        ∧ RegisterEffects.navigations out.2 = []
    end.
Proof.
  intros (Hpw & Hlen & Hg) Hsrv out store'.
  assert (∃ req,
            out = match token with
                  | Some tok =>
                      (RegisterPage.mkState (RegisterPage.formData st) false "",
                       [ RegisterPage.NetRegister req;
                         RegisterPage.StorageSetItem "access_token" (trim tok);
                         RegisterPage.StorageSetItem "user" user;
                         RegisterPage.NavigateLater "/app" ])
                  | None =>
                      (RegisterPage.mkState (RegisterPage.formData st) false
                         "Registration failed. Please try again.",
                       [ RegisterPage.NetRegister req ])
                  end) as [req Hout].
  { unfold out, RegisterPage.handleSubmit.
    rewrite (bool_decide_eq_true_2 _ Hpw). cbn [negb].
    rewrite (proj2 (Nat.ltb_ge _ _) Hlen).
    destruct (RegisterPage.preferred_genres (RegisterPage.formData st)) eqn:Hgs;
      [done|].
    cbn [length Nat.eqb]. rewrite Hsrv. eexists. by destruct token. }
  unfold store'. rewrite Hout. destruct token as [tok|]; [|done].
  split; [done|]. split; [done|]. split; [done|]. split; [done|].
  intros config. cbn [snd RegisterEffects.stored foldl RegisterEffects.store_effect].
  set (store2 := <["user" := user]> (<["access_token" := trim tok]> store)).
  assert (store2 !! "access_token" = Some (trim tok)) as Hlook.
  { unfold store2. rewrite lookup_insert_ne by done. apply lookup_insert_eq. }
  pose proof (stored_token_session store2 tok Hlook) as Hsess.
  destruct (nonempty (trim tok)); destruct Hsess as [-> Hreq];
    (split; [done|apply Hreq]).
Qed.

Lemma register_token_reaches_requests_witness :
  let server (_ : RegisterPage.RegisterRequest) :=
    RegisterPage.RegisterReturned true (Some "abc.def ") "{}" in
  let st := RegisterPage.mkState
              (RegisterPage.mkFormData "Ann" "a@x.com" "12345678" "12345678" ["Rock"])
              false "" in
  let es := (RegisterPage.handleSubmit trim server st).2 in
  request_interceptor (RegisterEffects.stored ∅ es) (mkConfig "/music/liked" None)
  = mkConfig "/music/liked" (Some "Bearer abc.def").
Proof.
  intros server st es.
  assert (RegisterPage.preconditions (RegisterPage.formData st)) as Hpre.
  { split_and!; [reflexivity|simpl; lia|done]. }
  destruct (register_token_reaches_requests server st ∅ (Some "abc.def ") "{}" Hpre
              (fun _ => eq_refl)) as (_ & _ & _ & _ & H).
  exact (proj2 (H (mkConfig "/music/liked" None))).
Defined.

End SignInFacts.

(** ** The reset flow *)

Module ResetFlowFacts.

Import LoginPage ResetFlow.

Section Client.

Variable server : Request → Outcome.











End Client.




End ResetFlowFacts.

(** ** Changing the language *)

Module MainAppEventsFacts.

Import MainApp MainAppEvents.

Section Handlers.

Variable decode : string → RecResponse.
Variable catalog : RecRequest → Api.Transport.

Lemma handleLanguageChange_detected (value e : string) (v : View) :
  detectedEmotion v = Some e →
  ∃ v1, handleLanguageChange decode catalog value v
        = (v1, Some (mkRecRequest (JS.toLowerCase e) (language (core v)) 6))
        ∧ language (core v1) = value
        ∧ detectedEmotion v1 = Some e.
Proof.
  intros He. unfold handleLanguageChange. rewrite He. eexists. by split_and!.
Qed.

Lemma unloads_never (r : option RecRequest) :
  (∀ req resp, catalog req = Api.Http resp → Api.status resp ≠ 401) →
  unloads catalog r = false.
Proof.
  intros Hno. destruct r as [req|]; [|done]. simpl.
  destruct (catalog req) as [|resp] eqn:Hc; [done|].
  apply Z.eqb_neq. by apply (Hno req).
Qed.

End Handlers.

(** X20.  Once an emotion is detected, each change of the language
    selector sends one recommendation request, and the request carries the
    language that was selected before the change, not the new one: over a
    sequence of changes during which no answer is a 401 (which would load
    the login page), the requested languages are the initial language
    followed by all selected values but the last, while the selector ends
    on the last value.  Every request is for the lowercased detected
    emotion with limit 6, and a refresh after the changes is the first
    request that asks for the language the selector shows. *)
Theorem language_change_requests_previous_language
  (decode : string → RecResponse) (catalog : RecRequest → Api.Transport)
  (values : list string) (v : View) (e : string) :
  detectedEmotion v = Some e →
  (∀ req resp, catalog req = Api.Http resp → Api.status resp ≠ 401) →
  map req_language (change_languages decode catalog values v).2
  = removelast (language (core v) :: values)
  ∧ language (core (change_languages decode catalog values v).1)
    = default (language (core v)) (last values)
  ∧ Forall (fun r => req_emotion r = JS.toLowerCase e ∧ req_limit r = 6)
      (change_languages decode catalog values v).2
  ∧ (handleRefresh decode catalog (change_languages decode catalog values v).1).2
    = Some (mkRecRequest (JS.toLowerCase e)
              (default (language (core v)) (last values)) 6).
Proof.
  intros He Hno. revert v He.
  induction values as [|value values IH]; intros v He.
  - split_and!; [done..|]. simpl. unfold handleRefresh. by rewrite He.
  - cbn [change_languages].
    destruct (handleLanguageChange_detected decode catalog value e v He)
      as (v1 & -> & Hlang & He1).
    rewrite (unloads_never catalog _ Hno).
    destruct (IH v1 He1) as (IH1 & IH2 & IH3 & IH4).
    destruct (change_languages decode catalog values v1) as [v2 rs].
    rewrite Hlang in *. simpl in *.
    assert (default value (last values)
            = default (language (core v)) (last (value :: values))) as <-.
    { rewrite (last_cons value values). by destruct (last values). }
    split_and!; [by rewrite IH1|done|by constructor|done].
Qed.

(** From English to Hindi and then to Spanish: the requests ask for
    English and Hindi, and the selector shows Spanish. *)
Lemma language_change_requests_previous_language_witness :
  let decode (_ : string) := mkRecResponse JUndefined JUndefined in
  let catalog (_ : RecRequest) := Api.NoResponse in
  let v := mkView (mkState (JTracks []) "english" false) (Some "Happy")
             (Api.mkBrowser ∅ "/app" []) in
  map req_language (change_languages decode catalog ["hindi"; "spanish"] v).2
  = ["english"; "hindi"]
  ∧ language (core (change_languages decode catalog ["hindi"; "spanish"] v).1)
    = "spanish".
Proof.
  intros decode catalog v.
  destruct (language_change_requests_previous_language decode catalog
              ["hindi"; "spanish"] v "Happy" eq_refl) as (H1 & H2 & _ & _).
  - intros req resp H. discriminate H.
  - split; [exact H1|exact H2].
Defined.

End MainAppEventsFacts.
